(** * DICOV2: the fuzzy matcher and the word-search grid packer

    A shallow embedding of the two algorithms of the application:
    - [levenshteinDistance] and the three "did you mean" routines built on it
      ([getSuggestion] of index.tsx, [suggestedEntry] of vite.config.ts and the
      suggestion effect of the third application file);
    - the two word-search packers ([generateNewGame] of index.tsx and [setupGame]
      of vite.config.ts) with their selection handlers ([handleMouseUp]).

    Modelling conventions.
    - A JavaScript string is the list of its UTF-16 code units ([jsstring]).
      The case mappings are modelled on the code units up to U+017F, with the
      letters that map to two code units; higher code units are left as they
      are.
    - [Math.random()] is an oracle: an arbitrary stream of values of [0,1),
      read through a counter that every call advances.  [Math.floor] of a
      product is computed exactly; rounding in the product would only change
      which value of the stream gives which index.
    - A JavaScript run-time failure (reading a property of [undefined]) and a
      read that would yield [undefined] are both reported as [None] by the
      model; the model is therefore stricter than the program, and a theorem
      saying that it returns [Some] says that the program meets neither. *)

From Stdlib Require Import Ascii String.
From stdpp Require Import base option list.

Local Open Scope nat_scope.
Local Open Scope list_scope.

(** ** Strings *)

(** A string is the sequence of its UTF-16 code units, each a number below
    65536; [s.length], [s.charAt(i)], [s[i]] and [s.split('')] all count in
    code units. *)
Abbreviation code_unit := N.
Abbreviation jsstring := (list code_unit).

(** The code unit of a character of a literal, and the string of a literal. *)
Definition code (c : ascii) : code_unit := N_of_ascii c.
Definition str (s : String.string) : jsstring := code <$> String.list_ascii_of_string s.

Definition between (lo hi c : N) : bool := ((lo <=? c) && (c <=? hi))%N.

(** [toLowerCase] and [toUpperCase] on one code unit of Basic Latin, Latin-1
    Supplement and Latin Extended-A (up to U+017F), where the letters of the
    vocabulary lie.  The result is a string, since three letters map to two
    code units: the lower case of U+0130 (capital I with a dot) is "i" followed
    by U+0307, the upper case of U+00DF (sharp s) is "SS" and that of U+0149 is
    U+02BC followed by "N".  The capitals A-Z and U+00C0-U+00DE (but for the
    multiplication sign U+00D7) are 32 below their small letters; in Latin
    Extended-A a capital is one below its small letter, and is even up to
    U+0137 and from U+014A to U+0177, odd from U+0139 to U+0148 and from
    U+0179 on.  Code units above U+017F are outside the model and are left as
    they are. *)
Definition toLowerCase_unit (c : code_unit) : jsstring :=
  (if between 65 90 c || (between 192 222 c && negb (c =? 215)) then [c + 32]
   else if c =? 304 then [105; 775]
   else if c =? 376 then [255]
   else if (between 256 311 c || between 330 375 c) && N.even c then [c + 1]
   else if (between 313 328 c || between 377 382 c) && N.odd c then [c + 1]
   else [c])%N.

Definition toUpperCase_unit (c : code_unit) : jsstring :=
  (if between 97 122 c || (between 224 254 c && negb (c =? 247)) then [c - 32]
   else if c =? 181 then [924]
   else if c =? 223 then [83; 83]
   else if c =? 255 then [376]
   else if c =? 305 then [73]
   else if c =? 329 then [700; 78]
   else if c =? 383 then [83]
   else if (between 257 311 c || between 331 375 c) && N.odd c then [c - 1]
   else if (between 314 328 c || between 378 382 c) && N.even c then [c - 1]
   else [c])%N.

Definition toLowerCase (s : jsstring) : jsstring := flat_map toLowerCase_unit s.
Definition toUpperCase (s : jsstring) : jsstring := flat_map toUpperCase_unit s.

Fixpoint jsstring_eqb (a b : jsstring) : bool :=
  match a, b with
  | [], [] => true
  | x :: a', y :: b' => N.eqb x y && jsstring_eqb a' b'
  | _, _ => false
  end.

(** [arr.includes(x)] on an array of strings, and [s.includes(' ')]. *)
Definition includes (l : list jsstring) (x : jsstring) : bool :=
  existsb (jsstring_eqb x) l.

Definition includes_char (s : jsstring) (c : code_unit) : bool :=
  existsb (N.eqb c) s.

(** ** Loops and arrays *)

(** [for (let j = start; j < start + n; j++) body] threading a state, in the
    error monad. *)
Fixpoint for_loop {St : Type} (n start : nat) (body : nat → St → option St)
    (s : St) : option St :=
  match n with
  | 0 => Some s
  | S n' => s' ← body start s; for_loop n' (S start) body s'
  end.

(** [a[i] = v] on a dense array of numbers: an in-range write updates, a write
    at index [length] extends the array by one; a write further out would
    leave holes and is reported as [None]. *)
Definition array_set (a : list nat) (i v : nat) : option (list nat) :=
  if i <? length a then Some (<[i := v]> a)
  else if i =? length a then Some (a ++ [v])
  else None.

(** ** Levenshtein distance (index.tsx 110-133, identical in the other files) *)

Module Lev.

(** [s1.charAt(i - 1) !== s2.charAt(j - 1)]; [charAt] out of range is the
    empty string, here [None]. *)
Definition charAt (s : jsstring) (k : nat) : option code_unit := s !! k.

Definition charAt_neq (s1 : jsstring) (i : nat) (s2 : jsstring) (j : nat) : bool :=
  match charAt s1 i, charAt s2 j with
  | Some a, Some b => negb (N.eqb a b)
  | None, None => false
  | _, _ => true
  end.

(** Body of the inner loop over [j], on the state [(costs, lastValue)]. *)
Definition inner_body (s1 s2 : jsstring) (i j : nat) (st : list nat * nat)
  : option (list nat * nat) :=
  let '(costs, lastValue) := st in
  if i =? 0 then
    costs' ← array_set costs j j; Some (costs', lastValue)
  else if 0 <? j then
    diag ← costs !! (j - 1);
    newValue ← (if charAt_neq s1 (i - 1) s2 (j - 1)
                then up ← costs !! j; Some (Nat.min (Nat.min diag lastValue) up + 1)
                else Some diag);
    costs' ← array_set costs (j - 1) lastValue;
    Some (costs', newValue)
  else Some st.

(** Body of the outer loop over [i], on the state [costs]. *)
Definition outer_body (s1 s2 : jsstring) (i : nat) (costs : list nat)
  : option (list nat) :=
  '(costs', lastValue) ← for_loop (S (length s2)) 0 (inner_body s1 s2 i) (costs, i);
  if 0 <? i then array_set costs' (length s2) lastValue else Some costs'.

(** The result is [None] where the program would return [undefined] or [NaN]. *)
Definition levenshteinDistance (s1 s2 : jsstring) : option nat :=
  let s1 := toLowerCase s1 in
  let s2 := toLowerCase s2 in
  costs ← for_loop (S (length s1)) 0 (outer_body s1 s2) [];
  costs !! length s2.

End Lev.

(** ** Dictionary entries and JavaScript numbers *)

(** An entry of the vocabulary: its headword and the French glosses of its
    meanings (the algorithms below only read the headword). *)
Record DictionaryEntry := {
  faka_uvea : jsstring;
  french : list jsstring
}.

(** The numbers the suggestion routines compare: a finite natural number,
    [Infinity], or [NaN] (what arithmetic on [undefined] gives). *)
Inductive jsnum := Num (n : nat) | Infinity | NaN.

Definition of_distance (d : option nat) : jsnum :=
  match d with Some n => Num n | None => NaN end.

(** [a < b] and [a <= b] on numbers; any comparison with [NaN] is false. *)
Definition js_lt (a b : jsnum) : bool :=
  match a, b with
  | Num x, Num y => x <? y
  | Num _, Infinity => true
  | _, _ => false
  end.

Definition js_le (a b : jsnum) : bool :=
  match a, b with
  | Num x, Num y => x <=? y
  | Num _, Infinity => true
  | Infinity, Infinity => true
  | _, _ => false
  end.

(** ** The random source *)

(** A value of the interval [0,1): the fraction [num / (num + gap + 1)]. *)
Record unit_value := { num : nat; gap : nat }.

(** [Math.floor(x * n)] *)
Definition floor_times (x : unit_value) (n : nat) : nat :=
  (num x * n) / (num x + gap x + 1).

(** [x > 0.5] *)
Definition gt_half (x : unit_value) : bool :=
  num x + gap x + 1 <? 2 * num x.

(** Computations that call [Math.random()] and may fail: they read the oracle
    [rnd] at a counter, which each call advances. *)
Definition Rand (A : Type) : Type := (nat → unit_value) → nat → option (A * nat).

Definition rret {A} (a : A) : Rand A := λ _ k, Some (a, k).

Definition rbind {A B} (m : Rand A) (f : A → Rand B) : Rand B :=
  λ rnd k, match m rnd k with
           | Some (a, k') => f a rnd k'
           | None => None
           end.

Definition random : Rand unit_value := λ rnd k, Some (rnd k, S k).

Definition lift {A} (o : option A) : Rand A :=
  λ _ k, match o with Some a => Some (a, k) | None => None end.

Notation "'let*' x ':=' m 'in' f" := (rbind m (λ x, f))
  (at level 10, x name, m at level 100, f at level 200, only parsing).
Notation "'let*' ' pat ':=' m 'in' f" := (rbind m (λ x, match x with pat => f end))
  (at level 10, pat pattern, m at level 100, f at level 200, only parsing).

(** A counted loop in [Rand]. *)
Fixpoint rand_loop {St : Type} (n start : nat) (body : nat → St → Rand St) (s : St)
  : Rand St :=
  match n with
  | 0 => rret s
  | S n' => let* s' := body start s in rand_loop n' (S start) body s'
  end.

(** [l.map(f)] where [f] draws random numbers: elements are visited in order. *)
Fixpoint rand_map {A B : Type} (f : A → Rand B) (l : list A) : Rand (list B) :=
  match l with
  | [] => rret []
  | x :: l' => let* y := f x in let* ys := rand_map f l' in rret (y :: ys)
  end.

(** ** Two-dimensional grids *)

(** [g[r][c]]: [None] when the row or the column does not exist. *)
Definition grid_get {A} (g : list (list A)) (r c : nat) : option A :=
  row ← g !! r; row !! c.

(** [g[r][c] = v]: [None] when the row does not exist (a run-time failure) or
    the column does not (the program would lengthen the row). *)
Definition grid_set {A} (g : list (list A)) (r c : nat) (v : A) : option (list (list A)) :=
  row ← g !! r;
  if c <? length row then Some (<[r := <[c := v]> row]> g) else None.

(** [ALPHABET] (index.tsx 378, vite.config.ts 407); the last letter is the
    glottal stop. *)
Definition ALPHABET : list code_unit :=
  code <$> ["A"; "E"; "F"; "G"; "H"; "I"; "K"; "L"; "M"; "N"; "O"; "S"; "T"; "U"; "V"; "'"]%char.

Definition glottal_stop : code_unit := code "'".

(** [s.split('').reverse().join('')] and [[...s].reverse().join('')]. *)
Definition reversed (s : jsstring) : jsstring := reverse s.

(** ** index.tsx: suggestion and word search *)

Module Index.

(** [getSuggestion] (index.tsx 1026-1042); [searchTerm], [filteredDictionary]
    and [dictionary] are the values the closure reads. *)
Definition suggestion_step (searchTerm : jsstring)
    (acc : jsnum * option DictionaryEntry) (entry : DictionaryEntry)
  : jsnum * option DictionaryEntry :=
  let '(minDistance, bestMatch) := acc in
  let distance := of_distance (Lev.levenshteinDistance searchTerm (faka_uvea entry)) in
  if js_lt distance minDistance && js_lt distance (Num 4)
  then (distance, Some entry)
  else (minDistance, bestMatch).

Definition getSuggestion (searchTerm : jsstring)
    (filteredDictionary dictionary : list DictionaryEntry) : option DictionaryEntry :=
  if (2 <? length searchTerm) && (length filteredDictionary =? 0) then
    snd (fold_left (suggestion_step searchTerm) dictionary (Infinity, None))
  else None.

Definition GRID_SIZE : nat := 12.
Definition NUM_WORDS : nat := 6.

Record GridCell := { char : option code_unit; wordRef : option jsstring }.
Record Position := { r : nat; c : nat }.

Record GameState := {
  grid : list (list GridCell);
  words : list jsstring;
  foundWords : list jsstring;
  selection : list Position
}.

Definition initialState : GameState :=
  {| grid := []; words := []; foundWords := []; selection := [] |}.

Definition directions : list Position :=
  [ {| r := 0; c := 1 |}; {| r := 1; c := 0 |}; {| r := 1; c := 1 |} ].

(** The filter of [wordPool]. *)
Definition eligible (w : DictionaryEntry) : bool :=
  (length (faka_uvea w) <=? GRID_SIZE) && (2 <? length (faka_uvea w))
  && negb (includes_char (faka_uvea w) (code " ")).

(** [newGrid[r][c].char && newGrid[r][c].char !== ch] *)
Definition conflicts (cell : GridCell) (ch : code_unit) : bool :=
  match char cell with
  | Some x => negb (N.eqb x ch)
  | None => false
  end.

(** The loop over [j] that builds [cellsToPlace], started at index [j] with
    the characters [rest] of the word still to lay out.  The inner [None] is
    [canPlace = false]. *)
Fixpoint collectCells (newGrid : list (list GridCell)) (startRow startCol : nat)
    (dir : Position) (j : nat) (rest : jsstring)
  : option (option (list (nat * nat * code_unit))) :=
  match rest with
  | [] => Some (Some [])
  | ch :: rest' =>
      let row := startRow + j * r dir in
      let col := startCol + j * c dir in
      if (GRID_SIZE <=? row) || (GRID_SIZE <=? col) then Some None
      else
        cell ← grid_get newGrid row col;
        if conflicts cell ch then Some None
        else
          cells ← collectCells newGrid startRow startCol dir (S j) rest';
          Some (option_map (cons (row, col, ch)) cells)
  end.

(** [cellsToPlace.forEach(...)] *)
Fixpoint writeCells (newGrid : list (list GridCell)) (word : jsstring)
    (cells : list (nat * nat * code_unit)) : option (list (list GridCell)) :=
  match cells with
  | [] => Some newGrid
  | (row, col, ch) :: cells' =>
      g ← grid_set newGrid row col {| char := Some ch; wordRef := Some word |};
      writeCells g word cells'
  end.

(** The loop [for (let i = 0; i < 100 && !placed; i++)], with [n] iterations
    left.  The result carries the list [cellsToPlace] that was written when
    [placed] became true, and [None] when it stayed false. *)
Fixpoint placeWord (n : nat) (newGrid : list (list GridCell)) (word : jsstring)
  : Rand (list (list GridCell) * option (list (nat * nat * code_unit))) :=
  match n with
  | 0 => rret (newGrid, None)
  | S n' =>
      let* x := random in
      let* dir := lift (directions !! floor_times x (length directions)) in
      let* y := random in
      let startRow := floor_times y GRID_SIZE in
      let* z := random in
      let startCol := floor_times z GRID_SIZE in
      let* cellsToPlace := lift (collectCells newGrid startRow startCol dir 0 word) in
      match cellsToPlace with
      | Some cells =>
          let* g := lift (writeCells newGrid word cells) in
          rret (g, Some cells)
      | None => placeWord n' newGrid word
      end
  end.

(** The loop over [wordsToPlace].  [history] is a ghost variable, absent from
    the program: the [cellsToPlace] list of every word pushed on
    [placedWords], in the same order. *)
Fixpoint placeWords (wordsToPlace : list jsstring) (newGrid : list (list GridCell))
    (placedWords : list jsstring) (history : list (jsstring * list (nat * nat * code_unit)))
  : Rand (list (list GridCell) * list jsstring * list (jsstring * list (nat * nat * code_unit))) :=
  match wordsToPlace with
  | [] => rret (newGrid, placedWords, history)
  | word :: rest =>
      let* '(g, placed) := placeWord 100 newGrid word in
      match placed with
      | Some cells => placeWords rest g (placedWords ++ [word]) (history ++ [(word, cells)])
      | None => placeWords rest g placedWords history
      end
  end.

(** Body of the filling loops (index.tsx 1742-1748). *)
Definition fillCell (row col : nat) (newGrid : list (list GridCell))
  : Rand (list (list GridCell)) :=
  let* cell := lift (grid_get newGrid row col) in
  match char cell with
  | None =>
      let* x := random in
      let* ch := lift (ALPHABET !! floor_times x (length ALPHABET)) in
      lift (grid_set newGrid row col {| char := Some ch; wordRef := None |})
  | Some _ => rret newGrid
  end.

Definition fillGrid (newGrid : list (list GridCell)) : Rand (list (list GridCell)) :=
  rand_loop GRID_SIZE 0
    (λ row g, rand_loop GRID_SIZE 0 (λ col g', fillCell row col g') g) newGrid.

Definition emptyGrid : list (list GridCell) :=
  replicate GRID_SIZE (replicate GRID_SIZE {| char := None; wordRef := None |}).

Definition wordPool (dictionary : list DictionaryEntry) : list DictionaryEntry :=
  filter (λ w, eligible w = true) dictionary.

(** The words handed to the placement loop.  [shuffle] stands for
    [[...wordPool].sort(() => 0.5 - Math.random())]; the random numbers it
    draws come before those read through the counter. *)
Definition wordsToPlace (shuffle : ∀ A : Type, list A → list A)
    (dictionary : list DictionaryEntry) : list jsstring :=
  (λ w, toUpperCase (faka_uvea w)) <$> take NUM_WORDS (shuffle _ (wordPool dictionary)).

(** The packing proper (index.tsx 1707-1748), after the guard on the pool. *)
Definition pack (shuffle : ∀ A : Type, list A → list A) (dictionary : list DictionaryEntry)
  : Rand (list (list GridCell) * list jsstring * list (jsstring * list (nat * nat * code_unit))) :=
  let* '(g, placedWords, history) := placeWords (wordsToPlace shuffle dictionary) emptyGrid [] [] in
  let* g' := fillGrid g in
  rret (g', placedWords, history).

(** [generateNewGame] (index.tsx 1700-1754): when the pool is too small it
    logs an error and returns, leaving the state as it was. *)
Definition generateNewGame (shuffle : ∀ A : Type, list A → list A)
    (dictionary : list DictionaryEntry) (st : GameState) : Rand GameState :=
  if length (wordPool dictionary) <? NUM_WORDS then rret st
  else
    let* '(newGrid, placedWords, _) := pack shuffle dictionary in
    rret {| grid := newGrid; words := placedWords; foundWords := []; selection := [] |}.

(** [array.join('')] on cell characters: [null] contributes nothing. *)
Definition joinChars (l : list (option code_unit)) : jsstring :=
  omap id l.

(** [getSelectedWord] (index.tsx 1762-1765) *)
Definition getSelectedWord (g : list (list GridCell)) (currentSelection : list Position)
  : option jsstring :=
  if length currentSelection <? 2 then Some []
  else
    chars ← mapM (λ pos, cell ← grid_get g (r pos) (c pos); Some (char cell)) currentSelection;
    Some (joinChars chars).

(** [handleMouseUp] (index.tsx 1792-1803) *)
Definition handleMouseUp (st : GameState) : option GameState :=
  selectedWord ← getSelectedWord (grid st) (selection st);
  let reversedSelectedWord := reversed selectedWord in
  let found :=
    if includes (words st) selectedWord && negb (includes (foundWords st) selectedWord)
    then foundWords st ++ [selectedWord]
    else if includes (words st) reversedSelectedWord
            && negb (includes (foundWords st) reversedSelectedWord)
    then foundWords st ++ [reversedSelectedWord]
    else foundWords st in
  Some {| grid := grid st; words := words st; foundWords := found; selection := [] |}.

End Index.

(** ** vite.config.ts: suggestion and word search *)

Module Vite.

(** [suggestedEntry] (vite.config.ts 1044-1058) *)
Definition suggestion_step (searchTerm : jsstring)
    (acc : jsnum * option DictionaryEntry) (entry : DictionaryEntry)
  : jsnum * option DictionaryEntry :=
  let '(minDistance, suggestion) := acc in
  let distance := of_distance (Lev.levenshteinDistance searchTerm (faka_uvea entry)) in
  if js_lt distance minDistance && js_le distance (Num 3)
  then (distance, Some entry)
  else (minDistance, suggestion).

Definition suggestedEntry (searchTerm : jsstring)
    (filteredDictionary dictionary : list DictionaryEntry) : option DictionaryEntry :=
  if (length filteredDictionary =? 0) && (2 <? length searchTerm) then
    snd (fold_left (suggestion_step searchTerm) dictionary (Infinity, None))
  else None.

Definition gridSize : nat := 12.

(** The number of words sliced off the shuffled pool. *)
Definition NUM_WORDS : nat := 8.

Inductive Direction := horizontal | vertical.

Record GameState := {
  grid : list (list code_unit);
  words : list jsstring;
  foundWords : list jsstring;
  selection : list (nat * nat);
  foundCoordinates : list (nat * nat)
}.

Definition initialState : GameState :=
  {| grid := []; words := []; foundWords := []; selection := [];
     foundCoordinates := [] |}.

(** The filter of [availableWords], on upper-cased headwords. *)
Definition eligible (w : jsstring) : bool :=
  (length w <=? gridSize) && (2 <? length w)
  && negb (includes_char w glottal_stop) && negb (includes_char w (code " ")).

(** [[...new Set(l)]]: the first occurrence of every word, in order. *)
Fixpoint dedup (seen l : list jsstring) : list jsstring :=
  match l with
  | [] => []
  | x :: l' => if includes seen x then dedup seen l' else x :: dedup (x :: seen) l'
  end.

Definition availableWords (dictionary : list DictionaryEntry) : list jsstring :=
  filter (λ w, eligible w = true) ((λ e, toUpperCase (faka_uvea e)) <$> dictionary).

(** [shuffle] stands for [.sort(() => 0.5 - Math.random())], as in [Index]. *)
Definition chosenWords (shuffle : ∀ A : Type, list A → list A)
    (dictionary : list DictionaryEntry) : list jsstring :=
  take NUM_WORDS (shuffle _ (dedup [] (availableWords dictionary))).

(** The cell that letter [i] of a word laid from [(row, col)] falls on:
    [newGrid[row][col + i]] or [newGrid[row + i][col]]. *)
Definition cellAt (d : Direction) (row col i : nat) : nat * nat :=
  match d with
  | horizontal => (row, col + i)
  | vertical => (row + i, col)
  end.

(** [cell !== null && cell !== ch] *)
Definition conflicts (cell : option code_unit) (ch : code_unit) : bool :=
  match cell with
  | Some x => negb (N.eqb x ch)
  | None => false
  end.

(** The loop that computes [canPlace], from index [i] on. *)
Fixpoint canPlace (newGrid : list (list (option code_unit))) (d : Direction)
    (row col i : nat) (rest : jsstring) : option bool :=
  match rest with
  | [] => Some true
  | ch :: rest' =>
      cell ← grid_get newGrid (cellAt d row col i).1 (cellAt d row col i).2;
      if conflicts cell ch then Some false
      else canPlace newGrid d row col (S i) rest'
  end.

(** The loop that writes the word, from index [i] on. *)
Fixpoint writeWord (newGrid : list (list (option code_unit))) (d : Direction)
    (row col i : nat) (rest : jsstring) : option (list (list (option code_unit))) :=
  match rest with
  | [] => Some newGrid
  | ch :: rest' =>
      g ← grid_set newGrid (cellAt d row col i).1 (cellAt d row col i).2 (Some ch);
      writeWord g d row col (S i) rest'
  end.

(** [Math.floor(Math.random() * (gridSize - word.length))]; for a word longer
    than the grid the bound is negative and the model reports [None]. *)
Definition shortIndex (x : unit_value) (word : jsstring) : option nat :=
  if length word <=? gridSize then Some (floor_times x (gridSize - length word))
  else None.

(** The loop [while (!placed && attempts < 50)], with [n] iterations left.
    The result carries where the word was written when [placed] became true,
    and [None] when it stayed false. *)
Fixpoint placeWord (n : nat) (newGrid : list (list (option code_unit))) (word : jsstring)
  : Rand (list (list (option code_unit)) * option (Direction * nat * nat)) :=
  match n with
  | 0 => rret (newGrid, None)
  | S n' =>
      let* x := random in
      let direction := if gt_half x then horizontal else vertical in
      let* y := random in
      let* z := random in
      let* row := lift (match direction with
                        | horizontal => Some (floor_times y gridSize)
                        | vertical => shortIndex y word
                        end) in
      let* col := lift (match direction with
                        | horizontal => shortIndex z word
                        | vertical => Some (floor_times z gridSize)
                        end) in
      let* ok := lift (canPlace newGrid direction row col 0 word) in
      if ok : bool then
        let* g := lift (writeWord newGrid direction row col 0 word) in
        rret (g, Some (direction, row, col))
      else placeWord n' newGrid word
  end.

(** [chosenWords.forEach(...)].  [history] is a ghost variable, absent from the
    program: every word that was written, with its direction and start cell. *)
Fixpoint placeWords (chosen : list jsstring) (newGrid : list (list (option code_unit)))
    (history : list (jsstring * (Direction * nat * nat)))
  : Rand (list (list (option code_unit)) * list (jsstring * (Direction * nat * nat))) :=
  match chosen with
  | [] => rret (newGrid, history)
  | word :: rest =>
      let* '(g, placed) := placeWord 50 newGrid word in
      match placed with
      | Some where_ => placeWords rest g (history ++ [(word, where_)])
      | None => placeWords rest g history
      end
  end.

(** The filler of [finalGrid] (vite.config.ts 1617-1622). *)
Definition fillCell (cell : option code_unit) : Rand code_unit :=
  match cell with
  | None =>
      let* x := random in
      lift (ALPHABET !! floor_times x (length ALPHABET - 1))
  | Some ch => rret ch
  end.

Definition finalGrid (newGrid : list (list (option code_unit))) : Rand (list (list code_unit)) :=
  rand_map (rand_map fillCell) newGrid.

Definition emptyGrid : list (list (option code_unit)) :=
  replicate gridSize (replicate gridSize None).

(** The packing of [setupGame]: the grid before filling, the filled grid and
    the ghost history. *)
Definition pack (chosen : list jsstring)
  : Rand (list (list (option code_unit)) * list (list code_unit)
          * list (jsstring * (Direction * nat * nat))) :=
  let* '(newGrid, history) := placeWords chosen emptyGrid [] in
  let* final := finalGrid newGrid in
  rret (newGrid, final, history).

(** [setupGame] (vite.config.ts 1569-1627): [setWords(chosenWords)] comes
    before any placement. *)
Definition setupGame (shuffle : ∀ A : Type, list A → list A)
    (dictionary : list DictionaryEntry) (st : GameState) : Rand GameState :=
  let chosen := chosenWords shuffle dictionary in
  let* '(_, final, _) := pack chosen in
  rret {| grid := final; words := chosen; foundWords := [];
          selection := selection st; foundCoordinates := [] |}.

(** [handleCellSelection] (vite.config.ts 1631-1635): a cell already in the
    selection is not added again. *)
Definition handleCellSelection (row col : nat) (st : GameState) : GameState :=
  if existsb (λ p, (p.1 =? row) && (p.2 =? col)) (selection st) then st
  else {| grid := grid st; words := words st; foundWords := foundWords st;
          selection := selection st ++ [(row, col)];
          foundCoordinates := foundCoordinates st |}.

(** [newCoords.add(...)] on a set kept as a duplicate-free list. *)
Definition addCoordinate (coords : list (nat * nat)) (p : nat * nat) : list (nat * nat) :=
  if existsb (λ q, (q.1 =? p.1) && (q.2 =? p.2)) coords then coords else coords ++ [p].

(** [handleMouseUp] (vite.config.ts 1646-1669) *)
Definition handleMouseUp (st : GameState) : option GameState :=
  if length (selection st) =? 0 then Some st
  else
    selectedString ← mapM (λ cell, grid_get (grid st) cell.1 cell.2) (selection st);
    let reversedString := reversed selectedString in
    let foundWord :=
      if includes (words st) selectedString && negb (includes (foundWords st) selectedString)
      then Some selectedString
      else if includes (words st) reversedString
              && negb (includes (foundWords st) reversedString)
      then Some reversedString
      else None in
    match foundWord with
    | Some (ch :: w) =>
        Some {| grid := grid st; words := words st;
                foundWords := foundWords st ++ [ch :: w]; selection := [];
                foundCoordinates := fold_left addCoordinate (selection st) (foundCoordinates st) |}
    | _ =>
        Some {| grid := grid st; words := words st; foundWords := foundWords st;
                selection := []; foundCoordinates := foundCoordinates st |}
    end.

End Vite.

(** ** The third application file: suggestion *)

Module Third.

(** The suggestion effect (lines 577-593): the running minimum starts at 4. *)
Definition suggestion_step (searchTerm : jsstring)
    (acc : jsnum * option jsstring) (entry : DictionaryEntry)
  : jsnum * option jsstring :=
  let '(minDistance, bestMatch) := acc in
  let distance := of_distance (Lev.levenshteinDistance searchTerm (faka_uvea entry)) in
  if js_lt distance minDistance
  then (distance, Some (faka_uvea entry))
  else (minDistance, bestMatch).

Definition suggestion (searchTerm : jsstring)
    (filteredData DICTIONARY_DATA : list DictionaryEntry) : option jsstring :=
  if (length filteredData =? 0) && (2 <? length searchTerm) then
    snd (fold_left (suggestion_step searchTerm) DICTIONARY_DATA (Num 4, None))
  else None.

End Third.

(** * Properties *)

Example lev_kitten :
  Lev.levenshteinDistance (str "Kitten"%string) (str "sitting"%string) = Some 3.
Proof. vm_compute. reflexivity. Qed.

Example lev_alof :
  Lev.levenshteinDistance (str "alof"%string) (str "alofa"%string) = Some 1.
Proof. vm_compute. reflexivity. Qed.

(** ** The edit distance

    [dist_rec] is the Levenshtein distance in its usual recursive form: the
    distance to the empty string is the length of the other string, equal
    first code units cost nothing, and otherwise the distance is one more than
    the cheapest of a substitution, an insertion and a deletion.  It is not
    part of the program: it is what the program is compared with. *)

Fixpoint dist_rec (s : jsstring) : jsstring → nat :=
  fix dist_s (t : jsstring) : nat :=
    match s, t with
    | [], _ => length t
    | _, [] => length s
    | a :: s', b :: t' =>
        if N.eqb a b then dist_rec s' t'
        else Nat.min (Nat.min (dist_rec s' t') (dist_s t')) (dist_rec s' t) + 1
    end.

Lemma dist_rec_nil_l t : dist_rec [] t = length t.
Proof. by destruct t. Qed.

Lemma dist_rec_nil_r s : dist_rec s [] = length s.
Proof. by destruct s. Qed.

Lemma dist_rec_cons a s b t :
  dist_rec (a :: s) (b :: t) =
  if N.eqb a b then dist_rec s t
  else Nat.min (Nat.min (dist_rec s t) (dist_rec (a :: s) t)) (dist_rec s (b :: t)) + 1.
Proof. reflexivity. Qed.

Lemma dist_rec_sym s t : dist_rec s t = dist_rec t s.
Proof.
  revert t. induction s as [|a s IHs]; intros t.
  - by rewrite dist_rec_nil_l, dist_rec_nil_r.
  - induction t as [|b t IHt].
    + by rewrite dist_rec_nil_l, dist_rec_nil_r.
    + rewrite !dist_rec_cons, (N.eqb_sym b a).
      destruct (N.eqb a b); [apply IHs|].
      rewrite IHt, (IHs t), (IHs (b :: t)). lia.
Qed.

Lemma dist_rec_refl s : dist_rec s s = 0.
Proof.
  induction s as [|a s IH]; [done|].
  by rewrite dist_rec_cons, N.eqb_refl.
Qed.

(** [edits s t n]: [n] insertions, deletions and substitutions of one code
    unit turn [s] into [t]. *)
Inductive edits : jsstring → jsstring → nat → Prop :=
  | edits_nil : edits [] [] 0
  | edits_keep a s t n : edits s t n → edits (a :: s) (a :: t) n
  | edits_substitute a b s t n : edits s t n → edits (a :: s) (b :: t) (S n)
  | edits_delete a s t n : edits s t n → edits (a :: s) t (S n)
  | edits_insert b s t n : edits s t n → edits s (b :: t) (S n).

Lemma edits_inserts t : edits [] t (length t).
Proof. induction t as [|b t IH]; cbn; by constructor. Qed.

Lemma edits_deletes s : edits s [] (length s).
Proof. induction s as [|a s IH]; cbn; by constructor. Qed.

Lemma edits_dist_rec s t : edits s t (dist_rec s t).
Proof.
  revert t. induction s as [|a s IHs]; intros t.
  - rewrite dist_rec_nil_l. apply edits_inserts.
  - induction t as [|b t IHt].
    + rewrite dist_rec_nil_r. apply edits_deletes.
    + rewrite dist_rec_cons. destruct (N.eqb_spec a b) as [->|Hne].
      * apply edits_keep, IHs.
      * rewrite Nat.add_1_r.
        destruct (Nat.min_dec (Nat.min (dist_rec s t) (dist_rec (a :: s) t))
                    (dist_rec s (b :: t))) as [->| ->].
        -- destruct (Nat.min_dec (dist_rec s t) (dist_rec (a :: s) t)) as [->| ->].
           ++ apply edits_substitute, IHs.
           ++ apply edits_insert, IHt.
        -- apply edits_delete, IHs.
Qed.

(** One code unit more on either side changes the distance by at most one. *)
Lemma dist_rec_step n s t :
  length s + length t ≤ n →
  (∀ a, dist_rec (a :: s) t ≤ S (dist_rec s t))
  ∧ (∀ b, dist_rec s t ≤ S (dist_rec s (b :: t))).
Proof.
  revert s t. induction n as [|n IH]; intros s t Hn.
  - destruct s, t; cbn in Hn; try lia. split; intros; cbn; lia.
  - split.
    + intros a. destruct t as [|b t]; [rewrite !dist_rec_nil_r; cbn; lia|].
      rewrite dist_rec_cons. destruct (N.eqb a b); [|lia].
      apply (IH s t). cbn in Hn. lia.
    + intros b. destruct s as [|a s]; [rewrite !dist_rec_nil_l; cbn; lia|].
      rewrite (dist_rec_cons a s b t).
      assert (Hsize : length s + length t ≤ n) by (cbn in Hn; lia).
      pose proof (proj1 (IH s t Hsize) a) as Hdel.
      pose proof (proj2 (IH s t Hsize) b) as Hins.
      destruct (N.eqb a b); lia.
Qed.

Lemma dist_rec_delete a s t : dist_rec (a :: s) t ≤ S (dist_rec s t).
Proof. by apply (dist_rec_step (length s + length t) s t). Qed.

Lemma dist_rec_insert b s t : dist_rec s (b :: t) ≤ S (dist_rec s t).
Proof. rewrite (dist_rec_sym s (b :: t)), (dist_rec_sym s t). apply dist_rec_delete. Qed.

Lemma dist_rec_le_edits s t n : edits s t n → dist_rec s t ≤ n.
Proof.
  induction 1 as [|a s t n _ IH|a b s t n _ IH|a s t n _ IH|b s t n _ IH].
  - done.
  - by rewrite dist_rec_cons, N.eqb_refl.
  - rewrite dist_rec_cons. destruct (N.eqb a b); lia.
  - pose proof (dist_rec_delete a s t). lia.
  - pose proof (dist_rec_insert b s t). lia.
Qed.

(** [dist_rec s t] is the least number of edits that turn [s] into [t]. *)
Lemma dist_rec_least_edits s t :
  edits s t (dist_rec s t) ∧ ∀ n, edits s t n → dist_rec s t ≤ n.
Proof. split; [apply edits_dist_rec|apply dist_rec_le_edits]. Qed.

Lemma edits_keep_last a s t n : edits s t n → edits (s ++ [a]) (t ++ [a]) n.
Proof. induction 1; cbn; try by constructor. apply edits_keep, edits_nil. Qed.

Lemma edits_substitute_last a b s t n : edits s t n → edits (s ++ [a]) (t ++ [b]) (S n).
Proof. induction 1; cbn; try by constructor. apply edits_substitute, edits_nil. Qed.

Lemma edits_delete_last a s t n : edits s t n → edits (s ++ [a]) t (S n).
Proof. induction 1; cbn; try by constructor. apply edits_delete, edits_nil. Qed.

Lemma edits_insert_last b s t n : edits s t n → edits s (t ++ [b]) (S n).
Proof. induction 1; cbn; try by constructor. apply edits_insert, edits_nil. Qed.

Lemma edits_reverse s t n : edits s t n → edits (reverse s) (reverse t) n.
Proof.
  induction 1; rewrite ?reverse_cons.
  - constructor.
  - by apply edits_keep_last.
  - by apply edits_substitute_last.
  - by apply edits_delete_last.
  - by apply edits_insert_last.
Qed.

(** The distance can be read from either end. *)
Lemma dist_rec_reverse s t : dist_rec (reverse s) (reverse t) = dist_rec s t.
Proof.
  apply Nat.le_antisymm.
  - apply dist_rec_le_edits, edits_reverse, edits_dist_rec.
  - pose proof (dist_rec_le_edits _ _ _
                  (edits_reverse _ _ _ (edits_dist_rec (reverse s) (reverse t)))) as H.
    by rewrite !reverse_involutive in H.
Qed.

(** ** The table computed by [levenshteinDistance] *)

Section LevTable.
Variables s1 s2 : jsstring.

(** Entry [(i, j)] of the table: the distance between the first [i]
    characters of [s1] and the first [j] characters of [s2]. *)
Definition cell_value (i j : nat) : nat :=
  dist_rec (reverse (take i s1)) (reverse (take j s2)).

Definition table_row (i : nat) : list nat :=
  cell_value i <$> seq 0 (S (length s2)).

Lemma cell_value_0_l j : j ≤ length s2 → cell_value 0 j = j.
Proof.
  intros Hj. unfold cell_value. rewrite take_0, dist_rec_nil_l.
  rewrite length_reverse, length_take. lia.
Qed.

Lemma cell_value_0_r i : i ≤ length s1 → cell_value i 0 = i.
Proof.
  intros Hi. unfold cell_value. rewrite take_0, dist_rec_nil_r.
  rewrite length_reverse, length_take. lia.
Qed.

Lemma cell_value_step i j :
  i < length s1 → j < length s2 →
  cell_value (S i) (S j) =
  if Lev.charAt_neq s1 i s2 j
  then Nat.min (Nat.min (cell_value i j) (cell_value (S i) j)) (cell_value i (S j)) + 1
  else cell_value i j.
Proof.
  intros Hi Hj.
  destruct (lookup_lt_is_Some_2 s1 i Hi) as [a Ha].
  destruct (lookup_lt_is_Some_2 s2 j Hj) as [b Hb].
  unfold cell_value, Lev.charAt_neq, Lev.charAt. rewrite Ha, Hb.
  rewrite (take_S_r s1 i a Ha), (take_S_r s2 j b Hb), !reverse_snoc.
  rewrite dist_rec_cons. by destruct (N.eqb a b).
Qed.

(** First pass ([i = 0]): the array is filled with [0, 1, ..., length s2]. *)
Lemma first_row_loop k j last :
  for_loop k j (Lev.inner_body s1 s2 0) (seq 0 j, last) = Some (seq 0 (j + k), last).
Proof.
  revert j. induction k as [|k IH]; intros j; simpl.
  - by rewrite Nat.add_0_r.
  - unfold array_set. rewrite length_seq, Nat.ltb_irrefl, Nat.eqb_refl. simpl.
    replace (seq 0 j ++ [j]) with (seq 0 (S j)) by (by rewrite seq_S).
    rewrite IH. f_equal. f_equal. f_equal. lia.
Qed.

(** Later passes: while column [S p] is being computed the array holds the
    new row up to column [p - 1] and the old row from column [p] on. *)
Lemma next_row_loop i k p :
  i < length s1 → p + k = length s2 →
  for_loop k (S p) (Lev.inner_body s1 s2 (S i))
    ((cell_value (S i) <$> seq 0 p) ++ (cell_value i <$> seq p (S (length s2) - p)),
     cell_value (S i) p)
  = Some ((cell_value (S i) <$> seq 0 (length s2)) ++ [cell_value i (length s2)],
          cell_value (S i) (length s2)).
Proof.
  intros Hi. revert p. induction k as [|k IH]; intros p Hp.
  - simpl. rewrite Nat.add_0_r in Hp. subst p.
    by replace (S (length s2) - length s2) with 1 by lia.
  - assert (Hlt : p < length s2) by lia.
    replace (S (length s2) - p) with (S (S (length s2 - S p))) by lia.
    cbn [for_loop Lev.inner_body Nat.eqb Nat.ltb Nat.leb seq fmap list_fmap].
    replace (S p - 1) with p by lia.
    assert (Hlen : length (cell_value (S i) <$> seq 0 p) = p)
      by (by rewrite length_fmap, length_seq).
    rewrite (lookup_app_r _ _ p) by lia. rewrite Hlen, Nat.sub_diag. cbn [lookup list_lookup mbind option_bind].
    rewrite (lookup_app_r _ _ (S p)) by lia. rewrite Hlen.
    replace (S p - p) with 1 by lia. cbn [lookup list_lookup].
    assert (Hnew : (if Lev.charAt_neq s1 (S i - 1) s2 p
                    then up ← Some (cell_value i (S p));
                         Some (Nat.min (Nat.min (cell_value i p) (cell_value (S i) p)) up + 1)
                    else Some (cell_value i p)) = Some (cell_value (S i) (S p))).
    { replace (S i - 1) with i by lia. rewrite (cell_value_step i p Hi Hlt).
      by destruct (Lev.charAt_neq s1 i s2 p). }
    rewrite Hnew. cbn [mbind option_bind].
    unfold array_set. rewrite length_app, Hlen. cbn [length].
    replace (p <? p + S (S (length (cell_value i <$> seq (S (S p)) (length s2 - S p)))))
      with true by (symmetry; apply Nat.ltb_lt; lia).
    cbn [mbind option_bind].
    rewrite insert_app_r_alt by lia. rewrite Hlen, Nat.sub_diag. cbn [insert list_insert].
    specialize (IH (S p) ltac:(lia)).
    rewrite seq_S, fmap_app in IH. cbn [fmap list_fmap] in IH.
    rewrite <- app_assoc in IH. cbn [app] in IH.
    replace (S (length s2) - S p) with (S (length s2 - S p)) in IH by lia.
    cbn [seq fmap list_fmap] in IH. exact IH.
Qed.

Lemma table_row_0 : table_row 0 = seq 0 (S (length s2)).
Proof.
  unfold table_row. apply list_eq. intros j. rewrite list_lookup_fmap.
  destruct (decide (j < S (length s2))) as [Hj|Hj].
  - rewrite (lookup_seq_lt 0 (S (length s2)) j Hj).
    change (Some (cell_value 0 (0 + j)) = Some (0 + j)).
    f_equal. apply cell_value_0_l. lia.
  - by rewrite (lookup_seq_ge 0 (S (length s2)) j) by lia.
Qed.

Lemma outer_body_0 : Lev.outer_body s1 s2 0 [] = Some (table_row 0).
Proof.
  unfold Lev.outer_body.
  pose proof (first_row_loop (S (length s2)) 0 0) as Hrun.
  change (seq 0 0) with (@nil nat) in Hrun. rewrite Hrun.
  cbn [mbind option_bind Nat.ltb Nat.leb]. by rewrite table_row_0.
Qed.

Lemma outer_body_S i :
  i < length s1 → Lev.outer_body s1 s2 (S i) (table_row i) = Some (table_row (S i)).
Proof.
  intros Hi. unfold Lev.outer_body.
  cbn [for_loop Lev.inner_body Nat.eqb Nat.ltb Nat.leb mbind option_bind].
  pose proof (next_row_loop i (length s2) 0 Hi ltac:(lia)) as Hrun.
  cbn [seq fmap list_fmap app] in Hrun. rewrite Nat.sub_0_r in Hrun.
  rewrite (cell_value_0_r (S i)) in Hrun by lia.
  unfold table_row. rewrite Hrun. cbn [mbind option_bind].
  unfold array_set. rewrite length_app, length_fmap, length_seq. cbn [length].
  replace (length s2 <? length s2 + 1) with true by (symmetry; apply Nat.ltb_lt; lia).
  f_equal. rewrite insert_app_r_alt by (rewrite length_fmap, length_seq; lia).
  rewrite length_fmap, length_seq, Nat.sub_diag. cbn [insert list_insert].
  by rewrite (seq_S (length s2)), fmap_app.
Qed.

Lemma outer_loop k i :
  i + k = length s1 →
  for_loop k (S i) (Lev.outer_body s1 s2) (table_row i) = Some (table_row (length s1)).
Proof.
  revert i. induction k as [|k IH]; intros i Hk.
  - simpl. rewrite Nat.add_0_r in Hk. by subst.
  - cbn [for_loop]. rewrite outer_body_S by lia. cbn [mbind option_bind].
    apply IH. lia.
Qed.

Lemma table_complete :
  for_loop (S (length s1)) 0 (Lev.outer_body s1 s2) [] = Some (table_row (length s1)).
Proof.
  cbn [for_loop]. rewrite outer_body_0. cbn [mbind option_bind].
  apply outer_loop. lia.
Qed.
End LevTable.

(** The program returns a number on all inputs, and that number is the edit
    distance of the lower-cased strings. *)
Lemma levenshteinDistance_dist_rec s1 s2 :
  Lev.levenshteinDistance s1 s2 = Some (dist_rec (toLowerCase s1) (toLowerCase s2)).
Proof.
  unfold Lev.levenshteinDistance. rewrite table_complete. cbn [mbind option_bind].
  unfold table_row. rewrite list_lookup_fmap, (lookup_seq_lt 0 _ (length (toLowerCase s2))) by lia.
  cbn. unfold cell_value. by rewrite !firstn_all, dist_rec_reverse.
Qed.

(** Lower-casing keeps the length of a string that has no U+0130. *)
Lemma length_toLowerCase_unit c : c ≠ 304%N → length (toLowerCase_unit c) = 1.
Proof.
  intros Hc. unfold toLowerCase_unit.
  destruct (_ || _); [done|]. destruct (N.eqb_spec c 304); [done|].
  destruct (c =? 376)%N; [done|]. destruct (_ && _); [done|]. by destruct (_ && _).
Qed.

Lemma length_toLowerCase s : 304%N ∉ s → length (toLowerCase s) = length s.
Proof.
  unfold toLowerCase. induction s as [|c s IH]; [done|].
  intros [Hc Hs]%not_elem_of_cons. cbn [flat_map].
  rewrite length_app, length_toLowerCase_unit, IH by done. done.
Qed.

(** C6 (as amended). For all strings [a] and [b], [levenshteinDistance]
    returns a number, the distance from [a] to [b] equals the distance from
    [b] to [a], the distance from [a] to itself is 0, and the distance from the
    empty string to [b] is the length of [b] lower-cased, which is the length
    of [b] when [b] holds no U+0130 (capital I with a dot). *)
Theorem levenshteinDistance_laws (a b : jsstring) :
  Lev.levenshteinDistance a b = Lev.levenshteinDistance b a
  ∧ Lev.levenshteinDistance a a = Some 0
  ∧ Lev.levenshteinDistance [] b = Some (length (toLowerCase b))
  ∧ (304%N ∉ b → Lev.levenshteinDistance [] b = Some (length b)).
Proof.
  rewrite !levenshteinDistance_dist_rec. split; [|split; [|split]].
  - by rewrite dist_rec_sym.
  - by rewrite dist_rec_refl.
  - by rewrite dist_rec_nil_l.
  - intros Hb. by rewrite dist_rec_nil_l, length_toLowerCase.
Qed.

(** C6, the claim as stated fails: the string U+0130 has length 1, lower-cased
    it is "i" followed by U+0307, and its distance from the empty string
    is 2. *)
Lemma levenshteinDistance_dotted_capital :
  length [304%N] = 1
  ∧ toLowerCase [304%N] = [105; 775]%N
  ∧ Lev.levenshteinDistance [] [304%N] = Some 2.
Proof. split; [|split]; vm_compute; reflexivity. Qed.

(** ** The suggestion routines *)

(** The case-insensitive Levenshtein distance of two strings: the edit
    distance of the strings lower-cased. *)
Definition case_insensitive_distance (a b : jsstring) : nat :=
  dist_rec (toLowerCase a) (toLowerCase b).

(** The distance from the query to the headword of an entry. *)
Definition distance (q : jsstring) (e : DictionaryEntry) : nat :=
  case_insensitive_distance q (faka_uvea e).

(** Entry [e], at position [i] of the vocabulary, is at distance at most 3 from
    the query, no entry is closer, and every entry before it is farther. *)
Definition first_closest (q : jsstring) (dictionary : list DictionaryEntry)
    (i : nat) (e : DictionaryEntry) : Prop :=
  dictionary !! i = Some e
  ∧ distance q e ≤ 3
  ∧ ∀ j e', dictionary !! j = Some e' →
      distance q e ≤ distance q e' ∧ (j < i → distance q e < distance q e').

(** Every entry of the vocabulary is at distance 4 or more from the query. *)
Definition all_far (q : jsstring) (dictionary : list DictionaryEntry) : Prop :=
  ∀ e, e ∈ dictionary → 4 ≤ distance q e.

Lemma of_distance_distance q e :
  of_distance (Lev.levenshteinDistance q (faka_uvea e)) = Num (distance q e).
Proof. by rewrite levenshteinDistance_dist_rec. Qed.

Lemma fold_left_invariant {A B} (f : A → B → A) (P : list B → A → Prop) l a :
  P [] a →
  (∀ pre acc x, P pre acc → P (pre ++ [x]) (f acc x)) →
  P l (fold_left f l a).
Proof.
  intros H0 Hstep. induction l as [|x l IH] using rev_ind; [done|].
  rewrite fold_left_app. cbn [fold_left]. by apply Hstep.
Qed.

Section Suggestion.
Variable q : jsstring.

(** What the scan of [getSuggestion] has established after the entries
    [pre]. *)
Definition scanned (pre : list DictionaryEntry)
    (acc : jsnum * option DictionaryEntry) : Prop :=
  match acc.2 with
  | None => acc.1 = Infinity ∧ ∀ e, e ∈ pre → 4 ≤ distance q e
  | Some e =>
      acc.1 = Num (distance q e) ∧ distance q e ≤ 3
      ∧ ∃ i, pre !! i = Some e
        ∧ ∀ j e', pre !! j = Some e' →
            distance q e ≤ distance q e' ∧ (j < i → distance q e < distance q e')
  end.

Lemma scanned_step pre acc x :
  scanned pre acc → scanned (pre ++ [x]) (Index.suggestion_step q acc x).
Proof.
  destruct acc as [m [b|]]; unfold scanned, Index.suggestion_step; cbn [fst snd].
  - intros (-> & Hle & i & Hi & Hmin). rewrite of_distance_distance. cbn [js_lt].
    destruct (Nat.ltb_spec (distance q x) (distance q b)) as [Hlt|Hge].
    + replace (distance q x <? 4) with true by (symmetry; apply Nat.ltb_lt; lia).
      cbn [andb snd fst]. split; [done|]. split; [lia|].
      exists (length pre). split; [by rewrite lookup_app_r, Nat.sub_diag by lia|].
      intros j e' [[Hj He']|[-> <-]]%lookup_snoc_Some; [|lia].
      destruct (Hmin j e' He'). lia.
    + cbn [andb snd fst]. split; [done|]. split; [done|].
      exists i. split; [by apply lookup_app_l_Some|].
      intros j e' [[Hj He']|[-> <-]]%lookup_snoc_Some; [by apply Hmin|].
      apply lookup_lt_Some in Hi. lia.
  - intros [-> Hfar]. rewrite of_distance_distance. cbn [js_lt andb].
    destruct (Nat.ltb_spec (distance q x) 4) as [Hlt|Hge]; cbn [snd fst].
    + split; [done|]. split; [lia|].
      exists (length pre). split; [by rewrite lookup_app_r, Nat.sub_diag by lia|].
      intros j e' [[Hj He']|[-> <-]]%lookup_snoc_Some; [|lia].
      assert (4 ≤ distance q e') by (apply Hfar; eapply list_elem_of_lookup_2; eauto).
      lia.
    + split; [done|]. intros e [He| ->%list_elem_of_singleton]%elem_of_app; [auto|lia].
Qed.

Lemma scanned_all dictionary :
  scanned dictionary (fold_left (Index.suggestion_step q) dictionary (Infinity, None)).
Proof.
  apply (fold_left_invariant (Index.suggestion_step q) scanned).
  - split; [done|]. intros e He. by apply elem_of_nil in He.
  - apply scanned_step.
Qed.

(** The routine of vite.config.ts takes the same steps: on numbers,
    [d <= 3] and [d < 4] agree. *)
Lemma vite_step_index acc x :
  Vite.suggestion_step q acc x = Index.suggestion_step q acc x.
Proof.
  destruct acc as [m b]. unfold Vite.suggestion_step, Index.suggestion_step.
  rewrite of_distance_distance. cbn [js_le js_lt].
  replace (distance q x <=? 3) with (distance q x <? 4); [done|].
  destruct (Nat.ltb_spec (distance q x) 4), (Nat.leb_spec (distance q x) 3); done || lia.
Qed.

Lemma vite_fold_index l acc :
  fold_left (Vite.suggestion_step q) l acc = fold_left (Index.suggestion_step q) l acc.
Proof.
  revert acc. induction l as [|x l IH]; intros acc; [done|].
  cbn [fold_left]. by rewrite vite_step_index, IH.
Qed.

(** The third routine starts its minimum at 4 and keeps a headword. *)
Definition third_matches (acc : jsnum * option DictionaryEntry)
    (acc' : jsnum * option jsstring) : Prop :=
  match acc.2 with
  | None => acc.1 = Infinity ∧ acc' = (Num 4, None)
  | Some e => (∃ n, acc.1 = Num n ∧ n ≤ 3) ∧ acc' = (acc.1, Some (faka_uvea e))
  end.

Lemma third_fold_index l acc acc' :
  third_matches acc acc' →
  third_matches (fold_left (Index.suggestion_step q) l acc)
                (fold_left (Third.suggestion_step q) l acc').
Proof.
  revert acc acc'. induction l as [|x l IH]; intros acc acc' Hm; [done|].
  cbn [fold_left]. apply IH. clear IH.
  destruct acc as [m [b|]]; unfold third_matches in *; cbn [fst snd] in *.
  - destruct Hm as [(n & -> & Hn) ->].
    unfold Index.suggestion_step, Third.suggestion_step.
    rewrite of_distance_distance. cbn [js_lt].
    destruct (Nat.ltb_spec (distance q x) n) as [Hlt|Hge]; cbn [andb snd fst].
    + replace (distance q x <? 4) with true by (symmetry; apply Nat.ltb_lt; lia).
      cbn [snd fst]. split; [|done]. exists (distance q x). split; [done|lia].
    + split; [|done]. by exists n.
  - destruct Hm as [-> ->].
    unfold Index.suggestion_step, Third.suggestion_step.
    rewrite of_distance_distance. cbn [js_lt andb].
    destruct (Nat.ltb_spec (distance q x) 4) as [Hlt|Hge]; cbn [snd fst]; [|done].
    split; [|done]. exists (distance q x). split; [done|lia].
Qed.

Lemma scanned_first_closest dictionary acc :
  scanned dictionary acc →
  match acc.2 with
  | Some e => ∃ i, first_closest q dictionary i e
  | None => all_far q dictionary
  end.
Proof.
  unfold scanned. destruct (acc.2) as [e|].
  - intros (_ & Hle & i & Hi & Hmin). by exists i.
  - by intros [_ Hfar].
Qed.
End Suggestion.

(** C2. For a query of more than two characters on which the search found
    nothing, each of the three suggestion routines returns the first entry of
    the vocabulary whose case-insensitive Levenshtein distance to the query is
    minimal, provided that distance is at most 3, and returns nothing when
    every entry is at distance 4 or more. *)
Theorem suggestion_first_closest (searchTerm : jsstring)
    (filtered dictionary : list DictionaryEntry) :
  2 < length searchTerm → filtered = [] →
  match Index.getSuggestion searchTerm filtered dictionary with
  | Some e => ∃ i, first_closest searchTerm dictionary i e
  | None => all_far searchTerm dictionary
  end
  ∧ match Vite.suggestedEntry searchTerm filtered dictionary with
    | Some e => ∃ i, first_closest searchTerm dictionary i e
    | None => all_far searchTerm dictionary
    end
  ∧ match Third.suggestion searchTerm filtered dictionary with
    | Some w => ∃ i e, first_closest searchTerm dictionary i e ∧ w = faka_uvea e
    | None => all_far searchTerm dictionary
    end.
Proof.
  intros Hlen ->.
  unfold Index.getSuggestion, Vite.suggestedEntry, Third.suggestion.
  replace (2 <? length searchTerm) with true by (symmetry; apply Nat.ltb_lt; lia).
  cbn [length Nat.eqb andb].
  pose proof (scanned_first_closest searchTerm dictionary _ (scanned_all searchTerm dictionary))
    as Hres.
  split; [exact Hres|]. split; [by rewrite vite_fold_index|].
  pose proof (third_fold_index searchTerm dictionary (Infinity, None) (Num 4, None)
                ltac:(by split)) as Hthird.
  unfold third_matches in Hthird.
  destruct (fold_left (Index.suggestion_step searchTerm) dictionary (Infinity, None)).2 as [e|].
  - destruct Hthird as [_ ->]. cbn [snd]. destruct Hres as [i Hi]. by exists i, e.
  - destruct Hthird as [_ ->]. exact Hres.
Qed.

Definition alofa : DictionaryEntry :=
  {| faka_uvea := str "alofa"; french := [str "amour"] |}.
Definition aliki : DictionaryEntry :=
  {| faka_uvea := str "aliki"; french := [str "roi"] |}.

(** The query "ALOfe" is no part of a headword or of a gloss of [aliki] and
    [alofa], so the search finds nothing. *)
Lemma suggestion_first_closest_witness :
  Index.getSuggestion (str "ALOfe") [] [aliki; alofa] = Some alofa
  ∧ Vite.suggestedEntry (str "ALOfe") [] [aliki; alofa] = Some alofa
  ∧ Third.suggestion (str "ALOfe") [] [aliki; alofa] = Some (str "alofa")
  ∧ distance (str "ALOfe") aliki = 3
  ∧ distance (str "ALOfe") alofa = 1
  ∧ ∃ i, first_closest (str "ALOfe") [aliki; alofa] i alofa.
Proof.
  repeat (split; [vm_compute; reflexivity|]).
  pose proof (suggestion_first_closest (str "ALOfe") [] [aliki; alofa]
                ltac:(vm_compute; lia) eq_refl) as [H _].
  exact H.
Defined.

(** C10. Each of the three suggestion routines returns nothing for a query of
    two characters or fewer, and for a query on which the search found at
    least one entry, whatever the vocabulary. *)
Theorem suggestion_guard (searchTerm : jsstring)
    (filtered dictionary : list DictionaryEntry) :
  length searchTerm ≤ 2 ∨ filtered ≠ [] →
  Index.getSuggestion searchTerm filtered dictionary = None
  ∧ Vite.suggestedEntry searchTerm filtered dictionary = None
  ∧ Third.suggestion searchTerm filtered dictionary = None.
Proof.
  intros Hguard.
  unfold Index.getSuggestion, Vite.suggestedEntry, Third.suggestion.
  destruct Hguard as [Hshort|Hfound].
  - replace (2 <? length searchTerm) with false by (symmetry; apply Nat.ltb_ge; lia).
    by rewrite !andb_false_r.
  - destruct filtered as [|e filtered]; [done|]. cbn [length Nat.eqb andb].
    by rewrite !andb_false_r.
Qed.

Lemma suggestion_guard_witness :
  Index.getSuggestion (str "al") [] [alofa] = None
  ∧ Vite.suggestedEntry (str "al") [] [alofa] = None
  ∧ Third.suggestion (str "al") [] [alofa] = None.
Proof.
  apply (suggestion_guard (str "al") [] [alofa]). left. vm_compute. lia.
Defined.

(** ** Selection matching *)

Lemma jsstring_eqb_eq a b : jsstring_eqb a b = true ↔ a = b.
Proof.
  revert b. induction a as [|x a IH]; intros [|y b]; cbn [jsstring_eqb]; try done.
  rewrite andb_true_iff, N.eqb_eq, IH. split; [by intros [-> ->]|by intros [= -> ->]].
Qed.

Lemma includes_elem_of l x : includes l x = true ↔ x ∈ l.
Proof.
  unfold includes. rewrite existsb_exists. split.
  - intros (y & Hy & ->%jsstring_eqb_eq). by apply list_elem_of_In.
  - intros Hx. exists x. split; [by apply list_elem_of_In|by apply jsstring_eqb_eq].
Qed.

Lemma includes_not_elem_of l x : includes l x = false ↔ x ∉ l.
Proof. rewrite <- includes_elem_of. by destruct (includes l x). Qed.

(** The string a selection spells: the characters of its cells, in order. *)
Definition index_selected (g : list (list Index.GridCell)) (sel : list Index.Position)
  : option jsstring :=
  chars ← mapM (λ pos, cell ← grid_get g (Index.r pos) (Index.c pos);
                       Some (Index.char cell)) sel;
  Some (Index.joinChars chars).

Definition vite_selected (g : list (list code_unit)) (sel : list (nat * nat))
  : option jsstring :=
  mapM (λ cell, grid_get g cell.1 cell.2) sel.

(** [w] is a word of the win set that is not found yet. *)
Definition findable (words found : list jsstring) (w : jsstring) : Prop :=
  w ∈ words ∧ w ∉ found.

(** The found-set after the release of a selection spelling [s]: the forward
    reading is marked when it is findable, else the reading from the last
    cell to the first ([reverse s]) when that one is, else nothing changes. *)
Definition release_outcome (words found : list jsstring) (s : jsstring)
    (found' : list jsstring) : Prop :=
  (findable words found s → found' = found ++ [s])
  ∧ (¬ findable words found s → findable words found (reverse s) →
     found' = found ++ [reverse s])
  ∧ (¬ findable words found s → ¬ findable words found (reverse s) →
     found' = found).

(** The found-set both handlers compute from the string they read. *)
Definition marked (words found : list jsstring) (s : jsstring) : list jsstring :=
  if includes words s && negb (includes found s) then found ++ [s]
  else if includes words (reversed s) && negb (includes found (reversed s))
  then found ++ [reversed s]
  else found.

Lemma findable_includes words found w :
  includes words w && negb (includes found w) = true ↔ findable words found w.
Proof.
  unfold findable. rewrite andb_true_iff, negb_true_iff.
  by rewrite includes_elem_of, includes_not_elem_of.
Qed.

Lemma marked_outcome words found s : release_outcome words found s (marked words found s).
Proof.
  unfold release_outcome, marked.
  destruct (includes words s && negb (includes found s)) eqn:Hs.
  - apply findable_includes in Hs. by repeat split.
  - assert (¬ findable words found s) by (rewrite <- findable_includes; congruence).
    destruct (includes words (reversed s) && negb (includes found (reversed s))) eqn:Hr.
    + apply findable_includes in Hr. by repeat split.
    + assert (¬ findable words found (reversed s))
        by (rewrite <- findable_includes; congruence).
      by repeat split.
Qed.

Lemma length_joinChars chars : length (Index.joinChars chars) ≤ length chars.
Proof.
  unfold Index.joinChars. induction chars as [|[ch|] chars IH]; cbn; lia.
Qed.

Lemma marked_short words found s :
  Forall (λ w, 2 < length w) words → length s ≤ 2 → marked words found s = found.
Proof.
  intros Hwords Hs. unfold marked.
  assert (Hout : ∀ w, length w ≤ 2 → includes words w = false).
  { intros w Hw. apply includes_not_elem_of. intros Hin.
    rewrite Forall_forall in Hwords. apply Hwords in Hin. lia. }
  rewrite (Hout s Hs), (Hout (reversed s)); [done|].
  unfold reversed. by rewrite length_reverse.
Qed.

Lemma index_handleMouseUp_marked st s :
  Forall (λ w, 2 < length w) (Index.words st) →
  index_selected (Index.grid st) (Index.selection st) = Some s →
  Index.handleMouseUp st =
  Some {| Index.grid := Index.grid st; Index.words := Index.words st;
          Index.foundWords := marked (Index.words st) (Index.foundWords st) s;
          Index.selection := [] |}.
Proof.
  intros Hwords Hsel. unfold Index.handleMouseUp, Index.getSelectedWord.
  unfold index_selected in Hsel.
  destruct (mapM _ (Index.selection st)) as [chars|] eqn:Hchars; [|done].
  cbn [mbind option_bind] in Hsel. injection Hsel as <-.
  destruct (Nat.ltb_spec (length (Index.selection st)) 2) as [Hshort|Hlong];
    cbn [mbind option_bind]; [|done].
  pose proof (length_mapM _ _ _ Hchars) as Hlen.
  pose proof (length_joinChars chars) as Hjoin.
  rewrite (marked_short _ _ (Index.joinChars chars)) by (done || lia).
  pose proof (marked_short (Index.words st) (Index.foundWords st) [] Hwords ltac:(cbn; lia))
    as Hempty.
  unfold marked in Hempty. by rewrite Hempty.
Qed.



(** ** Grids and random computations: general facts *)

(** A square grid of side [n]. *)
Definition square {A} (n : nat) (g : list (list A)) : Prop :=
  length g = n ∧ Forall (λ row, length row = n) g.

Lemma square_replicate {A} n (x : A) : square n (replicate n (replicate n x)).
Proof.
  split; [apply length_replicate|].
  apply Forall_forall. intros row Hrow%elem_of_replicate_inv. subst row.
  apply length_replicate.
Qed.

Lemma grid_get_square {A} n (g : list (list A)) r c :
  square n g → r < n → c < n → ∃ v, grid_get g r c = Some v.
Proof.
  intros [Hlen Hrows] Hr Hc. unfold grid_get.
  destruct (lookup_lt_is_Some_2 g r ltac:(lia)) as [row Hrow]. rewrite Hrow.
  cbn [mbind option_bind]. apply lookup_lt_is_Some_2.
  rewrite Forall_lookup in Hrows. rewrite (Hrows r row Hrow). done.
Qed.

Lemma grid_get_in_square {A} n (g : list (list A)) r c v :
  square n g → grid_get g r c = Some v → r < n ∧ c < n.
Proof.
  intros [Hlen Hrows]. unfold grid_get.
  destruct (g !! r) as [row|] eqn:Hrow; [|done]. cbn [mbind option_bind].
  intros Hc%lookup_lt_Some. rewrite Forall_lookup in Hrows.
  rewrite (Hrows r row Hrow) in Hc. apply lookup_lt_Some in Hrow. lia.
Qed.

Lemma grid_set_square {A} n (g : list (list A)) r c v :
  square n g → r < n → c < n →
  ∃ g', grid_set g r c v = Some g' ∧ square n g'
    ∧ grid_get g' r c = Some v
    ∧ ∀ r' c', (r', c') ≠ (r, c) → grid_get g' r' c' = grid_get g r' c'.
Proof.
  intros [Hlen Hrows] Hr Hc. unfold grid_set.
  destruct (lookup_lt_is_Some_2 g r ltac:(lia)) as [row Hrow]. rewrite Hrow.
  cbn [mbind option_bind].
  assert (Hrowlen : length row = n)
    by (rewrite Forall_lookup in Hrows; by apply (Hrows r row)).
  replace (c <? length row) with true by (symmetry; apply Nat.ltb_lt; lia).
  eexists. split; [done|]. split; [|split].
  - split; [by rewrite length_insert|].
    apply Forall_insert; [done|]. by rewrite length_insert.
  - unfold grid_get. rewrite list_lookup_insert_eq by lia. cbn [mbind option_bind].
    apply list_lookup_insert_eq. lia.
  - intros r' c' Hne. unfold grid_get.
    destruct (decide (r' = r)) as [->|Hr'].
    + rewrite list_lookup_insert_eq by lia. rewrite Hrow. cbn [mbind option_bind].
      apply list_lookup_insert_ne. congruence.
    + by rewrite list_lookup_insert_ne.
Qed.

(** [m] returns on every oracle and every counter, and its result satisfies
    [Q]. *)
Definition returns {A} (m : Rand A) (Q : A → Prop) : Prop :=
  ∀ rnd k, ∃ a k', m rnd k = Some (a, k') ∧ Q a.

Lemma returns_rret {A} (a : A) (Q : A → Prop) : Q a → returns (rret a) Q.
Proof. intros HQ rnd k. by exists a, k. Qed.

Lemma returns_rbind {A B} (m : Rand A) (f : A → Rand B) (P : A → Prop) (Q : B → Prop) :
  returns m P → (∀ a, P a → returns (f a) Q) → returns (rbind m f) Q.
Proof.
  intros Hm Hf rnd k. destruct (Hm rnd k) as (a & k' & Hrun & HP).
  destruct (Hf a HP rnd k') as (b & k'' & Hrun' & HQ).
  exists b, k''. unfold rbind. by rewrite Hrun.
Qed.

Lemma returns_random (Q : unit_value → Prop) : (∀ x, Q x) → returns random Q.
Proof. intros HQ rnd k. by exists (rnd k), (S k). Qed.

Lemma returns_lift {A} (o : option A) (a : A) (Q : A → Prop) :
  o = Some a → Q a → returns (lift o) Q.
Proof. intros -> HQ rnd k. by exists a, k. Qed.

Lemma returns_weaken {A} (m : Rand A) (P Q : A → Prop) :
  returns m P → (∀ a, P a → Q a) → returns m Q.
Proof.
  intros Hm HPQ rnd k. destruct (Hm rnd k) as (a & k' & Hrun & HP).
  exists a, k'. auto.
Qed.

Lemma returns_lift_bind {A B} (o : option A) (a : A) (f : A → Rand B) (Q : B → Prop) :
  o = Some a → returns (f a) Q → returns (rbind (lift o) f) Q.
Proof.
  intros -> Hf. eapply returns_rbind; [by apply (returns_lift _ a (λ r, r = a))|].
  by intros ? ->.
Qed.

Lemma returns_random_bind {B} (f : unit_value → Rand B) (Q : B → Prop) :
  (∀ x, returns (f x) Q) → returns (rbind random f) Q.
Proof.
  intros Hf. eapply returns_rbind; [by apply (returns_random (λ _, True))|].
  intros x _. apply Hf.
Qed.

(** A loop that maintains [I start], ..., [I (start + n)]. *)
Lemma returns_rand_loop {St} (I : nat → St → Prop) n start
    (body : nat → St → Rand St) s :
  I start s →
  (∀ i s', start ≤ i < start + n → I i s' → returns (body i s') (I (S i))) →
  returns (rand_loop n start body s) (I (start + n)).
Proof.
  revert start s. induction n as [|n IH]; intros start s Hs Hbody.
  - rewrite Nat.add_0_r. by apply returns_rret.
  - cbn [rand_loop]. eapply returns_rbind; [apply Hbody; [lia|done]|].
    intros s' Hs'. replace (start + S n) with (S start + n) by lia.
    apply IH; [done|]. intros i s'' Hi. apply Hbody. lia.
Qed.

Lemma floor_times_lt x n : 0 < n → floor_times x n < n.
Proof.
  intros Hn. unfold floor_times. apply Nat.Div0.div_lt_upper_bound. nia.
Qed.

(** ** Writing a word on a grid *)

Section Placement.
Context {A : Type}.
Variable chr : A → option code_unit.
Variable n : nat.

(** Cell [(row, col)] of [g] exists and holds the character [ch]. *)
Definition holds (g : list (list A)) (row col : nat) (ch : code_unit) : Prop :=
  ∃ cell, grid_get g row col = Some cell ∧ chr cell = Some ch.

(** Cell [(row, col)] of [g] exists and is empty or holds [ch] already. *)
Definition free_or_same (g : list (list A)) (row col : nat) (ch : code_unit) : Prop :=
  ∃ cell, grid_get g row col = Some cell ∧ (chr cell = None ∨ chr cell = Some ch).

(** The acceptance condition of a placement: every cell is on the grid and
    is empty or already holds the character wanted there. *)
Definition placeable (g : list (list A)) (cells : list (nat * nat * code_unit)) : Prop :=
  Forall (λ p, p.1.1 < n ∧ p.1.2 < n ∧ free_or_same g p.1.1 p.1.2 p.2) cells.

(** Every character of [g] is still there in [g']. *)
Definition extends (g g' : list (list A)) : Prop :=
  ∀ row col ch, holds g row col ch → holds g' row col ch.

(** The grid shows the characters of [cells] at their cells. *)
Definition agrees (g : list (list A)) (cells : list (nat * nat * code_unit)) : Prop :=
  Forall (λ p, holds g p.1.1 p.1.2 p.2) cells.

(** Writing the cells one after the other; [mk ch] is the value stored for
    the character [ch]. *)
Fixpoint write_all (mk : code_unit → A) (g : list (list A))
    (cells : list (nat * nat * code_unit)) : option (list (list A)) :=
  match cells with
  | [] => Some g
  | p :: cells' => g' ← grid_set g p.1.1 p.1.2 (mk p.2); write_all mk g' cells'
  end.

Lemma extends_refl g : extends g g.
Proof. by intros row col ch. Qed.

Lemma extends_trans g1 g2 g3 : extends g1 g2 → extends g2 g3 → extends g1 g3.
Proof. intros H12 H23 row col ch H. by apply H23, H12. Qed.

Lemma agrees_extends g g' cells : extends g g' → agrees g cells → agrees g' cells.
Proof. intros Hext Hag. eapply Forall_impl; [exact Hag|]. intros p. apply Hext. Qed.

Lemma holds_inj g row col ch ch' : holds g row col ch → holds g row col ch' → ch = ch'.
Proof. intros (cell & Hg & Hc) (cell' & Hg' & Hc'). congruence. Qed.

Lemma write_all_spec mk g cells :
  (∀ ch, chr (mk ch) = Some ch) →
  square n g → placeable g cells → NoDup (fst <$> cells) →
  ∃ g', write_all mk g cells = Some g' ∧ square n g' ∧ extends g g' ∧ agrees g' cells
    ∧ ∀ row col, (row, col) ∉ fst <$> cells → grid_get g' row col = grid_get g row col.
Proof.
  intros Hmk. revert g. induction cells as [|[[row col] ch] cells IH]; intros g Hsq Hpl Hnd.
  - exists g. split; [done|]. split; [done|]. split; [apply extends_refl|].
    split; [by apply Forall_nil|done].
  - apply Forall_cons in Hpl as [(Hrow & Hcol & Hfree) Hpl]. cbn [fst snd] in *.
    rewrite fmap_cons in Hnd. apply NoDup_cons in Hnd as [Hnotin Hnd]. cbn [fst] in Hnotin.
    destruct (grid_set_square n g row col (mk ch) Hsq Hrow Hcol)
      as (g1 & Hset & Hsq1 & Hget1 & Hother1).
    assert (Hext1 : extends g g1).
    { intros row' col' ch' (cell & Hcell & Hch).
      destruct (decide ((row', col') = (row, col))) as [[= -> ->]|Hne].
      - exists (mk ch). split; [done|]. rewrite Hmk.
        destruct Hfree as (cell' & Hcell' & [Hnone|Hsame]); congruence.
      - exists cell. by rewrite Hother1. }
    assert (Hpl1 : placeable g1 cells).
    { unfold placeable in *. rewrite Forall_forall in Hpl. apply Forall_forall.
      intros [[row' col'] ch'] Hin. destruct (Hpl _ Hin) as (Hr' & Hc' & Hfree').
      cbn [fst snd] in *. split; [done|]. split; [done|].
      unfold free_or_same. rewrite Hother1; [done|].
      intros [= -> ->]. apply Hnotin. apply list_elem_of_fmap.
      by exists (row, col, ch'). }
    destruct (IH g1 Hsq1 Hpl1 Hnd) as (g' & Hwrite & Hsq' & Hext' & Hagree & Hother').
    exists g'. cbn [write_all fst snd]. rewrite Hset. cbn [mbind option_bind].
    split; [done|]. split; [done|]. split; [by eapply extends_trans|].
    split.
    + apply Forall_cons. split; [|done]. cbn [fst snd]. apply Hext'.
      exists (mk ch). by rewrite Hmk.
    + intros row' col' Hnot. rewrite fmap_cons, not_elem_of_cons in Hnot.
      destruct Hnot as [Hne Hnot]. cbn [fst] in Hne.
      rewrite Hother' by done. by apply Hother1.
Qed.
End Placement.

(** ** The packer of index.tsx *)

(** The cells a word occupies from [(startRow, startCol)] along [dir], for its
    characters [rest] from index [j] on. *)
Fixpoint index_laid (startRow startCol : nat) (dir : Index.Position) (j : nat)
    (rest : jsstring) : list (nat * nat * code_unit) :=
  match rest with
  | [] => []
  | ch :: rest' =>
      (startRow + j * Index.r dir, startCol + j * Index.c dir, ch)
      :: index_laid startRow startCol dir (S j) rest'
  end.

(** [word] is laid somewhere on the grid along one of the directions, on the
    cells [cells]. *)
Definition index_placement (word : jsstring) (cells : list (nat * nat * code_unit)) : Prop :=
  ∃ startRow startCol dir,
    dir ∈ Index.directions ∧ cells = index_laid startRow startCol dir 0 word.

Lemma directions_step dir : dir ∈ Index.directions → 0 < Index.r dir + Index.c dir.
Proof.
  unfold Index.directions. rewrite !elem_of_cons, elem_of_nil.
  intros [->|[->|[->|[]]]]; cbn; lia.
Qed.

Lemma index_laid_index sr sc dir j rest p :
  p ∈ index_laid sr sc dir j rest →
  ∃ i, j ≤ i ∧ p.1 = (sr + i * Index.r dir, sc + i * Index.c dir).
Proof.
  revert j. induction rest as [|ch rest IH]; intros j; cbn [index_laid].
  - by intros ?%elem_of_nil.
  - intros [->|Hin]%elem_of_cons.
    + exists j. by split.
    + destruct (IH (S j) Hin) as (i & Hi & Hp). exists i. split; [lia|done].
Qed.

Lemma index_laid_NoDup sr sc dir j rest :
  0 < Index.r dir + Index.c dir → NoDup (fst <$> index_laid sr sc dir j rest).
Proof.
  intros Hdir. revert j. induction rest as [|ch rest IH]; intros j; cbn [index_laid].
  - apply NoDup_nil_2.
  - rewrite fmap_cons. apply NoDup_cons. split; [|apply IH]. cbn [fst].
    intros (p & Hp & Hin)%list_elem_of_fmap.
    destruct (index_laid_index _ _ _ _ _ _ Hin) as (i & Hi & Hpi).
    rewrite Hpi in Hp. injection Hp as Hrow Hcol. nia.
Qed.

Lemma index_laid_lookup sr sc dir j rest i ch :
  rest !! i = Some ch →
  (sr + (j + i) * Index.r dir, sc + (j + i) * Index.c dir, ch) ∈ index_laid sr sc dir j rest.
Proof.
  revert j i. induction rest as [|x rest IH]; intros j i; [done|].
  destruct i as [|i]; cbn [index_laid].
  - intros [= ->]. rewrite Nat.add_0_r. apply elem_of_cons. by left.
  - intros Hi. apply elem_of_cons. right.
    replace (j + S i) with (S j + i) by lia. by apply IH.
Qed.

Lemma index_conflicts_false cell ch :
  Index.conflicts cell ch = false ↔ Index.char cell = None ∨ Index.char cell = Some ch.
Proof.
  unfold Index.conflicts. destruct (Index.char cell) as [x|]; [|by intuition].
  rewrite negb_false_iff, N.eqb_eq. split; [intros ->; by right|].
  by intros [|[= ->]].
Qed.

(** The loop that builds [cellsToPlace] never fails, and it accepts exactly
    the placements whose cells are all on the grid and empty or equal. *)
Lemma collectCells_spec g sr sc dir j rest :
  square Index.GRID_SIZE g →
  (Index.collectCells g sr sc dir j rest = Some (Some (index_laid sr sc dir j rest))
   ∧ placeable Index.char Index.GRID_SIZE g (index_laid sr sc dir j rest))
  ∨ (Index.collectCells g sr sc dir j rest = Some None
     ∧ ¬ placeable Index.char Index.GRID_SIZE g (index_laid sr sc dir j rest)).
Proof.
  intros Hsq. revert j. induction rest as [|ch rest IH]; intros j.
  - left. split; [done|]. apply Forall_nil_2.
  - cbn [Index.collectCells index_laid].
    set (row := sr + j * Index.r dir). set (col := sc + j * Index.c dir).
    unfold placeable. rewrite Forall_cons. cbn [fst snd].
    destruct (Nat.leb_spec Index.GRID_SIZE row) as [Hrow|Hrow]; cbn [orb].
    { right. split; [done|]. intros [(? & _) _]. lia. }
    destruct (Nat.leb_spec Index.GRID_SIZE col) as [Hcol|Hcol]; cbn [orb].
    { right. split; [done|]. intros [(_ & ? & _) _]. lia. }
    destruct (grid_get_square _ g row col Hsq Hrow Hcol) as [cell Hcell].
    rewrite Hcell. cbn [mbind option_bind].
    destruct (Index.conflicts cell ch) eqn:Hconf.
    { right. split; [done|]. intros [(_ & _ & cell' & Hcell' & Hfree) _].
      assert (cell' = cell) as -> by congruence.
      apply index_conflicts_false in Hfree. congruence. }
    apply index_conflicts_false in Hconf.
    destruct (IH (S j)) as [[-> Hpl]|[-> Hpl]]; cbn [mbind option_bind option_map].
    + left. split; [done|]. split; [|done]. split; [done|]. split; [done|].
      by exists cell.
    + right. split; [done|]. by intros [_ ?].
Qed.

Lemma writeCells_write_all g word cells :
  Index.writeCells g word cells =
  write_all (λ ch, {| Index.char := Some ch; Index.wordRef := Some word |}) g cells.
Proof.
  revert g. induction cells as [|[[row col] ch] cells IH]; intros g; [done|].
  cbn [Index.writeCells write_all fst snd].
  destruct (grid_set g row col _) as [g'|]; [|done]. cbn [mbind option_bind]. apply IH.
Qed.

(** One word: the attempts loop returns a grid that keeps every character,
    and when the word was placed the grid shows it on the accepted cells. *)
Lemma index_placeWord_spec n g word :
  square Index.GRID_SIZE g →
  returns (Index.placeWord n g word) (λ res,
    square Index.GRID_SIZE res.1 ∧ extends Index.char g res.1
    ∧ match res.2 with
      | Some cells =>
          index_placement word cells
          ∧ placeable Index.char Index.GRID_SIZE g cells
          ∧ agrees Index.char res.1 cells
      | None => res.1 = g
      end).
Proof.
  intros Hsq. induction n as [|n IH]; cbn [Index.placeWord].
  - apply returns_rret. split; [done|]. split; [apply extends_refl|done].
  - apply returns_random_bind. intros x.
    destruct (lookup_lt_is_Some_2 Index.directions (floor_times x (length Index.directions))
                (floor_times_lt x (length Index.directions) ltac:(cbn; lia)))
      as [dir Hdir].
    apply (returns_lift_bind _ dir); [done|].
    apply returns_random_bind. intros y. apply returns_random_bind. intros z.
    set (sr := floor_times y Index.GRID_SIZE). set (sc := floor_times z Index.GRID_SIZE).
    assert (Hin : dir ∈ Index.directions) by (eapply list_elem_of_lookup_2; eauto).
    destruct (collectCells_spec g sr sc dir 0 word Hsq) as [[Hcol Hpl]|[Hcol Hpl]].
    + apply (returns_lift_bind _ (Some (index_laid sr sc dir 0 word))); [done|].
      destruct (write_all_spec Index.char Index.GRID_SIZE
                  (λ ch, {| Index.char := Some ch; Index.wordRef := Some word |})
                  g (index_laid sr sc dir 0 word) ltac:(done) Hsq Hpl
                  (index_laid_NoDup _ _ _ _ _ (directions_step _ Hin)))
        as (g' & Hwrite & Hsq' & Hext & Hag & _).
      rewrite <- writeCells_write_all in Hwrite.
      apply (returns_lift_bind _ g'); [done|].
      apply returns_rret. cbn [fst snd].
      split; [done|]. split; [done|]. split; [|done]. by exists sr, sc, dir.
    + apply (returns_lift_bind _ None); [done|]. exact IH.
Qed.

(** Every recorded placement is a placement of its word, and the grid shows
    it. *)
Definition index_recorded (g : list (list Index.GridCell))
    (history : list (jsstring * list (nat * nat * code_unit))) : Prop :=
  Forall (λ h, index_placement h.1 h.2 ∧ agrees Index.char g h.2) history.

Lemma index_recorded_extends g g' history :
  extends Index.char g g' → index_recorded g history → index_recorded g' history.
Proof.
  intros Hext Hrec. eapply Forall_impl; [exact Hrec|].
  intros h [Hpl Hag]. split; [done|]. by eapply agrees_extends.
Qed.

Lemma index_placeWords_spec ws g placedWords history :
  square Index.GRID_SIZE g → index_recorded g history → placedWords = history.*1 →
  returns (Index.placeWords ws g placedWords history) (λ res,
    square Index.GRID_SIZE res.1.1 ∧ extends Index.char g res.1.1
    ∧ index_recorded res.1.1 res.2 ∧ res.1.2 = res.2.*1
    ∧ ∃ added, res.1.2 = placedWords ++ added ∧ added `sublist_of` ws).
Proof.
  revert g placedWords history.
  induction ws as [|word ws IH]; intros g placedWords history Hsq Hrec Hpw;
    cbn [Index.placeWords].
  - apply returns_rret. cbn [fst snd]. split; [done|]. split; [apply extends_refl|].
    split; [done|]. split; [done|]. exists []. by rewrite app_nil_r.
  - eapply returns_rbind; [by apply index_placeWord_spec|].
    intros [g1 [cells|]]; cbn [fst snd].
    + intros (Hsq1 & Hext1 & Hpl & _ & Hag).
      eapply returns_weaken.
      * apply (IH g1 (placedWords ++ [word]) (history ++ [(word, cells)])); [done| |].
        -- apply Forall_app. split; [by eapply index_recorded_extends|].
           apply Forall_singleton. by split.
        -- by rewrite fmap_app, Hpw.
      * intros [[g2 pw2] h2]; cbn [fst snd].
        intros (Hsq2 & Hext2 & Hrec2 & Hpw2 & added & Hadd & Hsub).
        split; [done|]. split; [by eapply extends_trans|]. split; [done|]. split; [done|].
        exists (word :: added). split; [by rewrite Hadd, <- app_assoc|].
        by apply sublist_skip.
    + intros (Hsq1 & _ & ->).
      eapply returns_weaken; [by apply (IH g placedWords history)|].
      intros [[g2 pw2] h2]; cbn [fst snd].
      intros (Hsq2 & Hext2 & Hrec2 & Hpw2 & added & Hadd & Hsub).
      split; [done|]. split; [done|]. split; [done|]. split; [done|].
      exists added. split; [done|]. by apply sublist_cons.
Qed.

(** Every cell before position [p], counting row by row, holds a character. *)
Definition index_filled_before (g : list (list Index.GridCell)) (p : nat) : Prop :=
  ∀ row col, row < Index.GRID_SIZE → col < Index.GRID_SIZE →
    row * Index.GRID_SIZE + col < p → ∃ ch, holds Index.char g row col ch.

Lemma index_fillCell_spec g0 g row col :
  row < Index.GRID_SIZE → col < Index.GRID_SIZE →
  square Index.GRID_SIZE g → extends Index.char g0 g →
  index_filled_before g (row * Index.GRID_SIZE + col) →
  returns (Index.fillCell row col g) (λ g',
    square Index.GRID_SIZE g' ∧ extends Index.char g0 g'
    ∧ index_filled_before g' (row * Index.GRID_SIZE + S col)).
Proof.
  intros Hrow Hcol Hsq Hext Hfilled. unfold Index.fillCell.
  destruct (grid_get_square _ g row col Hsq Hrow Hcol) as [cell Hcell].
  apply (returns_lift_bind _ cell); [done|].
  destruct (Index.char cell) as [ch|] eqn:Hch.
  - apply returns_rret. split; [done|]. split; [done|].
    intros row' col' Hrow' Hcol' Hp.
    destruct (decide (row' * Index.GRID_SIZE + col' = row * Index.GRID_SIZE + col)) as [Heq|Hne].
    + assert (row' = row ∧ col' = col) as [-> ->] by (unfold Index.GRID_SIZE in *; lia).
      exists ch. by exists cell.
    + apply Hfilled; [done|done|lia].
  - apply returns_random_bind. intros x.
    destruct (lookup_lt_is_Some_2 ALPHABET (floor_times x (length ALPHABET))
                (floor_times_lt x (length ALPHABET) ltac:(cbn; lia))) as [ch Halpha].
    apply (returns_lift_bind _ ch); [done|].
    destruct (grid_set_square _ g row col
                {| Index.char := Some ch; Index.wordRef := None |} Hsq Hrow Hcol)
      as (g' & Hset & Hsq' & Hget' & Hother).
    assert (Hstep : extends Index.char g g').
    { intros row' col' ch' (cell' & Hcell' & Hch').
      destruct (decide ((row', col') = (row, col))) as [[= -> ->]|Hne]; [congruence|].
      exists cell'. by rewrite Hother. }
    apply (returns_lift _ g'); [done|].
    split; [done|]. split; [by eapply extends_trans|].
    intros row' col' Hrow' Hcol' Hp.
    destruct (decide (row' * Index.GRID_SIZE + col' = row * Index.GRID_SIZE + col)) as [Heq|Hne].
    + assert (row' = row ∧ col' = col) as [-> ->] by (unfold Index.GRID_SIZE in *; lia).
      exists ch. by eexists.
    + destruct (Hfilled row' col' Hrow' Hcol' ltac:(lia)) as [ch' Hch'].
      exists ch'. by apply Hstep.
Qed.

Lemma index_fillGrid_spec g :
  square Index.GRID_SIZE g →
  returns (Index.fillGrid g) (λ g',
    square Index.GRID_SIZE g' ∧ extends Index.char g g'
    ∧ index_filled_before g' (Index.GRID_SIZE * Index.GRID_SIZE)).
Proof.
  intros Hsq. unfold Index.fillGrid.
  eapply returns_weaken.
  - apply (returns_rand_loop
             (λ row g', square Index.GRID_SIZE g' ∧ extends Index.char g g'
                        ∧ index_filled_before g' (row * Index.GRID_SIZE))).
    + split; [done|]. split; [apply extends_refl|]. intros row col _ _ Hp. lia.
    + intros row g1 Hrow (Hsq1 & Hext1 & Hfill1).
      eapply returns_weaken.
      * apply (returns_rand_loop
                 (λ col g', square Index.GRID_SIZE g' ∧ extends Index.char g g'
                            ∧ index_filled_before g' (row * Index.GRID_SIZE + col))).
        -- by rewrite Nat.add_0_r.
        -- intros col g2 Hcol (Hsq2 & Hext2 & Hfill2).
           apply index_fillCell_spec; [lia|lia|done|done|done].
      * intros g2 (Hsq2 & Hext2 & Hfill2). split; [done|]. split; [done|].
        intros row' col' Hrow' Hcol' Hp. apply Hfill2; [done|done|].
        cbn [Nat.add] in *. lia.
  - intros g' (Hsq' & Hext' & Hfill'). split; [done|]. split; [done|].
    intros row col Hrow Hcol Hp. apply Hfill'; [done|done|]. cbn [Nat.add]. lia.
Qed.

(** A grid of side [GRID_SIZE] in which every cell holds a character. *)
Definition index_full (g : list (list Index.GridCell)) : Prop :=
  square Index.GRID_SIZE g
  ∧ ∀ row col, row < Index.GRID_SIZE → col < Index.GRID_SIZE →
      ∃ ch, holds Index.char g row col ch.

Lemma index_pack_spec shuffle dictionary :
  returns (Index.pack shuffle dictionary) (λ res,
    index_full res.1.1 ∧ index_recorded res.1.1 res.2 ∧ res.1.2 = res.2.*1
    ∧ res.1.2 `sublist_of` Index.wordsToPlace shuffle dictionary).
Proof.
  unfold Index.pack.
  eapply returns_rbind.
  - apply (index_placeWords_spec _ Index.emptyGrid [] []); [|by apply Forall_nil|done].
    apply square_replicate.
  - intros [[g pw] h]; cbn [fst snd].
    intros (Hsq & _ & Hrec & Hpw & added & -> & Hsub).
    eapply returns_rbind; [by apply index_fillGrid_spec|].
    intros g' (Hsq' & Hext' & Hfill'). apply returns_rret. cbn [fst snd].
    split; [|split; [by eapply index_recorded_extends|done]].
    split; [done|]. intros row col Hrow Hcol. apply Hfill'; [done|done|].
    unfold Index.GRID_SIZE in *. nia.
Qed.

(** ** The packer of vite.config.ts *)

(** The cells a word occupies from [(row, col)] in direction [d], for its
    characters [rest] from index [i] on. *)
Fixpoint vite_laid (d : Vite.Direction) (row col i : nat) (rest : jsstring)
  : list (nat * nat * code_unit) :=
  match rest with
  | [] => []
  | ch :: rest' =>
      ((Vite.cellAt d row col i).1, (Vite.cellAt d row col i).2, ch)
      :: vite_laid d row col (S i) rest'
  end.

(** The word fits on the grid from its start cell. *)
Definition vite_fits (d : Vite.Direction) (row col : nat) (word : jsstring) : Prop :=
  match d with
  | Vite.horizontal => row < Vite.gridSize ∧ col + length word ≤ Vite.gridSize
  | Vite.vertical => row + length word ≤ Vite.gridSize ∧ col < Vite.gridSize
  end.

Lemma vite_laid_index d row col i rest p :
  p ∈ vite_laid d row col i rest →
  ∃ k, i ≤ k < i + length rest ∧ p.1 = Vite.cellAt d row col k.
Proof.
  revert i. induction rest as [|ch rest IH]; intros i; cbn [vite_laid length].
  - by intros ?%elem_of_nil.
  - intros [->|Hin]%elem_of_cons.
    + exists i. split; [lia|]. by destruct (Vite.cellAt d row col i).
    + destruct (IH (S i) Hin) as (k & Hk & Hp). exists k. split; [lia|done].
Qed.

Lemma vite_laid_NoDup d row col i rest : NoDup (fst <$> vite_laid d row col i rest).
Proof.
  revert i. induction rest as [|ch rest IH]; intros i; cbn [vite_laid].
  - apply NoDup_nil_2.
  - rewrite fmap_cons. apply NoDup_cons. split; [|apply IH]. cbn [fst].
    intros (p & Hp & Hin)%list_elem_of_fmap.
    destruct (vite_laid_index _ _ _ _ _ _ Hin) as (k & Hk & Hpk).
    rewrite Hpk in Hp. destruct d; cbn in Hp; injection Hp; intros; lia.
Qed.

Lemma vite_laid_lookup d row col i rest k ch :
  rest !! k = Some ch →
  ((Vite.cellAt d row col (i + k)).1, (Vite.cellAt d row col (i + k)).2, ch)
  ∈ vite_laid d row col i rest.
Proof.
  revert i k. induction rest as [|x rest IH]; intros i k; [done|].
  destruct k as [|k]; cbn [vite_laid].
  - intros [= ->]. rewrite Nat.add_0_r. apply elem_of_cons. by left.
  - intros Hk. apply elem_of_cons. right.
    replace (i + S k) with (S i + k) by lia. by apply IH.
Qed.

Lemma vite_conflicts_false cell ch :
  Vite.conflicts cell ch = false ↔ cell = None ∨ cell = Some ch.
Proof.
  unfold Vite.conflicts. destruct cell as [x|]; [|by intuition].
  rewrite negb_false_iff, N.eqb_eq. split; [intros ->; by right|].
  by intros [|[= ->]].
Qed.

(** For a word that fits, the loop that computes [canPlace] never fails, and
    it accepts exactly the placements whose cells are all empty or equal. *)
Lemma canPlace_spec g d row col i rest :
  square Vite.gridSize g →
  (∀ k, i ≤ k < i + length rest →
        (Vite.cellAt d row col k).1 < Vite.gridSize
        ∧ (Vite.cellAt d row col k).2 < Vite.gridSize) →
  (Vite.canPlace g d row col i rest = Some true
   ∧ placeable id Vite.gridSize g (vite_laid d row col i rest))
  ∨ (Vite.canPlace g d row col i rest = Some false
     ∧ ¬ placeable id Vite.gridSize g (vite_laid d row col i rest)).
Proof.
  intros Hsq. revert i. induction rest as [|ch rest IH]; intros i Hfit.
  - left. split; [done|]. apply Forall_nil_2.
  - cbn [Vite.canPlace vite_laid]. cbn [length] in Hfit.
    destruct (Hfit i ltac:(lia)) as [Hrow Hcol].
    unfold placeable. rewrite Forall_cons. cbn [fst snd].
    destruct (grid_get_square _ g _ _ Hsq Hrow Hcol) as [cell Hcell].
    rewrite Hcell. cbn [mbind option_bind].
    destruct (Vite.conflicts cell ch) eqn:Hconf.
    { right. split; [done|]. intros [(_ & _ & cell' & Hcell' & Hfree) _].
      assert (cell' = cell) as -> by congruence.
      unfold id in Hfree. apply vite_conflicts_false in Hfree. congruence. }
    apply vite_conflicts_false in Hconf.
    destruct (IH (S i) ltac:(intros k Hk; apply Hfit; lia)) as [[-> Hpl]|[-> Hpl]].
    + left. split; [done|]. split; [|done]. split; [done|]. split; [done|].
      by exists cell.
    + right. split; [done|]. by intros [_ ?].
Qed.

Lemma writeWord_write_all g d row col i rest :
  Vite.writeWord g d row col i rest = write_all Some g (vite_laid d row col i rest).
Proof.
  revert g i. induction rest as [|ch rest IH]; intros g i; [done|].
  cbn [Vite.writeWord vite_laid write_all fst snd].
  destruct (grid_set g _ _ _) as [g'|]; [|done]. cbn [mbind option_bind]. apply IH.
Qed.

Lemma vite_fits_cells d row col word k :
  vite_fits d row col word → k < length word →
  (Vite.cellAt d row col k).1 < Vite.gridSize ∧ (Vite.cellAt d row col k).2 < Vite.gridSize.
Proof. destruct d; cbn; lia. Qed.

Lemma shortIndex_fits x word :
  length word ≤ Vite.gridSize →
  ∃ i, Vite.shortIndex x word = Some i ∧ i + length word ≤ Vite.gridSize.
Proof.
  intros Hlen. unfold Vite.shortIndex.
  replace (length word <=? Vite.gridSize) with true by (symmetry; apply Nat.leb_le; lia).
  eexists. split; [done|].
  destruct (decide (length word = Vite.gridSize)) as [->|Hne].
  - rewrite Nat.sub_diag. unfold floor_times. rewrite Nat.mul_0_r, Nat.Div0.div_0_l. lia.
  - pose proof (floor_times_lt x (Vite.gridSize - length word) ltac:(lia)). lia.
Qed.

(** [word] was written from [(row, col)] in direction [d]. *)
Definition vite_cells (word : jsstring) (where_ : Vite.Direction * nat * nat)
  : list (nat * nat * code_unit) :=
  vite_laid where_.1.1 where_.1.2 where_.2 0 word.

Lemma vite_placeWord_spec n g word :
  square Vite.gridSize g → length word ≤ Vite.gridSize →
  returns (Vite.placeWord n g word) (λ res,
    square Vite.gridSize res.1 ∧ extends id g res.1
    ∧ match res.2 with
      | Some where_ =>
          vite_fits where_.1.1 where_.1.2 where_.2 word
          ∧ placeable id Vite.gridSize g (vite_cells word where_)
          ∧ agrees id res.1 (vite_cells word where_)
      | None => res.1 = g
      end).
Proof.
  intros Hsq Hlen. induction n as [|n IH]; cbn [Vite.placeWord].
  - apply returns_rret. split; [done|]. split; [apply extends_refl|done].
  - apply returns_random_bind. intros x.
    apply returns_random_bind. intros y. apply returns_random_bind. intros z.
    set (d := if gt_half x then Vite.horizontal else Vite.vertical).
    assert (∃ row col,
              match d with
              | Vite.horizontal => Some (floor_times y Vite.gridSize)
              | Vite.vertical => Vite.shortIndex y word
              end = Some row
              ∧ match d with
                | Vite.horizontal => Vite.shortIndex z word
                | Vite.vertical => Some (floor_times z Vite.gridSize)
                end = Some col
              ∧ vite_fits d row col word) as (row & col & Hrow & Hcol & Hfit).
    { destruct d; cbn [vite_fits].
      - destruct (shortIndex_fits z word Hlen) as (col & Hcol & Hc).
        exists (floor_times y Vite.gridSize), col. split; [done|]. split; [done|].
        split; [|done]. apply floor_times_lt. unfold Vite.gridSize. lia.
      - destruct (shortIndex_fits y word Hlen) as (row & Hrow & Hr).
        exists row, (floor_times z Vite.gridSize). split; [done|]. split; [done|].
        split; [done|]. apply floor_times_lt. unfold Vite.gridSize. lia. }
    apply (returns_lift_bind _ row); [done|]. apply (returns_lift_bind _ col); [done|].
    destruct (canPlace_spec g d row col 0 word Hsq) as [[Hcan Hpl]|[Hcan Hpl]].
    { intros k Hk. apply (vite_fits_cells d row col word); [done|lia]. }
    + apply (returns_lift_bind _ true); [done|].
      destruct (write_all_spec id Vite.gridSize Some g (vite_laid d row col 0 word)
                  ltac:(done) Hsq Hpl (vite_laid_NoDup _ _ _ _ _))
        as (g' & Hwrite & Hsq' & Hext & Hag & _).
      rewrite <- writeWord_write_all in Hwrite.
      apply (returns_lift_bind _ g'); [done|].
      apply returns_rret. cbn [fst snd]. done.
    + apply (returns_lift_bind _ false); [done|]. exact IH.
Qed.

(** Every recorded word fits on the grid and the grid shows it. *)
Definition vite_recorded {A} (chr : A → option code_unit) (g : list (list A))
    (history : list (jsstring * (Vite.Direction * nat * nat))) : Prop :=
  Forall (λ h, vite_fits h.2.1.1 h.2.1.2 h.2.2 h.1 ∧ agrees chr g (vite_cells h.1 h.2))
         history.

Lemma vite_placeWords_spec ws g history :
  square Vite.gridSize g → Forall (λ w, length w ≤ Vite.gridSize) ws →
  vite_recorded id g history →
  returns (Vite.placeWords ws g history) (λ res,
    square Vite.gridSize res.1 ∧ extends id g res.1 ∧ vite_recorded id res.1 res.2
    ∧ ∃ added, res.2.*1 = history.*1 ++ added ∧ added `sublist_of` ws).
Proof.
  revert g history.
  induction ws as [|word ws IH]; intros g history Hsq Hlen Hrec; cbn [Vite.placeWords].
  - apply returns_rret. cbn [fst snd]. split; [done|]. split; [apply extends_refl|].
    split; [done|]. exists []. by rewrite app_nil_r.
  - apply Forall_cons in Hlen as [Hword Hlen].
    eapply returns_rbind; [by apply vite_placeWord_spec|].
    intros [g1 [where_|]]; cbn [fst snd].
    + intros (Hsq1 & Hext1 & Hfit & _ & Hag).
      eapply returns_weaken.
      * apply (IH g1 (history ++ [(word, where_)])); [done|done|].
        apply Forall_app. split.
        -- eapply Forall_impl; [exact Hrec|]. intros h [? ?].
           split; [done|]. by eapply agrees_extends.
        -- apply Forall_singleton. by split.
      * intros [g2 h2]; cbn [fst snd].
        intros (Hsq2 & Hext2 & Hrec2 & added & Hadd & Hsub).
        split; [done|]. split; [by eapply extends_trans|]. split; [done|].
        exists (word :: added). split; [by rewrite Hadd, fmap_app, <- app_assoc|].
        by apply sublist_skip.
    + intros (Hsq1 & _ & ->).
      eapply returns_weaken; [by apply (IH g history)|].
      intros [g2 h2]; cbn [fst snd].
      intros (Hsq2 & Hext2 & Hrec2 & added & Hadd & Hsub).
      split; [done|]. split; [done|]. split; [done|].
      exists added. split; [done|]. by apply sublist_cons.
Qed.

Lemma returns_rand_map {A B} (f : A → Rand B) (P : A → B → Prop) l :
  (∀ x, x ∈ l → returns (f x) (P x)) → returns (rand_map f l) (Forall2 P l).
Proof.
  induction l as [|x l IH]; intros Hf; cbn [rand_map].
  - apply returns_rret. apply Forall2_nil_2.
  - eapply returns_rbind; [apply Hf, elem_of_cons; by left|]. intros y Hy.
    eapply returns_rbind; [apply IH; intros x' Hx'; apply Hf, elem_of_cons; by right|].
    intros ys Hys. apply returns_rret. by apply Forall2_cons.
Qed.

(** What the filler makes of a cell: a written character stays, an empty cell
    receives a letter of the alphabet other than the glottal stop. *)
Definition vite_filled (cell : option code_unit) (ch : code_unit) : Prop :=
  match cell with
  | Some x => ch = x
  | None => ch ∈ ALPHABET ∧ ch ≠ glottal_stop
  end.

Lemma ALPHABET_before_last i ch :
  i < length ALPHABET - 1 → ALPHABET !! i = Some ch → ch ∈ ALPHABET ∧ ch ≠ glottal_stop.
Proof.
  intros Hi Hch. split; [by eapply list_elem_of_lookup_2|].
  cbn in Hi. do 15 (destruct i as [|i]; [injection Hch as <-; done|]). lia.
Qed.

Lemma vite_fillCell_spec cell : returns (Vite.fillCell cell) (vite_filled cell).
Proof.
  destruct cell as [x|]; cbn [Vite.fillCell]; [by apply returns_rret|].
  apply returns_random_bind. intros x.
  pose proof (floor_times_lt x (length ALPHABET - 1) ltac:(cbn; lia)) as Hlt.
  destruct (lookup_lt_is_Some_2 ALPHABET (floor_times x (length ALPHABET - 1))
              ltac:(cbn in *; lia)) as [ch Hch].
  apply (returns_lift _ ch); [done|]. by eapply ALPHABET_before_last.
Qed.

Lemma vite_finalGrid_spec g :
  returns (Vite.finalGrid g) (Forall2 (Forall2 vite_filled) g).
Proof.
  apply returns_rand_map. intros row _. apply returns_rand_map. intros cell _.
  apply vite_fillCell_spec.
Qed.

Lemma Forall2_grid_get {A B} (P : A → B → Prop) g g' row col x :
  Forall2 (Forall2 P) g g' → grid_get g row col = Some x →
  ∃ y, grid_get g' row col = Some y ∧ P x y.
Proof.
  intros Hgg. unfold grid_get.
  destruct (g !! row) as [r|] eqn:Hr; [|done]. cbn [mbind option_bind]. intros Hx.
  destruct (Forall2_lookup_l _ _ _ _ _ Hgg Hr) as (r' & Hr' & Hrr).
  destruct (Forall2_lookup_l _ _ _ _ _ Hrr Hx) as (y & Hy & Hxy).
  exists y. rewrite Hr'. done.
Qed.

Lemma Forall2_square {A B} (P : A → B → Prop) n g g' :
  Forall2 (Forall2 P) g g' → square n g → square n g'.
Proof.
  intros Hgg [Hlen Hrows]. split; [by rewrite <- (Forall2_length _ _ _ Hgg)|].
  apply Forall_lookup. intros i r' Hr'.
  destruct (Forall2_lookup_r _ _ _ _ _ Hgg Hr') as (r & Hr & Hrr).
  rewrite <- (Forall2_length _ _ _ Hrr). rewrite Forall_lookup in Hrows. by eapply Hrows.
Qed.

(** A final grid of side [gridSize]: every cell holds a character. *)
Definition vite_full (g : list (list code_unit)) : Prop :=
  square Vite.gridSize g
  ∧ ∀ row col, row < Vite.gridSize → col < Vite.gridSize →
      ∃ ch, grid_get g row col = Some ch.

Lemma vite_pack_spec chosen :
  Forall (λ w, length w ≤ Vite.gridSize) chosen →
  returns (Vite.pack chosen) (λ res,
    square Vite.gridSize res.1.1
    ∧ Forall2 (Forall2 vite_filled) res.1.1 res.1.2
    ∧ vite_full res.1.2
    ∧ vite_recorded id res.1.1 res.2 ∧ vite_recorded Some res.1.2 res.2
    ∧ res.2.*1 `sublist_of` chosen).
Proof.
  intros Hlen. unfold Vite.pack.
  eapply returns_rbind.
  - apply (vite_placeWords_spec chosen Vite.emptyGrid []); [|done|by apply Forall_nil].
    apply square_replicate.
  - intros [g h]; cbn [fst snd]. intros (Hsq & _ & Hrec & added & Hadd & Hsub).
    eapply returns_rbind; [apply vite_finalGrid_spec|].
    intros final Hfinal. apply returns_rret. cbn [fst snd].
    assert (Hsq' : square Vite.gridSize final) by (by eapply Forall2_square).
    split; [done|]. split; [done|]. split; [|split; [done|split]].
    + split; [done|]. intros row col Hrow Hcol.
      by apply (grid_get_square Vite.gridSize).
    + eapply Forall_impl; [exact Hrec|]. intros [w where_] [Hfit Hag]. split; [done|].
      eapply Forall_impl; [exact Hag|]. intros p (cell & Hcell & Hch).
      destruct (Forall2_grid_get _ _ _ _ _ _ Hfinal Hcell) as (y & Hy & Hxy).
      unfold id in Hch. subst cell. cbn in Hxy. subst y. by exists p.2.
    + by rewrite Hadd.
Qed.

(** ** The shuffle *)

Lemma dedup_subset seen l x : x ∈ Vite.dedup seen l → x ∈ l.
Proof.
  revert seen. induction l as [|y l IH]; intros seen; cbn [Vite.dedup]; [done|].
  destruct (includes seen y).
  - intros Hx. apply elem_of_cons. right. by eapply IH.
  - intros [->|Hx]%elem_of_cons; apply elem_of_cons; [by left|right; by eapply IH].
Qed.

(** Upper-casing never shortens a string (it lengthens the three letters
    that map to two code units). *)
Lemma length_toUpperCase_unit c : 1 ≤ length (toUpperCase_unit c).
Proof. unfold toUpperCase_unit. repeat case_match; cbn; lia. Qed.

Lemma length_toUpperCase s : length s ≤ length (toUpperCase s).
Proof.
  unfold toUpperCase. induction s as [|c s IH]; [done|]. cbn [flat_map length].
  rewrite length_app. pose proof (length_toUpperCase_unit c). lia.
Qed.

Section Shuffled.
Variable shuffle : ∀ A : Type, list A → list A.
(** Sorting an array rearranges it. *)
Hypothesis shuffle_perm : ∀ (A : Type) (l : list A), shuffle A l ≡ₚ l.

Lemma chosenWords_eligible dictionary w :
  w ∈ Vite.chosenWords shuffle dictionary → Vite.eligible w = true.
Proof.
  unfold Vite.chosenWords. intros Hw%elem_of_take.
  destruct Hw as (i & Hi%list_elem_of_lookup_2 & _).
  rewrite shuffle_perm in Hi. apply dedup_subset in Hi.
  unfold Vite.availableWords in Hi. by apply list_elem_of_filter in Hi as [? _].
Qed.

Lemma chosenWords_lengths dictionary :
  Forall (λ w, 2 < length w ≤ Vite.gridSize) (Vite.chosenWords shuffle dictionary).
Proof.
  apply Forall_forall. intros w Hw%chosenWords_eligible.
  unfold Vite.eligible in Hw. rewrite !andb_true_iff in Hw.
  destruct Hw as [[[Hle%Nat.leb_le Hlt%Nat.ltb_lt] _] _]. lia.
Qed.

Lemma length_chosenWords dictionary :
  length (Vite.chosenWords shuffle dictionary)
  = Nat.min Vite.NUM_WORDS (length (Vite.dedup [] (Vite.availableWords dictionary))).
Proof. unfold Vite.chosenWords. by rewrite length_take, shuffle_perm. Qed.

Lemma wordsToPlace_lengths dictionary :
  Forall (λ w, 2 < length w) (Index.wordsToPlace shuffle dictionary).
Proof.
  apply Forall_forall. intros w (e & -> & He)%list_elem_of_fmap.
  apply elem_of_take in He as (i & Hi%list_elem_of_lookup_2 & _).
  rewrite shuffle_perm in Hi. unfold Index.wordPool in Hi.
  apply list_elem_of_filter in Hi as [Hel _]. unfold Index.eligible in Hel.
  rewrite !andb_true_iff in Hel. destruct Hel as [[Hle%Nat.leb_le Hlt%Nat.ltb_lt] _].
  pose proof (length_toUpperCase (faka_uvea e)). lia.
Qed.
End Shuffled.

(** ** Packing: the claims *)


(** A placement of [word] that the grid shows: from some start cell, along one
    of the three directions, the cells read the characters of the word. *)
Definition index_readable (g : list (list Index.GridCell)) (word : jsstring) : Prop :=
  ∃ startRow startCol dir,
    dir ∈ Index.directions
    ∧ ∀ j ch, word !! j = Some ch →
        holds Index.char g (startRow + j * Index.r dir) (startCol + j * Index.c dir) ch.

Lemma index_recorded_readable g history word :
  index_recorded g history → word ∈ history.*1 → index_readable g word.
Proof.
  intros Hrec (h & -> & Hh)%list_elem_of_fmap.
  unfold index_recorded in Hrec. rewrite Forall_forall in Hrec.
  destruct (Hrec h Hh) as [(sr & sc & dir & Hdir & Hcells) Hag].
  exists sr, sc, dir. split; [done|]. intros j ch Hj.
  unfold agrees in Hag. rewrite Forall_forall in Hag.
  apply (Hag (sr + j * Index.r dir, sc + j * Index.c dir, ch)).
  rewrite Hcells. by apply (index_laid_lookup sr sc dir 0).
Qed.

(** With a pool of [NUM_WORDS] words or more, [generateNewGame] returns a full
    grid on which every word of the win set can be read, the win set being
    the words that were placed. *)
Lemma index_generateNewGame_large shuffle dictionary st rnd k :
  Index.NUM_WORDS ≤ length (Index.wordPool dictionary) →
  ∃ st' k', Index.generateNewGame shuffle dictionary st rnd k = Some (st', k')
    ∧ index_full (Index.grid st')
    ∧ (∀ w, w ∈ Index.words st' → index_readable (Index.grid st') w)
    ∧ Index.words st' `sublist_of` Index.wordsToPlace shuffle dictionary
    ∧ Index.foundWords st' = [] ∧ Index.selection st' = [].
Proof.
  intros Hlarge. unfold Index.generateNewGame.
  replace (length (Index.wordPool dictionary) <? Index.NUM_WORDS) with false
    by (symmetry; by apply Nat.ltb_ge).
  destruct (index_pack_spec shuffle dictionary rnd k)
    as ([[g pw] h] & k' & Hrun & Hfull & Hrec & Hpw & Hsub).
  cbn [fst snd] in *. unfold rbind. rewrite Hrun. eexists _, k'. split; [done|].
  cbn [Index.grid Index.words Index.foundWords Index.selection].
  split; [done|]. split; [|done]. intros w Hw. rewrite Hpw in Hw.
  by eapply index_recorded_readable.
Qed.

Lemma length_wordsToPlace shuffle dictionary :
  length (Index.wordsToPlace shuffle dictionary) ≤ Index.NUM_WORDS.
Proof. unfold Index.wordsToPlace. rewrite length_fmap, length_take. lia. Qed.

(** C9. At most [K] words are selected from the filtered pool ([NUM_WORDS]: 6
    in index.tsx, 8 in vite.config.ts); in every packing run the placed words
    number between 0 and [K], and each of them is one of the selected words. *)
Theorem placed_words_bounded (shuffle : ∀ A : Type, list A → list A)
    (dictionary : list DictionaryEntry) (rnd : nat → unit_value) (k : nat) :
  (∀ (A : Type) (l : list A), shuffle A l ≡ₚ l) →
  length (Index.wordsToPlace shuffle dictionary) ≤ Index.NUM_WORDS
  ∧ length (Vite.chosenWords shuffle dictionary) ≤ Vite.NUM_WORDS
  ∧ (∃ g placedWords history k',
       Index.pack shuffle dictionary rnd k = Some (g, placedWords, history, k')
       ∧ 0 ≤ length placedWords ≤ Index.NUM_WORDS
       ∧ ∀ w, w ∈ placedWords → w ∈ Index.wordsToPlace shuffle dictionary)
  ∧ (∃ newGrid final history k',
       Vite.pack (Vite.chosenWords shuffle dictionary) rnd k
       = Some (newGrid, final, history, k')
       ∧ 0 ≤ length history.*1 ≤ Vite.NUM_WORDS
       ∧ ∀ w, w ∈ history.*1 → w ∈ Vite.chosenWords shuffle dictionary).
Proof.
  intros Hperm. split; [apply length_wordsToPlace|].
  split; [rewrite (length_chosenWords _ Hperm); lia|]. split.
  - destruct (index_pack_spec shuffle dictionary rnd k)
      as ([[g pw] h] & k' & Hrun & _ & _ & _ & Hsub).
    cbn [fst snd] in *. exists g, pw, h, k'. split; [done|]. split.
    + apply sublist_length in Hsub. pose proof (length_wordsToPlace shuffle dictionary). lia.
    + intros w Hw. by eapply elem_of_sublist.
  - destruct (vite_pack_spec (Vite.chosenWords shuffle dictionary)) with (rnd := rnd) (k := k)
      as ([[g final] h] & k' & Hrun & _ & _ & _ & _ & _ & Hsub).
    { eapply Forall_impl; [by apply chosenWords_lengths|]. intros w ?. cbn in *. lia. }
    cbn [fst snd] in *. exists g, final, h, k'. split; [done|]. split.
    + apply sublist_length in Hsub. rewrite (length_chosenWords _ Hperm) in Hsub. lia.
    + intros w Hw. by eapply elem_of_sublist.
Qed.

(** Fixtures: a six-word vocabulary, the shuffle that keeps the order, and two
    random sources. *)
Definition entry (s : string) : DictionaryEntry := {| faka_uvea := str s; french := [] |}.

Definition six_words : list DictionaryEntry :=
  [entry "tau"; entry "uat"; entry "alofa"; entry "aliki"; entry "api"; entry "afo"].

Definition keep : ∀ A : Type, list A → list A := λ _ l, l.

Definition zero : unit_value := {| num := 0; gap := 0 |}.

(** Word number [i] is laid left to right at the start of row [i]: the draws
    of a word are [0] (first direction), [i/12] (row [i]) and [0] (column 0). *)
Definition by_rows (k : nat) : unit_value :=
  if k mod 3 =? 1 then {| num := k / 3; gap := 11 - k / 3 |} else zero.

Lemma keep_perm : ∀ (A : Type) (l : list A), keep A l ≡ₚ l.
Proof. done. Qed.

Lemma placed_words_bounded_witness :
  length (Index.wordsToPlace keep six_words) ≤ Index.NUM_WORDS
  ∧ length (Vite.chosenWords keep six_words) ≤ Vite.NUM_WORDS
  ∧ (∃ g placedWords history k',
       Index.pack keep six_words by_rows 0 = Some (g, placedWords, history, k')
       ∧ 0 ≤ length placedWords ≤ Index.NUM_WORDS
       ∧ ∀ w, w ∈ placedWords → w ∈ Index.wordsToPlace keep six_words)
  ∧ (∃ newGrid final history k',
       Vite.pack (Vite.chosenWords keep six_words) by_rows 0
       = Some (newGrid, final, history, k')
       ∧ 0 ≤ length history.*1 ≤ Vite.NUM_WORDS
       ∧ ∀ w, w ∈ history.*1 → w ∈ Vite.chosenWords keep six_words).
Proof. apply (placed_words_bounded keep six_words by_rows 0 keep_perm). Defined.

Lemma agrees_pairwise {A} (chr : A → option code_unit) g cells1 cells2 row col ch1 ch2 :
  agrees chr g cells1 → agrees chr g cells2 →
  (row, col, ch1) ∈ cells1 → (row, col, ch2) ∈ cells2 →
  ch1 = ch2 ∧ holds chr g row col ch1.
Proof.
  unfold agrees. rewrite !Forall_forall. intros H1 H2 Hin1 Hin2.
  pose proof (H1 _ Hin1) as Hh1. pose proof (H2 _ Hin2) as Hh2. cbn [fst snd] in *.
  split; [by eapply holds_inj|done].
Qed.

(** C5. Both packers accept a placement only when every cell the word would
    occupy is on the grid and is empty or already holds the character wanted
    there; and in every run, whenever two placed words share a cell they
    want the same character there, the one the returned grid shows. *)
Theorem placements_never_conflict (shuffle : ∀ A : Type, list A → list A)
    (dictionary : list DictionaryEntry) (rnd : nat → unit_value) (k : nat) :
  (∀ (A : Type) (l : list A), shuffle A l ≡ₚ l) →
  (∀ g startRow startCol dir word,
     square Index.GRID_SIZE g →
     Index.collectCells g startRow startCol dir 0 word
     = Some (Some (index_laid startRow startCol dir 0 word))
     ↔ placeable Index.char Index.GRID_SIZE g (index_laid startRow startCol dir 0 word))
  ∧ (∀ g d row col word,
       square Vite.gridSize g → vite_fits d row col word →
       Vite.canPlace g d row col 0 word = Some true
       ↔ placeable id Vite.gridSize g (vite_laid d row col 0 word))
  ∧ (∃ g placedWords history k',
       Index.pack shuffle dictionary rnd k = Some (g, placedWords, history, k')
       ∧ placedWords = history.*1
       ∧ Forall (λ h, index_placement h.1 h.2) history
       ∧ ∀ h1 h2 row col ch1 ch2,
           h1 ∈ history → h2 ∈ history →
           (row, col, ch1) ∈ h1.2 → (row, col, ch2) ∈ h2.2 →
           ch1 = ch2 ∧ holds Index.char g row col ch1)
  ∧ (∃ newGrid final history k',
       Vite.pack (Vite.chosenWords shuffle dictionary) rnd k
       = Some (newGrid, final, history, k')
       ∧ ∀ h1 h2 row col ch1 ch2,
           h1 ∈ history → h2 ∈ history →
           (row, col, ch1) ∈ vite_cells h1.1 h1.2 → (row, col, ch2) ∈ vite_cells h2.1 h2.2 →
           ch1 = ch2 ∧ grid_get final row col = Some ch1).
Proof.
  intros Hperm. split; [|split; [|split]].
  - intros g sr sc dir word Hsq.
    destruct (collectCells_spec g sr sc dir 0 word Hsq) as [[Hrun Hpl]|[Hrun Hpl]].
    + by split.
    + split; [congruence|done].
  - intros g d row col word Hsq Hfit.
    destruct (canPlace_spec g d row col 0 word Hsq) as [[Hrun Hpl]|[Hrun Hpl]].
    { intros i Hi. apply (vite_fits_cells d row col word); [done|lia]. }
    + by split.
    + split; [congruence|done].
  - destruct (index_pack_spec shuffle dictionary rnd k)
      as ([[g pw] h] & k' & Hrun & _ & Hrec & Hpw & _).
    cbn [fst snd] in *. exists g, pw, h, k'. split; [done|]. split; [done|].
    unfold index_recorded in Hrec. split.
    + eapply Forall_impl; [exact Hrec|]. by intros ? [? _].
    + rewrite Forall_forall in Hrec. intros h1 h2 row col ch1 ch2 Hh1 Hh2.
      apply agrees_pairwise; [by apply Hrec|by apply Hrec].
  - destruct (vite_pack_spec (Vite.chosenWords shuffle dictionary)) with (rnd := rnd) (k := k)
      as ([[g final] h] & k' & Hrun & _ & _ & _ & _ & Hrec & _).
    { eapply Forall_impl; [by apply chosenWords_lengths|]. intros w ?. cbn in *. lia. }
    cbn [fst snd] in *. exists g, final, h, k'. split; [done|].
    unfold vite_recorded in Hrec. rewrite Forall_forall in Hrec.
    intros h1 h2 row col ch1 ch2 Hh1 Hh2 Hin1 Hin2.
    destruct (agrees_pairwise Some final _ _ row col ch1 ch2
                (proj2 (Hrec h1 Hh1)) (proj2 (Hrec h2 Hh2)) Hin1 Hin2)
      as [Heq (cell & Hcell & [= ->])].
    done.
Qed.

Lemma placements_never_conflict_witness :
  ∃ g placedWords history k',
    Index.pack keep six_words by_rows 0 = Some (g, placedWords, history, k')
    ∧ placedWords = history.*1
    ∧ Forall (λ h, index_placement h.1 h.2) history
    ∧ ∀ h1 h2 row col ch1 ch2,
        h1 ∈ history → h2 ∈ history →
        (row, col, ch1) ∈ h1.2 → (row, col, ch2) ∈ h2.2 →
        ch1 = ch2 ∧ holds Index.char g row col ch1.
Proof.
  exact (proj1 (proj2 (proj2 (placements_never_conflict keep six_words by_rows 0 keep_perm)))).
Defined.

Lemma vite_setupGame_spec shuffle dictionary st rnd k :
  (∀ (A : Type) (l : list A), shuffle A l ≡ₚ l) →
  ∃ st' k', Vite.setupGame shuffle dictionary st rnd k = Some (st', k')
    ∧ vite_full (Vite.grid st')
    ∧ Vite.words st' = Vite.chosenWords shuffle dictionary
    ∧ Vite.foundWords st' = [].
Proof.
  intros Hperm. unfold Vite.setupGame.
  destruct (vite_pack_spec (Vite.chosenWords shuffle dictionary)) with (rnd := rnd) (k := k)
    as ([[g final] h] & k' & Hrun & _ & _ & Hfull & _).
  { eapply Forall_impl; [by apply chosenWords_lengths|]. intros w ?. cbn in *. lia. }
  cbn [fst snd] in *. unfold rbind. rewrite Hrun. by eexists _, k'.
Qed.

(** The win sets the packers publish hold words of more than two
    characters. *)
Lemma packed_win_sets_long shuffle dictionary rnd k :
  (∀ (A : Type) (l : list A), shuffle A l ≡ₚ l) →
  (∀ st st' k', Index.NUM_WORDS ≤ length (Index.wordPool dictionary) →
     Index.generateNewGame shuffle dictionary st rnd k = Some (st', k') →
     Forall (λ w, 2 < length w) (Index.words st'))
  ∧ (∀ st st' k',
       Vite.setupGame shuffle dictionary st rnd k = Some (st', k') →
       Forall (λ w, 2 < length w) (Vite.words st')).
Proof.
  intros Hperm. split.
  - intros st st' k' Hlarge Hrun.
    destruct (index_generateNewGame_large shuffle dictionary st rnd k Hlarge)
      as (st2 & k2 & Hrun2 & _ & _ & Hsub & _).
    rewrite Hrun in Hrun2. injection Hrun2 as <- <-.
    apply Forall_forall. intros w Hw.
    pose proof (wordsToPlace_lengths shuffle Hperm dictionary) as Hlen.
    rewrite Forall_forall in Hlen. apply (elem_of_sublist _ _ _ Hw) in Hsub.
    apply Hlen in Hsub. lia.
  - intros st st' k' Hrun.
    destruct (vite_setupGame_spec shuffle dictionary st rnd k Hperm)
      as (st2 & k2 & Hrun2 & _ & Hwords & _).
    rewrite Hrun in Hrun2. injection Hrun2 as <- <-. rewrite Hwords.
    eapply Forall_impl; [by apply chosenWords_lengths|]. intros w ?. cbn in *. lia.
Qed.






(** In [setupGame] every word that was written can be read on the final
    grid from its start cell, in its direction. *)
Lemma vite_placed_words_readable chosen rnd k :
  Forall (λ w, length w ≤ Vite.gridSize) chosen →
  ∃ newGrid final history k',
    Vite.pack chosen rnd k = Some (newGrid, final, history, k')
    ∧ ∀ word d row col, (word, (d, row, col)) ∈ history →
        ∀ i ch, word !! i = Some ch →
          grid_get final (Vite.cellAt d row col i).1 (Vite.cellAt d row col i).2 = Some ch.
Proof.
  intros Hlen.
  destruct (vite_pack_spec chosen Hlen rnd k)
    as ([[g final] h] & k' & Hrun & _ & _ & _ & _ & Hrec & _).
  cbn [fst snd] in *. exists g, final, h, k'. split; [done|].
  intros word d row col Hin i ch Hi.
  unfold vite_recorded in Hrec. rewrite Forall_forall in Hrec.
  destruct (Hrec _ Hin) as [_ Hag]. unfold agrees in Hag. rewrite Forall_forall in Hag.
  pose proof (vite_laid_lookup d row col 0 word i ch Hi) as Hcell.
  destruct (Hag _ Hcell) as (cell & Hget & [= ->]). done.
Qed.

Definition two_words : list DictionaryEntry := [entry "abc"; entry "xyz"].

(** C1, on [setupGame]: with the vocabulary "abc", "xyz" and a random source
    that always draws 0, "ABC" is written down the first column and each of
    the 50 attempts for "XYZ" meets it; "XYZ" is never written, the grid holds
    no "X" at all, and yet "XYZ" is in the win set. *)
Theorem setupGame_keeps_unplaced_word :
  ∃ st newGrid history k,
    Vite.setupGame keep two_words Vite.initialState (λ _, zero) 0 = Some (st, k)
    ∧ Vite.pack (Vite.chosenWords keep two_words) (λ _, zero) 0
      = Some (newGrid, Vite.grid st, history, k)
    ∧ history = [(str "ABC", (Vite.vertical, 0, 0))]
    ∧ Vite.words st = [str "ABC"; str "XYZ"]
    ∧ forallb (λ row, negb (includes_char row (code "X"))) (Vite.grid st) = true.
Proof.
  eexists _, _, _, _. split; [vm_compute; reflexivity|].
  split; [vm_compute; reflexivity|]. split; [reflexivity|].
  split; [reflexivity|]. vm_compute. reflexivity.
Qed.

(** C4, on [generateNewGame]: with six words laid on the first six rows, the
    filler of index.tsx draws from the whole of [ALPHABET] and puts the
    glottal stop in cell (3, 8), which no word occupies. *)
Theorem generateNewGame_fills_glottal_stop :
  ∃ st k,
    Index.generateNewGame keep six_words Index.initialState by_rows 0 = Some (st, k)
    ∧ Index.words st
      = [str "TAU"; str "UAT"; str "ALOFA"; str "ALIKI"; str "API"; str "AFO"]
    ∧ grid_get (Index.grid st) 3 8
      = Some {| Index.char := Some glottal_stop; Index.wordRef := None |}.
Proof.
  eexists _, _. split; [vm_compute; reflexivity|].
  split; [reflexivity|]. reflexivity.
Qed.

(** In [setupGame] a cell that no word occupies receives a letter other than
    the glottal stop. *)
Lemma vite_filler_excludes_glottal_stop chosen rnd k :
  Forall (λ w, length w ≤ Vite.gridSize) chosen →
  ∃ newGrid final history k',
    Vite.pack chosen rnd k = Some (newGrid, final, history, k')
    ∧ ∀ row col, grid_get newGrid row col = Some None →
        ∃ ch, grid_get final row col = Some ch ∧ ch ∈ ALPHABET ∧ ch ≠ glottal_stop.
Proof.
  intros Hlen.
  destruct (vite_pack_spec chosen Hlen rnd k)
    as ([[g final] h] & k' & Hrun & _ & Hfill & _).
  cbn [fst snd] in *. exists g, final, h, k'. split; [done|].
  intros row col Hempty.
  destruct (Forall2_grid_get _ _ _ _ _ _ Hfill Hempty) as (ch & Hch & Hfilled).
  by exists ch.
Qed.

(** ** Selection matching: fixtures *)

Definition TAU : jsstring := str "TAU".

(** The selection that a press on cell (0, 0) and a drag to cell (0, 2)
    build. *)
Definition first_three : list Index.Position :=
  [ {| Index.r := 0; Index.c := 0 |}; {| Index.r := 0; Index.c := 1 |};
    {| Index.r := 0; Index.c := 2 |} ].

Definition index_select (st : Index.GameState) (sel : list Index.Position)
  : Index.GameState :=
  {| Index.grid := Index.grid st; Index.words := Index.words st;
     Index.foundWords := Index.foundWords st; Index.selection := sel |}.


(** The game packed from [six_words], with "TAU" on the first row and "UAT"
    on the second, and the same after the first row has been selected once and
    twice. *)
Definition index_packed : Index.GameState :=
  match Index.generateNewGame keep six_words Index.initialState by_rows 0 with
  | Some (st, _) => st
  | None => Index.initialState
  end.



(** The game [setupGame] packs from "tau" and "uat": "TAU" down the first
    column, "UAT" down the second. *)
Definition vite_packed : Vite.GameState :=
  match Vite.setupGame keep [entry "tau"; entry "uat"] Vite.initialState
          (λ k, if k <? 3 then zero else {| num := 1; gap := 10 |}) 0 with
  | Some (st, _) => st
  | None => Vite.initialState
  end.













(** * Further properties of the code *)

(** ** The distance: least number of edits, zero, and the lengths *)

Lemma dist_rec_zero s t : dist_rec s t = 0 ↔ s = t.
Proof.
  split; [|intros ->; apply dist_rec_refl].
  revert t. induction s as [|a s IH]; intros [|b t].
  - done.
  - rewrite dist_rec_nil_l. done.
  - rewrite dist_rec_nil_r. done.
  - rewrite dist_rec_cons. destruct (N.eqb a b) eqn:Hab; [|lia].
    apply N.eqb_eq in Hab. intros Hd. by rewrite Hab, (IH t Hd).
Qed.

Lemma dist_rec_bounds s t :
  length s - length t ≤ dist_rec s t
  ∧ length t - length s ≤ dist_rec s t
  ∧ dist_rec s t ≤ Nat.max (length s) (length t).
Proof.
  revert t. induction s as [|a s IHs]; intros t.
  - rewrite dist_rec_nil_l. cbn [length]. lia.
  - induction t as [|b t IHt].
    + rewrite dist_rec_nil_r. cbn [length]. lia.
    + rewrite dist_rec_cons. cbn [length].
      pose proof (IHs t). pose proof (IHs (b :: t)) as Hup. cbn [length] in *.
      destruct (N.eqb a b); lia.
Qed.

(** X1. [levenshteinDistance] always returns a number, and that number is the
    least number of insertions, deletions and substitutions of one code unit
    that turn the first string, lower-cased, into the second, lower-cased.  It
    is 0 exactly on strings that are equal once lower-cased, at least the
    difference of the lengths of the lower-cased strings and at most the
    greater of these lengths. *)
Theorem levenshteinDistance_least_edits (a b : jsstring) :
  ∃ n, Lev.levenshteinDistance a b = Some n
    ∧ edits (toLowerCase a) (toLowerCase b) n
    ∧ (∀ m, edits (toLowerCase a) (toLowerCase b) m → n ≤ m)
    ∧ (n = 0 ↔ toLowerCase a = toLowerCase b)
    ∧ length (toLowerCase a) - length (toLowerCase b) ≤ n
    ∧ length (toLowerCase b) - length (toLowerCase a) ≤ n
    ∧ n ≤ Nat.max (length (toLowerCase a)) (length (toLowerCase b)).
Proof.
  eexists. split; [apply levenshteinDistance_dist_rec|].
  split; [apply edits_dist_rec|]. split; [apply dist_rec_le_edits|].
  split; [apply dist_rec_zero|]. apply dist_rec_bounds.
Qed.

(** X2. None of the three suggestion routines ever offers a headword whose
    length, lower-cased, differs from the length of the query, lower-cased,
    by 4 or more. *)
Theorem suggestion_length_close (searchTerm : jsstring)
    (filtered dictionary : list DictionaryEntry) :
  (∀ e, Index.getSuggestion searchTerm filtered dictionary = Some e →
        length (toLowerCase (faka_uvea e)) - length (toLowerCase searchTerm) ≤ 3
        ∧ length (toLowerCase searchTerm) - length (toLowerCase (faka_uvea e)) ≤ 3)
  ∧ (∀ e, Vite.suggestedEntry searchTerm filtered dictionary = Some e →
          length (toLowerCase (faka_uvea e)) - length (toLowerCase searchTerm) ≤ 3
          ∧ length (toLowerCase searchTerm) - length (toLowerCase (faka_uvea e)) ≤ 3)
  ∧ (∀ w, Third.suggestion searchTerm filtered dictionary = Some w →
          length (toLowerCase w) - length (toLowerCase searchTerm) ≤ 3
          ∧ length (toLowerCase searchTerm) - length (toLowerCase w) ≤ 3).
Proof.
  assert (Hclose : ∀ i e, first_closest searchTerm dictionary i e →
            length (toLowerCase (faka_uvea e)) - length (toLowerCase searchTerm) ≤ 3
            ∧ length (toLowerCase searchTerm) - length (toLowerCase (faka_uvea e)) ≤ 3).
  { intros i e (_ & Hle & _). unfold distance, case_insensitive_distance in Hle.
    pose proof (dist_rec_bounds (toLowerCase searchTerm) (toLowerCase (faka_uvea e))).
    lia. }
  pose proof (scanned_first_closest searchTerm dictionary _ (scanned_all searchTerm dictionary))
    as Hres.
  pose proof (third_fold_index searchTerm dictionary (Infinity, None) (Num 4, None)
                ltac:(by split)) as Hthird.
  unfold third_matches in Hthird.
  split; [|split].
  - intros e. unfold Index.getSuggestion.
    destruct ((2 <? length searchTerm) && (length filtered =? 0)); [|done].
    intros He. rewrite He in Hres. destruct Hres as [i Hi]. by eapply Hclose.
  - intros e. unfold Vite.suggestedEntry.
    destruct ((length filtered =? 0) && (2 <? length searchTerm)); [|done].
    rewrite vite_fold_index. intros He. rewrite He in Hres. destruct Hres as [i Hi].
    by eapply Hclose.
  - intros w. unfold Third.suggestion.
    destruct ((length filtered =? 0) && (2 <? length searchTerm)); [|done].
    destruct (fold_left (Index.suggestion_step searchTerm) dictionary (Infinity, None)).2
      as [e|]; destruct Hthird as [_ ->]; cbn [snd]; [|done].
    intros [= <-]. destruct Hres as [i Hi]. by eapply Hclose.
Qed.

(** ** index.tsx: the mouse handlers of the word search *)

Module IndexMouse.

(** The game state with the [isSelecting] reference. *)
Record Pointer := { isSelecting : bool; game : Index.GameState }.

Definition setSelection (st : Index.GameState) (sel : list Index.Position)
  : Index.GameState :=
  {| Index.grid := Index.grid st; Index.words := Index.words st;
     Index.foundWords := Index.foundWords st; Index.selection := sel |}.

(** [handleMouseDown] (index.tsx 1767-1770) *)
Definition handleMouseDown (r c : nat) (p : Pointer) : Pointer :=
  {| isSelecting := true;
     game := setSelection (game p) [ {| Index.r := r; Index.c := c |} ] |}.

(** The loop [while (true)] of [handleMouseEnter], allowed [fuel] rounds:
    [None] when it has not reached the [break] by then.  The coordinates
    pushed lie between the two ends, so none is negative. *)
Fixpoint walk (fuel : nat) (r c dr dc currR currC : Z) : option (list Index.Position) :=
  match fuel with
  | 0 => None
  | S fuel' =>
      let here := {| Index.r := Z.to_nat currR; Index.c := Z.to_nat currC |} in
      if ((currR =? r) && (currC =? c))%Z then Some [here]
      else option_map (cons here) (walk fuel' r c dr dc (currR + dr)%Z (currC + dc)%Z)
  end.

(** [handleMouseEnter] (index.tsx 1772-1790).  The loop is given one round
    more than the longer side of the rectangle between the two cells. *)
Definition handleMouseEnter (r c : nat) (p : Pointer) : option Pointer :=
  if negb (isSelecting p) || (length (Index.selection (game p)) =? 0) then Some p
  else
    match Index.selection (game p) with
    | [] => Some p
    | start :: _ =>
        let rowDiff := (Z.of_nat r - Z.of_nat (Index.r start))%Z in
        let colDiff := (Z.of_nat c - Z.of_nat (Index.c start))%Z in
        let dr := Z.sgn rowDiff in
        let dc := Z.sgn colDiff in
        if (Z.abs rowDiff =? Z.abs colDiff)%Z
           || (r =? Index.r start) || (c =? Index.c start)
        then
          newSelection ← walk (S (Z.to_nat (Z.max (Z.abs rowDiff) (Z.abs colDiff))))
                            (Z.of_nat r) (Z.of_nat c) dr dc
                            (Z.of_nat (Index.r start)) (Z.of_nat (Index.c start));
          Some {| isSelecting := isSelecting p;
                  game := setSelection (game p) newSelection |}
        else Some p
    end.

(** [handleMouseUp] with the reference it clears. *)
Definition handleMouseUp (p : Pointer) : option Pointer :=
  st ← Index.handleMouseUp (game p);
  Some {| isSelecting := false; game := st |}.

(** [isWon] (index.tsx 1811) *)
Definition isWon (st : Index.GameState) : bool :=
  (0 <? length (Index.words st))
  && (length (Index.foundWords st) =? length (Index.words st)).

End IndexMouse.

(** The cells from [start] to [(r, c)], both included, stepping by the signs
    of the two differences. *)
Definition segment (start : Index.Position) (r c : nat) : list Index.Position :=
  let rowDiff := (Z.of_nat r - Z.of_nat (Index.r start))%Z in
  let colDiff := (Z.of_nat c - Z.of_nat (Index.c start))%Z in
  (λ i, {| Index.r := Z.to_nat (Z.of_nat (Index.r start) + Z.of_nat i * Z.sgn rowDiff);
           Index.c := Z.to_nat (Z.of_nat (Index.c start) + Z.of_nat i * Z.sgn colDiff) |})
  <$> seq 0 (S (Z.to_nat (Z.max (Z.abs rowDiff) (Z.abs colDiff)))).

(** [(r, c)] is on the row, the column or a diagonal of [start]. *)
Definition aligned (start : Index.Position) (r c : nat) : Prop :=
  Z.abs (Z.of_nat r - Z.of_nat (Index.r start))
  = Z.abs (Z.of_nat c - Z.of_nat (Index.c start))
  ∨ r = Index.r start ∨ c = Index.c start.

Lemma aligned_test start r c :
  (Z.abs (Z.of_nat r - Z.of_nat (Index.r start))
   =? Z.abs (Z.of_nat c - Z.of_nat (Index.c start)))%Z
  || (r =? Index.r start) || (c =? Index.c start) = true ↔ aligned start r c.
Proof.
  unfold aligned. rewrite !orb_true_iff, Z.eqb_eq, !Nat.eqb_eq. tauto.
Qed.

Lemma walk_S fuel r c dr dc currR currC :
  IndexMouse.walk (S fuel) r c dr dc currR currC
  = let here := {| Index.r := Z.to_nat currR; Index.c := Z.to_nat currC |} in
    if ((currR =? r) && (currC =? c))%Z then Some [here]
    else option_map (cons here)
           (IndexMouse.walk fuel r c dr dc (currR + dr)%Z (currC + dc)%Z).
Proof. reflexivity. Qed.

Lemma walk_segment (sr sc r c : Z) (n k i : nat) :
  let rowDiff := (r - sr)%Z in
  let colDiff := (c - sc)%Z in
  (Z.abs rowDiff = Z.abs colDiff ∨ rowDiff = 0 ∨ colDiff = 0)%Z →
  Z.of_nat n = Z.max (Z.abs rowDiff) (Z.abs colDiff) →
  i + k = n →
  IndexMouse.walk (S k) r c (Z.sgn rowDiff) (Z.sgn colDiff)
    (sr + Z.of_nat i * Z.sgn rowDiff) (sc + Z.of_nat i * Z.sgn colDiff)
  = Some ((λ j, {| Index.r := Z.to_nat (sr + Z.of_nat j * Z.sgn rowDiff);
                   Index.c := Z.to_nat (sc + Z.of_nat j * Z.sgn colDiff) |})
          <$> seq i (S k)).
Proof.
  intros rowDiff colDiff Hal Hn. revert i. induction k as [|k IH]; intros i Hi.
  - rewrite walk_S. cbn zeta. cbn [seq fmap list_fmap].
    replace ((sr + Z.of_nat i * Z.sgn rowDiff =? r)%Z
             && (sc + Z.of_nat i * Z.sgn colDiff =? c)%Z) with true; [done|].
    symmetry. apply andb_true_iff. rewrite !Z.eqb_eq.
    destruct (Z.sgn_spec rowDiff) as [[? ->]|[[? ->]|[? ->]]],
             (Z.sgn_spec colDiff) as [[? ->]|[[? ->]|[? ->]]]; lia.
  - rewrite walk_S. cbn zeta.
    replace ((sr + Z.of_nat i * Z.sgn rowDiff =? r)%Z
             && (sc + Z.of_nat i * Z.sgn colDiff =? c)%Z) with false.
    + replace (sr + Z.of_nat i * Z.sgn rowDiff + Z.sgn rowDiff)%Z
        with (sr + Z.of_nat (S i) * Z.sgn rowDiff)%Z by lia.
      replace (sc + Z.of_nat i * Z.sgn colDiff + Z.sgn colDiff)%Z
        with (sc + Z.of_nat (S i) * Z.sgn colDiff)%Z by lia.
      rewrite (IH (S i)) by lia. done.
    + symmetry. apply andb_false_iff. rewrite !Z.eqb_neq.
      destruct (Z.sgn_spec rowDiff) as [[? ->]|[[? ->]|[? ->]]],
               (Z.sgn_spec colDiff) as [[? ->]|[[? ->]|[? ->]]]; lia.
Qed.

Lemma handleMouseEnter_aligned (r c : nat) (p : IndexMouse.Pointer) start rest :
  Index.selection (IndexMouse.game p) = start :: rest →
  IndexMouse.isSelecting p = true → aligned start r c →
  IndexMouse.handleMouseEnter r c p
  = Some {| IndexMouse.isSelecting := true;
            IndexMouse.game :=
              IndexMouse.setSelection (IndexMouse.game p) (segment start r c) |}.
Proof.
  intros Hsel Hs Hal. unfold IndexMouse.handleMouseEnter. rewrite Hsel, Hs.
  cbn [length Nat.eqb negb orb].
  apply aligned_test in Hal as Htest. rewrite Htest.
  pose proof (walk_segment (Z.of_nat (Index.r start)) (Z.of_nat (Index.c start))
                (Z.of_nat r) (Z.of_nat c)
                (Z.to_nat (Z.max (Z.abs (Z.of_nat r - Z.of_nat (Index.r start)))
                                 (Z.abs (Z.of_nat c - Z.of_nat (Index.c start)))))
                (Z.to_nat (Z.max (Z.abs (Z.of_nat r - Z.of_nat (Index.r start)))
                                 (Z.abs (Z.of_nat c - Z.of_nat (Index.c start)))))
                0) as Hwalk.
  cbn zeta in Hwalk. rewrite !Z.mul_0_l, !Z.add_0_r in Hwalk.
  rewrite Hwalk; [done| |lia|lia].
  unfold aligned in Hal. lia.
Qed.

Lemma handleMouseEnter_other (r c : nat) (p : IndexMouse.Pointer) :
  match Index.selection (IndexMouse.game p) with
  | start :: _ => ¬ (IndexMouse.isSelecting p = true ∧ aligned start r c)
  | [] => True
  end →
  IndexMouse.handleMouseEnter r c p = Some p.
Proof.
  unfold IndexMouse.handleMouseEnter.
  destruct (Index.selection (IndexMouse.game p)) as [|start rest].
  { by rewrite orb_true_r. }
  cbn [length Nat.eqb]. rewrite orb_false_r. intros Hnot.
  destruct (IndexMouse.isSelecting p); cbn [negb]; [|done].
  destruct (_ || _ || _) eqn:Hal; [|done].
  apply aligned_test in Hal. by destruct Hnot.
Qed.

(** X3. [handleMouseEnter] always comes out of its loop.  While a selection
    is being made, entering a cell on the row, the column or a diagonal of
    the first selected cell makes the selection the straight run of cells from
    that first cell to the entered one and changes nothing else; entering any
    other cell, or entering a cell when no selection is being made, changes
    nothing at all. *)
Theorem handleMouseEnter_segment (r c : nat) (p : IndexMouse.Pointer) :
  match Index.selection (IndexMouse.game p) with
  | start :: _ =>
      (IndexMouse.isSelecting p = true ∧ aligned start r c →
       IndexMouse.handleMouseEnter r c p
       = Some {| IndexMouse.isSelecting := true;
                 IndexMouse.game :=
                   IndexMouse.setSelection (IndexMouse.game p) (segment start r c) |})
      ∧ (¬ (IndexMouse.isSelecting p = true ∧ aligned start r c) →
         IndexMouse.handleMouseEnter r c p = Some p)
  | [] => IndexMouse.handleMouseEnter r c p = Some p
  end.
Proof.
  destruct (Index.selection (IndexMouse.game p)) as [|start rest] eqn:Hsel.
  - apply handleMouseEnter_other. by rewrite Hsel.
  - split.
    + intros [Hs Hal]. by eapply handleMouseEnter_aligned.
    + intros Hnot. apply handleMouseEnter_other. by rewrite Hsel.
Qed.

(** The cells of a run of [len] letters from [(startRow, startCol)] along
    [dir]. *)
Definition index_cells (startRow startCol : nat) (dir : Index.Position) (len : nat)
  : list Index.Position :=
  (λ j, {| Index.r := startRow + j * Index.r dir; Index.c := startCol + j * Index.c dir |})
  <$> seq 0 len.

Lemma directions_steps dir :
  dir ∈ Index.directions →
  Index.r dir ≤ 1 ∧ Index.c dir ≤ 1 ∧ 0 < Index.r dir + Index.c dir.
Proof.
  unfold Index.directions. rewrite !elem_of_cons, elem_of_nil.
  intros [->|[->|[->|[]]]]; cbn; lia.
Qed.

Lemma sgn_forward (s m i : nat) :
  i ≤ m → Z.to_nat (Z.of_nat s + Z.of_nat i * Z.sgn (Z.of_nat (s + m) - Z.of_nat s)) = s + i.
Proof.
  intros Hi. destruct (Z.sgn_spec (Z.of_nat (s + m) - Z.of_nat s)) as [[? ->]|[[? ->]|[? ->]]]; lia.
Qed.

Lemma sgn_backward (s m i : nat) :
  i ≤ m →
  Z.to_nat (Z.of_nat (s + m) + Z.of_nat i * Z.sgn (Z.of_nat s - Z.of_nat (s + m)))
  = s + (m - i).
Proof.
  intros Hi. destruct (Z.sgn_spec (Z.of_nat s - Z.of_nat (s + m))) as [[? ->]|[[? ->]|[? ->]]]; lia.
Qed.

Lemma sgn_still (s i : nat) :
  Z.to_nat (Z.of_nat s + Z.of_nat i * Z.sgn (Z.of_nat s - Z.of_nat s)) = s.
Proof. rewrite Z.sub_diag. cbn [Z.sgn]. lia. Qed.

(** Dragging forward along a word: from its first cell to its last. *)
Lemma segment_forward sr sc dir len :
  dir ∈ Index.directions → 0 < len →
  segment {| Index.r := sr; Index.c := sc |}
    (sr + (len - 1) * Index.r dir) (sc + (len - 1) * Index.c dir)
  = index_cells sr sc dir len.
Proof.
  intros Hdir Hlen. unfold segment, index_cells. cbn [Index.r Index.c].
  unfold Index.directions in Hdir. rewrite !elem_of_cons, elem_of_nil in Hdir.
  destruct Hdir as [->|[->|[->|[]]]]; cbn [Index.r Index.c];
    rewrite ?Nat.mul_0_r, ?Nat.mul_1_r, ?Nat.add_0_r;
    (replace (S (Z.to_nat _)) with len by lia);
    apply list_eq; intros i; rewrite !list_lookup_fmap;
    (destruct (seq 0 len !! i) as [j|] eqn:Hj; [|done]);
    apply lookup_seq in Hj as [-> Hi]; cbn [fmap option_fmap option_map Nat.add];
    rewrite ?Nat.mul_0_r, ?Nat.mul_1_r, ?Nat.add_0_r;
    rewrite ?sgn_still, ?sgn_forward by lia; done.
Qed.

(** Dragging backward along a word: from its last cell to its first. *)
Lemma segment_backward sr sc dir len :
  dir ∈ Index.directions → 0 < len →
  segment {| Index.r := sr + (len - 1) * Index.r dir;
             Index.c := sc + (len - 1) * Index.c dir |} sr sc
  = reverse (index_cells sr sc dir len).
Proof.
  intros Hdir Hlen. unfold segment, index_cells. cbn [Index.r Index.c].
  unfold Index.directions in Hdir. rewrite !elem_of_cons, elem_of_nil in Hdir.
  destruct Hdir as [->|[->|[->|[]]]]; cbn [Index.r Index.c];
    rewrite ?Nat.mul_0_r, ?Nat.mul_1_r, ?Nat.add_0_r;
    (replace (S (Z.to_nat _)) with len by lia);
    apply list_eq; intros i;
    (destruct (decide (i < len)) as [Hi|Hi];
     [|rewrite !lookup_ge_None_2;
       rewrite ?length_reverse, ?length_fmap, ?length_seq; done || lia]);
    rewrite reverse_lookup by (rewrite length_fmap, length_seq; lia);
    rewrite !list_lookup_fmap, length_fmap, length_seq;
    rewrite !lookup_seq_lt by lia; cbn [fmap option_fmap option_map Nat.add];
    rewrite ?Nat.mul_0_r, ?Nat.mul_1_r, ?Nat.add_0_r;
    rewrite ?sgn_still, ?sgn_backward by lia;
    (replace (len - 1 - i) with (len - S i) by lia); done.
Qed.

Lemma joinChars_Some word : Index.joinChars (Some <$> word) = word.
Proof.
  unfold Index.joinChars. induction word as [|ch word IH]; [done|].
  cbn. by rewrite IH.
Qed.

(** The grid shows [word] from [(startRow, startCol)] along [dir]. *)
Definition index_shows (g : list (list Index.GridCell)) (word : jsstring)
    (startRow startCol : nat) (dir : Index.Position) : Prop :=
  ∀ j ch, word !! j = Some ch →
    holds Index.char g (startRow + j * Index.r dir) (startCol + j * Index.c dir) ch.

Lemma index_cells_chars g word sr sc dir :
  index_shows g word sr sc dir →
  mapM (λ pos, cell ← grid_get g (Index.r pos) (Index.c pos); Some (Index.char cell))
       (index_cells sr sc dir (length word))
  = Some (Some <$> word).
Proof.
  intros Hshow. apply mapM_Some_2. apply Forall2_same_length_lookup_2.
  - unfold index_cells. by rewrite !length_fmap, length_seq.
  - intros i pos y Hpos Hy. unfold index_cells in Hpos.
    rewrite list_lookup_fmap in Hpos. rewrite list_lookup_fmap in Hy.
    destruct (word !! i) as [ch|] eqn:Hch; [|done]. injection Hy as <-.
    destruct (seq 0 (length word) !! i) as [j|] eqn:Hj; [|done].
    apply lookup_seq in Hj as [-> _]. injection Hpos as <-. cbn [Index.r Index.c Nat.add].
    destruct (Hshow i ch Hch) as (cell & -> & Hchar). cbn [mbind option_bind].
    by rewrite Hchar.
Qed.

Lemma index_selected_forward g word sr sc dir :
  index_shows g word sr sc dir →
  index_selected g (index_cells sr sc dir (length word)) = Some word.
Proof.
  intros Hshow. unfold index_selected. rewrite (index_cells_chars g word sr sc dir Hshow).
  cbn [mbind option_bind]. by rewrite joinChars_Some.
Qed.

Lemma index_selected_backward g word sr sc dir :
  index_shows g word sr sc dir →
  index_selected g (reverse (index_cells sr sc dir (length word))) = Some (reverse word).
Proof.
  intros Hshow. unfold index_selected.
  pose proof (index_cells_chars g word sr sc dir Hshow) as Hchars.
  apply mapM_Some_1, Forall2_reverse, mapM_Some_2 in Hchars. rewrite Hchars.
  cbn [mbind option_bind]. by rewrite <- fmap_reverse, joinChars_Some.
Qed.

Lemma aligned_ends sr sc dir m :
  dir ∈ Index.directions →
  aligned {| Index.r := sr; Index.c := sc |} (sr + m * Index.r dir) (sc + m * Index.c dir)
  ∧ aligned {| Index.r := sr + m * Index.r dir; Index.c := sc + m * Index.c dir |} sr sc.
Proof.
  unfold Index.directions. rewrite !elem_of_cons, elem_of_nil.
  unfold aligned. intros [->|[->|[->|[]]]]; cbn [Index.r Index.c]; lia.
Qed.

(** Press on [(r, c)], drag to [(r', c')], release. *)
Definition index_trace (r c r' c' : nat) (p : IndexMouse.Pointer)
  : option IndexMouse.Pointer :=
  p' ← IndexMouse.handleMouseEnter r' c' (IndexMouse.handleMouseDown r c p);
  IndexMouse.handleMouseUp p'.

Lemma index_trace_marked r c r' c' p s :
  aligned {| Index.r := r; Index.c := c |} r' c' →
  Forall (λ w, 2 < length w) (Index.words (IndexMouse.game p)) →
  index_selected (Index.grid (IndexMouse.game p))
    (segment {| Index.r := r; Index.c := c |} r' c') = Some s →
  index_trace r c r' c' p
  = Some {| IndexMouse.isSelecting := false;
            IndexMouse.game :=
              {| Index.grid := Index.grid (IndexMouse.game p);
                 Index.words := Index.words (IndexMouse.game p);
                 Index.foundWords :=
                   marked (Index.words (IndexMouse.game p))
                          (Index.foundWords (IndexMouse.game p)) s;
                 Index.selection := [] |} |}.
Proof.
  intros Hal Hwords Hsel. unfold index_trace.
  rewrite (handleMouseEnter_aligned r' c' (IndexMouse.handleMouseDown r c p)
             {| Index.r := r; Index.c := c |} []) by done.
  cbn [mbind option_bind]. unfold IndexMouse.handleMouseUp. cbn [IndexMouse.game].
  rewrite (index_handleMouseUp_marked _ s) by done. done.
Qed.

Lemma trace_forward_marks (p : IndexMouse.Pointer) (word : jsstring)
    (startRow startCol : nat) (dir : Index.Position) :
  dir ∈ Index.directions →
  Forall (λ w, 2 < length w) (Index.words (IndexMouse.game p)) →
  findable (Index.words (IndexMouse.game p)) (Index.foundWords (IndexMouse.game p)) word →
  index_shows (Index.grid (IndexMouse.game p)) word startRow startCol dir →
  ∃ p', index_trace startRow startCol
          (startRow + (length word - 1) * Index.r dir)
          (startCol + (length word - 1) * Index.c dir) p = Some p'
    ∧ Index.foundWords (IndexMouse.game p')
      = Index.foundWords (IndexMouse.game p) ++ [word]
    ∧ Index.selection (IndexMouse.game p') = []
    ∧ IndexMouse.isSelecting p' = false
    ∧ Index.grid (IndexMouse.game p') = Index.grid (IndexMouse.game p)
    ∧ Index.words (IndexMouse.game p') = Index.words (IndexMouse.game p).
Proof.
  intros Hdir Hwords Hfind Hshow.
  assert (Hlen : 0 < length word).
  { rewrite Forall_forall in Hwords. destruct Hfind as [Hin _]. apply Hwords in Hin. lia. }
  eexists. split.
  - apply (index_trace_marked _ _ _ _ _ word); [by apply aligned_ends|done|].
    rewrite segment_forward by done. by apply index_selected_forward.
  - cbn [IndexMouse.game IndexMouse.isSelecting Index.foundWords Index.selection
         Index.grid Index.words].
    split; [|done]. by apply (marked_outcome _ _ word).
Qed.

(** X4. Tracing a word forward finds it: when the grid shows a word of the
    win set, not found yet, along one of the three directions, pressing on
    its first cell, dragging to its last cell and releasing marks the word
    found and empties the selection. *)
Theorem trace_forward_finds_word (p : IndexMouse.Pointer) (word : jsstring)
    (startRow startCol : nat) (dir : Index.Position) :
  dir ∈ Index.directions →
  Forall (λ w, 2 < length w) (Index.words (IndexMouse.game p)) →
  findable (Index.words (IndexMouse.game p)) (Index.foundWords (IndexMouse.game p)) word →
  index_shows (Index.grid (IndexMouse.game p)) word startRow startCol dir →
  ∃ p', index_trace startRow startCol
          (startRow + (length word - 1) * Index.r dir)
          (startCol + (length word - 1) * Index.c dir) p = Some p'
    ∧ Index.foundWords (IndexMouse.game p')
      = Index.foundWords (IndexMouse.game p) ++ [word]
    ∧ Index.selection (IndexMouse.game p') = []
    ∧ IndexMouse.isSelecting p' = false
    ∧ Index.grid (IndexMouse.game p') = Index.grid (IndexMouse.game p)
    ∧ Index.words (IndexMouse.game p') = Index.words (IndexMouse.game p).
Proof. apply trace_forward_marks. Qed.

(** X5. Tracing a word backward finds it too: pressing on its last cell,
    dragging to its first cell and releasing marks the word found, unless its
    reversal is a different word of the win set not found yet. *)
Theorem trace_backward_finds_word (p : IndexMouse.Pointer) (word : jsstring)
    (startRow startCol : nat) (dir : Index.Position) :
  dir ∈ Index.directions →
  Forall (λ w, 2 < length w) (Index.words (IndexMouse.game p)) →
  findable (Index.words (IndexMouse.game p)) (Index.foundWords (IndexMouse.game p)) word →
  index_shows (Index.grid (IndexMouse.game p)) word startRow startCol dir →
  reverse word = word
  ∨ ¬ findable (Index.words (IndexMouse.game p)) (Index.foundWords (IndexMouse.game p))
        (reverse word) →
  ∃ p', index_trace (startRow + (length word - 1) * Index.r dir)
          (startCol + (length word - 1) * Index.c dir) startRow startCol p = Some p'
    ∧ Index.foundWords (IndexMouse.game p')
      = Index.foundWords (IndexMouse.game p) ++ [word]
    ∧ Index.selection (IndexMouse.game p') = []
    ∧ IndexMouse.isSelecting p' = false.
Proof.
  intros Hdir Hwords Hfind Hshow Hrev.
  assert (Hlen : 0 < length word).
  { rewrite Forall_forall in Hwords. destruct Hfind as [Hin _]. apply Hwords in Hin. lia. }
  eexists. split.
  - apply (index_trace_marked _ _ _ _ _ (reverse word)); [by apply aligned_ends|done|].
    rewrite segment_backward by done. by apply index_selected_backward.
  - cbn [IndexMouse.game IndexMouse.isSelecting Index.foundWords Index.selection].
    split; [|done].
    destruct (marked_outcome (Index.words (IndexMouse.game p))
                (Index.foundWords (IndexMouse.game p)) (reverse word))
      as (Hfwd & Hback & _).
    unfold reversed in Hback. rewrite reverse_involutive in Hback.
    destruct Hrev as [Hpal|Hnot].
    + rewrite Hpal in *. by apply Hfwd.
    + by apply Hback.
Qed.

Definition index_idle (st : Index.GameState) : IndexMouse.Pointer :=
  {| IndexMouse.isSelecting := false; IndexMouse.game := st |}.

Definition right : Index.Position := {| Index.r := 0; Index.c := 1 |}.

Lemma trace_forward_finds_word_witness :
  ∃ p', index_trace 0 0 (0 + (length TAU - 1) * Index.r right)
          (0 + (length TAU - 1) * Index.c right) (index_idle index_packed) = Some p'
    ∧ Index.foundWords (IndexMouse.game p')
      = Index.foundWords (IndexMouse.game (index_idle index_packed)) ++ [TAU]
    ∧ Index.selection (IndexMouse.game p') = []
    ∧ IndexMouse.isSelecting p' = false
    ∧ Index.grid (IndexMouse.game p') = Index.grid (IndexMouse.game (index_idle index_packed))
    ∧ Index.words (IndexMouse.game p') = Index.words (IndexMouse.game (index_idle index_packed)).
Proof.
  apply (trace_forward_finds_word (index_idle index_packed) TAU 0 0 right).
  - repeat constructor.
  - vm_compute. repeat constructor.
  - split; [apply includes_elem_of|apply includes_not_elem_of]; vm_compute; reflexivity.
  - intros [|[|[|j]]] ch [= <-]; vm_compute; eexists; split; reflexivity.
Defined.

Definition ALOFA : jsstring := str "ALOFA".

Lemma trace_backward_finds_word_witness :
  ∃ p', index_trace (2 + (length ALOFA - 1) * Index.r right)
          (0 + (length ALOFA - 1) * Index.c right) 2 0 (index_idle index_packed) = Some p'
    ∧ Index.foundWords (IndexMouse.game p')
      = Index.foundWords (IndexMouse.game (index_idle index_packed)) ++ [ALOFA]
    ∧ Index.selection (IndexMouse.game p') = []
    ∧ IndexMouse.isSelecting p' = false.
Proof.
  apply (trace_backward_finds_word (index_idle index_packed) ALOFA 2 0 right).
  - repeat constructor.
  - vm_compute. repeat constructor.
  - split; [apply includes_elem_of|apply includes_not_elem_of]; vm_compute; reflexivity.
  - intros [|[|[|[|[|j]]]]] ch [= <-]; vm_compute; eexists; split; reflexivity.
  - right. intros [Hin _]. apply includes_elem_of in Hin. vm_compute in Hin. discriminate.
Defined.

(** X6. In a game that [generateNewGame] has just built, every word of the
    win set can be found: for each there is a cell to press and a cell to drag
    to such that pressing, dragging and releasing marks exactly that word. *)
Theorem generated_words_can_be_found (shuffle : ∀ A : Type, list A → list A)
    (dictionary : list DictionaryEntry) (st : Index.GameState)
    (rnd : nat → unit_value) (k : nat) :
  (∀ (A : Type) (l : list A), shuffle A l ≡ₚ l) →
  Index.NUM_WORDS ≤ length (Index.wordPool dictionary) →
  ∃ st' k', Index.generateNewGame shuffle dictionary st rnd k = Some (st', k')
    ∧ ∀ w, w ∈ Index.words st' →
        ∃ r c r' c' p', index_trace r c r' c' (index_idle st') = Some p'
          ∧ Index.foundWords (IndexMouse.game p') = [w].
Proof.
  intros Hperm Hlarge.
  destruct (index_generateNewGame_large shuffle dictionary st rnd k Hlarge)
    as (st' & k' & Hrun & _ & Hread & Hsub & Hfound & _).
  exists st', k'. split; [done|]. intros w Hw.
  destruct (Hread w Hw) as (sr & sc & dir & Hdir & Hshow).
  assert (Hwords : Forall (λ w, 2 < length w) (Index.words st')).
  { apply Forall_forall. intros w' Hw'.
    pose proof (wordsToPlace_lengths shuffle Hperm dictionary) as Hlen.
    rewrite Forall_forall in Hlen. apply (elem_of_sublist _ _ _ Hw') in Hsub.
    apply Hlen in Hsub. lia. }
  destruct (trace_forward_marks (index_idle st') w sr sc dir Hdir Hwords)
    as (p' & Htr & Hf & _).
  - split; [done|]. cbn. rewrite Hfound. by intros ?%elem_of_nil.
  - done.
  - eexists _, _, _, _, p'. split; [exact Htr|]. cbn in Hf. by rewrite Hfound in Hf.
Qed.

Lemma generated_words_can_be_found_witness :
  ∃ st' k', Index.generateNewGame keep six_words Index.initialState by_rows 0 = Some (st', k')
    ∧ ∀ w, w ∈ Index.words st' →
        ∃ r c r' c' p', index_trace r c r' c' (index_idle st') = Some p'
          ∧ Index.foundWords (IndexMouse.game p') = [w].
Proof.
  apply (generated_words_can_be_found keep six_words Index.initialState by_rows 0 keep_perm).
  vm_compute. lia.
Defined.

(** ** vite.config.ts: the mouse handlers of the word search *)

Module ViteMouse.

Record Pointer := { isSelecting : bool; game : Vite.GameState }.

Definition setSelection (st : Vite.GameState) (sel : list (nat * nat)) : Vite.GameState :=
  {| Vite.grid := Vite.grid st; Vite.words := Vite.words st;
     Vite.foundWords := Vite.foundWords st; Vite.selection := sel;
     Vite.foundCoordinates := Vite.foundCoordinates st |}.

(** [handleMouseDown] (vite.config.ts 1637-1640) *)
Definition handleMouseDown (row col : nat) (p : Pointer) : Pointer :=
  {| isSelecting := true; game := setSelection (game p) [(row, col)] |}.

(** [handleMouseEnter] (vite.config.ts 1641-1645) *)
Definition handleMouseEnter (row col : nat) (p : Pointer) : Pointer :=
  if isSelecting p
  then {| isSelecting := true; game := Vite.handleCellSelection row col (game p) |}
  else p.

(** [handleMouseUp] with the reference it clears. *)
Definition handleMouseUp (p : Pointer) : option Pointer :=
  st ← Vite.handleMouseUp (game p);
  Some {| isSelecting := false; game := st |}.

(** [allFound] (vite.config.ts 1673) *)
Definition allFound (st : Vite.GameState) : bool :=
  (length (Vite.foundWords st) =? length (Vite.words st))
  && (0 <? length (Vite.words st)).

End ViteMouse.

(** ** The found-set *)

Lemma marked_cases words found s :
  marked words found s = found
  ∨ ∃ o, findable words found o ∧ marked words found s = found ++ [o].
Proof.
  unfold marked.
  destruct (includes words s && negb (includes found s)) eqn:Hs.
  { right. exists s. split; [by apply findable_includes|done]. }
  destruct (includes words (reversed s) && negb (includes found (reversed s))) eqn:Hr.
  { right. exists (reversed s). split; [by apply findable_includes|done]. }
  by left.
Qed.

Lemma index_handleMouseUp_cases st st' :
  Index.handleMouseUp st = Some st' →
  Index.words st' = Index.words st ∧ Index.grid st' = Index.grid st
  ∧ Index.selection st' = []
  ∧ (Index.foundWords st' = Index.foundWords st
     ∨ ∃ o, findable (Index.words st) (Index.foundWords st) o
            ∧ Index.foundWords st' = Index.foundWords st ++ [o]).
Proof.
  unfold Index.handleMouseUp.
  destruct (Index.getSelectedWord _ _) as [s|]; [|done]. cbn [mbind option_bind].
  intros [= <-]. cbn [Index.words Index.grid Index.selection Index.foundWords].
  split; [done|]. split; [done|]. split; [done|].
  apply (marked_cases (Index.words st) (Index.foundWords st) s).
Qed.

Lemma vite_handleMouseUp_cases st st' :
  Vite.handleMouseUp st = Some st' →
  Vite.words st' = Vite.words st ∧ Vite.grid st' = Vite.grid st
  ∧ Vite.selection st' = []
  ∧ (Vite.foundWords st' = Vite.foundWords st
     ∨ ∃ o, findable (Vite.words st) (Vite.foundWords st) o
            ∧ Vite.foundWords st' = Vite.foundWords st ++ [o]).
Proof.
  unfold Vite.handleMouseUp.
  destruct (Vite.selection st) as [|cell sel] eqn:Hsel; cbn [length Nat.eqb].
  { intros [= <-]. auto. }
  destruct (mapM _ _) as [s|]; [|done]. cbn [mbind option_bind].
  destruct (includes (Vite.words st) s && negb (includes (Vite.foundWords st) s)) eqn:Hs.
  { apply findable_includes in Hs. destruct s as [|ch s]; intros [= <-]; cbn; [auto|].
    split; [done|]. split; [done|]. split; [done|]. right. by exists (ch :: s). }
  destruct (includes (Vite.words st) (reversed s)
            && negb (includes (Vite.foundWords st) (reversed s))) eqn:Hr.
  { apply findable_includes in Hr. destruct (reversed s) as [|ch s']; intros [= <-]; cbn; [auto|].
    split; [done|]. split; [done|]. split; [done|]. right. by exists (ch :: s'). }
  intros [= <-]. cbn. auto.
Qed.

(** The found-set holds words of the win set, each once. *)
Definition found_ok (words found : list jsstring) : Prop :=
  NoDup found ∧ found ⊆ words.

Lemma found_ok_step words found found' :
  found_ok words found →
  (found' = found ∨ ∃ o, findable words found o ∧ found' = found ++ [o]) →
  found_ok words found'
  ∧ length found ≤ length found' ≤ S (length found).
Proof.
  intros [Hnd Hsub] [->|(o & [Hin Hnot] & ->)].
  - split; [done|lia].
  - split; [|rewrite length_app; cbn; lia]. split.
    + apply NoDup_app. split; [done|]. split; [|apply NoDup_singleton].
      intros x Hx ->%list_elem_of_singleton. done.
    + intros x [Hx| ->%list_elem_of_singleton]%elem_of_app; [by apply Hsub|done].
Qed.

Lemma found_ok_complete words found :
  found_ok words found → length found = length words → found ≡ₚ words.
Proof.
  intros [Hnd Hsub] Hlen. apply submseteq_length_Permutation; [|lia].
  by apply NoDup_submseteq.
Qed.

Lemma index_handleMouseUp_returns st :
  is_Some (index_selected (Index.grid st) (Index.selection st)) →
  is_Some (Index.handleMouseUp st).
Proof.
  intros [s Hs]. unfold Index.handleMouseUp, Index.getSelectedWord.
  destruct (length (Index.selection st) <? 2); [done|].
  unfold index_selected in Hs. by destruct (mapM _ _).
Qed.

Lemma vite_handleMouseUp_returns st :
  is_Some (vite_selected (Vite.grid st) (Vite.selection st)) →
  is_Some (Vite.handleMouseUp st).
Proof.
  intros [s Hs]. unfold Vite.handleMouseUp.
  destruct (length (Vite.selection st) =? 0); [done|].
  unfold vite_selected in Hs. rewrite Hs. cbn [mbind option_bind].
  by repeat case_match.
Qed.

(** The found-set [found'] is [found], or [found] with one more word at its
    end, a word of the win set that was not found. *)
Definition found_step (words found found' : list jsstring) : Prop :=
  found' = found ∨ ∃ w, w ∈ words ∧ (w ∉ found) ∧ found' = found ++ [w].

(** X7. A release on a selection that lies on the grid returns, and whenever
    a release returns, it removes no found word and adds at most one, at the
    end, a word of the win set that was not found; the found-set still holds
    words of the win set only, each once; the win set and the grid are
    untouched and the selection is emptied.  So when the game reports a win
    ([isWon], [allFound]) the found words are exactly the words of the win
    set, each once. *)
Theorem found_set_invariant :
  (∀ st, found_ok (Index.words st) (Index.foundWords st) →
     (is_Some (index_selected (Index.grid st) (Index.selection st)) →
      is_Some (Index.handleMouseUp st))
     ∧ ∀ st', Index.handleMouseUp st = Some st' →
         Index.words st' = Index.words st ∧ Index.grid st' = Index.grid st
         ∧ Index.selection st' = []
         ∧ found_step (Index.words st) (Index.foundWords st) (Index.foundWords st')
         ∧ found_ok (Index.words st') (Index.foundWords st')
         ∧ (IndexMouse.isWon st' = true → Index.foundWords st' ≡ₚ Index.words st'))
  ∧ (∀ st, found_ok (Vite.words st) (Vite.foundWords st) →
       (is_Some (vite_selected (Vite.grid st) (Vite.selection st)) →
        is_Some (Vite.handleMouseUp st))
       ∧ ∀ st', Vite.handleMouseUp st = Some st' →
           Vite.words st' = Vite.words st ∧ Vite.grid st' = Vite.grid st
           ∧ (Vite.selection st' = [])
           ∧ found_step (Vite.words st) (Vite.foundWords st) (Vite.foundWords st')
           ∧ found_ok (Vite.words st') (Vite.foundWords st')
           ∧ (ViteMouse.allFound st' = true → Vite.foundWords st' ≡ₚ Vite.words st')).
Proof.
  split; intros st Hok.
  - split; [apply index_handleMouseUp_returns|]. intros st' Hup.
    destruct (index_handleMouseUp_cases st st' Hup) as (Hw & Hg & Hsel & Hcases).
    destruct (found_ok_step _ _ _ Hok Hcases) as [Hok' Hlen].
    rewrite Hw. split; [done|]. split; [done|]. split; [done|].
    split; [destruct Hcases as [?|(o & [? ?] & ?)]; [by left|right; by exists o]|].
    split; [done|].
    unfold IndexMouse.isWon. rewrite Hw. intros [_ Heq%Nat.eqb_eq]%andb_true_iff.
    by apply found_ok_complete.
  - split; [apply vite_handleMouseUp_returns|]. intros st' Hup.
    destruct (vite_handleMouseUp_cases st st' Hup) as (Hw & Hg & Hsel & Hcases).
    destruct (found_ok_step _ _ _ Hok Hcases) as [Hok' Hlen].
    rewrite Hw. split; [done|]. split; [done|]. split; [done|].
    split; [destruct Hcases as [?|(o & [? ?] & ?)]; [by left|right; by exists o]|].
    split; [done|].
    unfold ViteMouse.allFound. rewrite Hw. intros [Heq%Nat.eqb_eq _]%andb_true_iff.
    by apply found_ok_complete.
Qed.

Lemma found_set_invariant_witness :
  is_Some (Index.handleMouseUp (index_select index_packed first_three))
  ∧ ∀ st', Index.handleMouseUp (index_select index_packed first_three) = Some st' →
      Index.words st' = Index.words (index_select index_packed first_three)
      ∧ Index.grid st' = Index.grid (index_select index_packed first_three)
      ∧ Index.selection st' = []
      ∧ found_step (Index.words (index_select index_packed first_three))
          (Index.foundWords (index_select index_packed first_three)) (Index.foundWords st')
      ∧ found_ok (Index.words st') (Index.foundWords st')
      ∧ (IndexMouse.isWon st' = true → Index.foundWords st' ≡ₚ Index.words st').
Proof.
  destruct (proj1 found_set_invariant (index_select index_packed first_three)) as [Hret Hup].
  - split; [apply NoDup_nil_2|]. intros x Hx. vm_compute in Hx. by apply elem_of_nil in Hx.
  - split; [|exact Hup]. apply Hret. vm_compute. by eexists.
Defined.

(** ** vite.config.ts: selecting cells one by one *)

Lemma cell_listed (row col : nat) (l : list (nat * nat)) :
  existsb (λ p, (p.1 =? row) && (p.2 =? col)) l = true ↔ (row, col) ∈ l.
Proof.
  rewrite existsb_exists. split.
  - intros ([r c] & Hin & [Hr%Nat.eqb_eq Hc%Nat.eqb_eq]%andb_true_iff).
    cbn in Hr, Hc. subst. by apply list_elem_of_In.
  - intros Hin. exists (row, col). split; [by apply list_elem_of_In|].
    cbn. by rewrite !Nat.eqb_refl.
Qed.

Lemma handleCellSelection_fresh row col st :
  (row, col) ∉ Vite.selection st →
  Vite.handleCellSelection row col st
  = ViteMouse.setSelection st (Vite.selection st ++ [(row, col)]).
Proof.
  intros Hnot. unfold Vite.handleCellSelection.
  destruct (existsb _ _) eqn:Hex; [|done]. by apply cell_listed in Hex.
Qed.

Lemma handleCellSelection_listed row col st :
  (row, col) ∈ Vite.selection st → Vite.handleCellSelection row col st = st.
Proof.
  intros Hin%cell_listed. unfold Vite.handleCellSelection. by rewrite Hin.
Qed.

(** X8. The selection of the word search of vite.config.ts never holds a cell
    twice: a press starts it with one cell, and entering a cell adds it at the
    end when it is not selected yet and changes nothing when it is, or when no
    selection is being made. *)
Theorem vite_selection_no_duplicates (row col : nat) (p : ViteMouse.Pointer) :
  NoDup (Vite.selection (ViteMouse.game (ViteMouse.handleMouseDown row col p)))
  ∧ (NoDup (Vite.selection (ViteMouse.game p)) →
     NoDup (Vite.selection (ViteMouse.game (ViteMouse.handleMouseEnter row col p))))
  ∧ (ViteMouse.isSelecting p = true → (row, col) ∉ Vite.selection (ViteMouse.game p) →
     Vite.selection (ViteMouse.game (ViteMouse.handleMouseEnter row col p))
     = Vite.selection (ViteMouse.game p) ++ [(row, col)])
  ∧ (ViteMouse.isSelecting p = false ∨ (row, col) ∈ Vite.selection (ViteMouse.game p) →
     Vite.selection (ViteMouse.game (ViteMouse.handleMouseEnter row col p))
     = Vite.selection (ViteMouse.game p)).
Proof.
  split; [apply NoDup_singleton|]. unfold ViteMouse.handleMouseEnter.
  split; [|split].
  - intros Hnd. destruct (ViteMouse.isSelecting p); [|done]. cbn [ViteMouse.game].
    destruct (decide ((row, col) ∈ Vite.selection (ViteMouse.game p))) as [Hin|Hnot].
    + by rewrite handleCellSelection_listed.
    + rewrite handleCellSelection_fresh by done. cbn.
      apply NoDup_app. split; [done|]. split; [|apply NoDup_singleton].
      by intros x Hx ->%list_elem_of_singleton.
  - intros -> Hnot. cbn [ViteMouse.game]. by rewrite handleCellSelection_fresh.
  - intros [->|Hin]; [done|]. destruct (ViteMouse.isSelecting p); [|done].
    cbn [ViteMouse.game]. by rewrite handleCellSelection_listed.
Qed.

(** The cells of a word of [len] letters from [(row, col)] in direction [d]. *)
Definition vite_run (d : Vite.Direction) (row col len : nat) : list (nat * nat) :=
  (λ i, Vite.cellAt d row col i) <$> seq 0 len.

(** Press on the first cell, enter each of the others in turn, release. *)
Definition vite_trace (cells : list (nat * nat)) (p : ViteMouse.Pointer)
  : option ViteMouse.Pointer :=
  match cells with
  | [] => None
  | first :: others =>
      ViteMouse.handleMouseUp
        (fold_left (λ q cell, ViteMouse.handleMouseEnter cell.1 cell.2 q) others
                   (ViteMouse.handleMouseDown first.1 first.2 p))
  end.

Lemma vite_enter_all others p :
  ViteMouse.isSelecting p = true →
  NoDup (Vite.selection (ViteMouse.game p) ++ others) →
  fold_left (λ q cell, ViteMouse.handleMouseEnter cell.1 cell.2 q) others p
  = {| ViteMouse.isSelecting := true;
       ViteMouse.game :=
         ViteMouse.setSelection (ViteMouse.game p)
           (Vite.selection (ViteMouse.game p) ++ others) |}.
Proof.
  revert p. induction others as [|[row col] others IH]; intros p Hs Hnd.
  - cbn [fold_left]. rewrite app_nil_r. destruct p as [s [g w f sel fc]].
    cbn in *. by subst.
  - cbn [fold_left fst snd]. unfold ViteMouse.handleMouseEnter at 2. rewrite Hs.
    assert (Hnot : (row, col) ∉ Vite.selection (ViteMouse.game p)).
    { apply NoDup_app in Hnd as (_ & Hdisj & _). intros Hin.
      apply (Hdisj _ Hin). apply elem_of_cons. by left. }
    rewrite handleCellSelection_fresh by done.
    rewrite IH; cbn [ViteMouse.isSelecting ViteMouse.game ViteMouse.setSelection
                     Vite.selection]; [|done|by rewrite <- app_assoc].
    by rewrite <- app_assoc.
Qed.

Lemma vite_run_NoDup d row col len : NoDup (vite_run d row col len).
Proof.
  unfold vite_run. apply NoDup_fmap_2_strong; [|apply NoDup_seq].
  intros i j _ _. destruct d; cbn; intros [= ?]; lia.
Qed.

Lemma addCoordinate_keeps sel coords x :
  x ∈ coords ∨ x ∈ sel → x ∈ fold_left Vite.addCoordinate sel coords.
Proof.
  revert coords. induction sel as [|y sel IH]; intros coords.
  - cbn. intros [|?%elem_of_nil]; done.
  - cbn [fold_left]. intros Hx. apply IH.
    unfold Vite.addCoordinate.
    destruct (existsb _ coords) eqn:Hex.
    + destruct Hx as [Hx|[->|Hx]%elem_of_cons]; [by left| |by right].
      left. destruct y as [r c]. by apply cell_listed in Hex.
    + destruct Hx as [Hx|[->|Hx]%elem_of_cons]; [left|left|by right].
      * apply elem_of_app. by left.
      * apply elem_of_app. right. by apply list_elem_of_singleton.
Qed.

(** X9. Tracing a word cell by cell finds it: when the grid of vite.config.ts
    shows a word of the win set, not found yet, from some cell in some
    direction, pressing on its first cell, entering its other cells in order
    and releasing marks the word found, empties the selection and records
    every cell of the word among the found coordinates. *)
Theorem vite_trace_finds_word (p : ViteMouse.Pointer) (word : jsstring)
    (d : Vite.Direction) (row col : nat) :
  Forall (λ w, 2 < length w) (Vite.words (ViteMouse.game p)) →
  findable (Vite.words (ViteMouse.game p)) (Vite.foundWords (ViteMouse.game p)) word →
  (∀ i ch, word !! i = Some ch →
     grid_get (Vite.grid (ViteMouse.game p))
       (Vite.cellAt d row col i).1 (Vite.cellAt d row col i).2 = Some ch) →
  ∃ p', vite_trace (vite_run d row col (length word)) p = Some p'
    ∧ Vite.foundWords (ViteMouse.game p') = Vite.foundWords (ViteMouse.game p) ++ [word]
    ∧ Vite.selection (ViteMouse.game p') = []
    ∧ ViteMouse.isSelecting p' = false
    ∧ ∀ cell, cell ∈ vite_run d row col (length word) →
        cell ∈ Vite.foundCoordinates (ViteMouse.game p').
Proof.
  intros Hwords Hfind Hshow.
  assert (Hlen : 2 < length word).
  { rewrite Forall_forall in Hwords. destruct Hfind as [Hin _]. by apply Hwords in Hin. }
  pose proof (vite_run_NoDup d row col (length word)) as Hnd.
  assert (Hsel : mapM (λ cell, grid_get (Vite.grid (ViteMouse.game p)) cell.1 cell.2)
                   (vite_run d row col (length word)) = Some word).
  { apply mapM_Some_2. apply Forall2_same_length_lookup_2.
    - unfold vite_run. by rewrite length_fmap, length_seq.
    - intros i cell ch Hcell Hch. unfold vite_run in Hcell.
      rewrite list_lookup_fmap in Hcell.
      destruct (seq 0 (length word) !! i) as [j|] eqn:Hj; [|done].
      apply lookup_seq in Hj as [-> _]. injection Hcell as <-. by apply Hshow. }
  destruct (vite_run d row col (length word)) as [|first others] eqn:Hrun.
  { apply (f_equal length) in Hrun. unfold vite_run in Hrun.
    rewrite length_fmap, length_seq in Hrun. cbn in Hrun. lia. }
  cbn [vite_trace]. rewrite vite_enter_all by (done || by destruct first).
  cbn [ViteMouse.game ViteMouse.handleMouseDown ViteMouse.setSelection Vite.selection app].
  replace (first.1, first.2) with first by (by destruct first).
  unfold ViteMouse.handleMouseUp, Vite.handleMouseUp, ViteMouse.setSelection.
  cbn [ViteMouse.game Vite.selection Vite.grid Vite.words Vite.foundWords
       Vite.foundCoordinates length Nat.eqb].
  rewrite Hsel. cbn [mbind option_bind].
  apply findable_includes in Hfind. rewrite Hfind.
  destruct word as [|ch word]; [cbn in Hlen; lia|].
  eexists. split; [done|].
  cbn [ViteMouse.game ViteMouse.isSelecting Vite.foundWords Vite.selection
       Vite.foundCoordinates].
  split; [done|]. split; [done|]. split; [done|].
  intros cell Hcell. apply addCoordinate_keeps. by right.
Qed.

Definition vite_idle (st : Vite.GameState) : ViteMouse.Pointer :=
  {| ViteMouse.isSelecting := false; ViteMouse.game := st |}.

Lemma vite_trace_finds_word_witness :
  ∃ p', vite_trace (vite_run Vite.vertical 0 0 (length TAU)) (vite_idle vite_packed) = Some p'
    ∧ Vite.foundWords (ViteMouse.game p')
      = Vite.foundWords (ViteMouse.game (vite_idle vite_packed)) ++ [TAU]
    ∧ Vite.selection (ViteMouse.game p') = []
    ∧ ViteMouse.isSelecting p' = false
    ∧ ∀ cell, cell ∈ vite_run Vite.vertical 0 0 (length TAU) →
        cell ∈ Vite.foundCoordinates (ViteMouse.game p').
Proof.
  apply (vite_trace_finds_word (vite_idle vite_packed) TAU Vite.vertical 0 0).
  - vm_compute. repeat constructor.
  - split; [apply includes_elem_of|apply includes_not_elem_of]; vm_compute; reflexivity.
  - intros [|[|[|j]]] ch [= <-]; vm_compute; reflexivity.
Defined.

(** ** index.tsx: the dictionary page around [getSuggestion] *)

(** [s.startsWith(p)] and [s.includes(t)] on strings. *)
Fixpoint startsWith (s p : jsstring) : bool :=
  match p, s with
  | [], _ => true
  | _ :: _, [] => false
  | b :: p', a :: s' => N.eqb a b && startsWith s' p'
  end.

Fixpoint str_includes (s t : jsstring) : bool :=
  startsWith s t
  || match s with
     | [] => false
     | _ :: s' => str_includes s' t
     end.

Module IndexPage.

(** The two pieces of state of [DictionaryPage] (index.tsx 990-991). *)
Record Page := { searchTerm : jsstring; selectedLetter : jsstring }.

Definition initialPage : Page := {| searchTerm := []; selectedLetter := [] |}.

(** A string used as a condition: true unless empty. *)
Definition truthy (s : jsstring) : bool := negb (length s =? 0).

(** [filteredDictionary] (index.tsx 1001-1014) *)
Definition filteredDictionary (dictionary : list DictionaryEntry) (pg : Page)
  : list DictionaryEntry :=
  let results := dictionary in
  let results :=
    if truthy (selectedLetter pg)
    then filter (λ entry, startsWith (toLowerCase (faka_uvea entry))
                            (toLowerCase (selectedLetter pg)) = true) results
    else results in
  if truthy (searchTerm pg)
  then
    let lowerCaseSearch := toLowerCase (searchTerm pg) in
    filter (λ entry,
              str_includes (toLowerCase (faka_uvea entry)) lowerCaseSearch
              || existsb (λ m, str_includes (toLowerCase m) lowerCaseSearch) (french entry)
              = true) results
  else results.

(** [const suggestion = getSuggestion()] (index.tsx 1044) *)
Definition suggestion (dictionary : list DictionaryEntry) (pg : Page)
  : option DictionaryEntry :=
  Index.getSuggestion (searchTerm pg) (filteredDictionary dictionary pg) dictionary.

(** The [onChange] of the search bar (index.tsx 1055-1058). *)
Definition onSearchChange (value : jsstring) (pg : Page) : Page :=
  {| searchTerm := value; selectedLetter := [] |}.

(** [handleLetterSelect] and [clearFilter] (index.tsx 1016-1024). *)
Definition handleLetterSelect (letter : jsstring) (pg : Page) : Page :=
  {| searchTerm := []; selectedLetter := letter |}.

Definition clearFilter (pg : Page) : Page :=
  {| searchTerm := []; selectedLetter := [] |}.

(** The link shown with a suggestion, [setSearchTerm(suggestion.faka_uvea)]
    (index.tsx 1085); without a suggestion there is no link. *)
Definition onSuggestionClick (dictionary : list DictionaryEntry) (pg : Page) : Page :=
  match suggestion dictionary pg with
  | Some e => {| searchTerm := faka_uvea e; selectedLetter := selectedLetter pg |}
  | None => pg
  end.

(** What the user can do on the page. *)
Inductive Event :=
| Type_ (value : jsstring)
| SelectLetter (letter : jsstring)
| Clear
| ClickSuggestion.

Definition step (dictionary : list DictionaryEntry) (pg : Page) (ev : Event) : Page :=
  match ev with
  | Type_ value => onSearchChange value pg
  | SelectLetter letter => handleLetterSelect letter pg
  | Clear => clearFilter pg
  | ClickSuggestion => onSuggestionClick dictionary pg
  end.

Definition run (dictionary : list DictionaryEntry) (events : list Event) : Page :=
  fold_left (step dictionary) events initialPage.

End IndexPage.

Lemma startsWith_refl s : startsWith s s = true.
Proof. induction s as [|a s IH]; [done|]. cbn. by rewrite N.eqb_refl. Qed.

Lemma str_includes_refl s : str_includes s s = true.
Proof. destruct s; cbn; [done|]. by rewrite N.eqb_refl, startsWith_refl. Qed.

Lemma getSuggestion_Some q filtered dictionary e :
  Index.getSuggestion q filtered dictionary = Some e →
  2 < length q ∧ filtered = [] ∧ ∃ i, first_closest q dictionary i e.
Proof.
  unfold Index.getSuggestion.
  destruct (Nat.ltb_spec 2 (length q)) as [Hlen|]; [|done].
  destruct filtered as [|x filtered]; [|done]. cbn [length Nat.eqb andb].
  intros He. split; [done|]. split; [done|].
  pose proof (scanned_first_closest q dictionary _ (scanned_all q dictionary)) as Hres.
  by rewrite He in Hres.
Qed.

(** A search term and a letter are never set together. *)
Definition one_filter (pg : IndexPage.Page) : Prop :=
  IndexPage.searchTerm pg = [] ∨ IndexPage.selectedLetter pg = [].

Lemma suggestion_letter_off dictionary pg e :
  one_filter pg → IndexPage.suggestion dictionary pg = Some e →
  IndexPage.selectedLetter pg = [].
Proof.
  intros [Hs|Hl] He; [|done].
  apply getSuggestion_Some in He as [Hlen _]. rewrite Hs in Hlen. cbn in Hlen. lia.
Qed.

Lemma run_one_filter dictionary events : one_filter (IndexPage.run dictionary events).
Proof.
  unfold IndexPage.run.
  apply (fold_left_invariant (IndexPage.step dictionary) (λ _ pg, one_filter pg)).
  - by left.
  - intros _ pg [value|letter| |] Hpg; cbn [IndexPage.step].
    + by right.
    + by left.
    + by left.
    + unfold IndexPage.onSuggestionClick.
      destruct (IndexPage.suggestion dictionary pg) as [e|] eqn:He; [|done].
      right. cbn. exact (suggestion_letter_off dictionary pg e Hpg He).
Qed.

Lemma suggestion_not_equal dictionary pg e :
  IndexPage.selectedLetter pg = [] → IndexPage.suggestion dictionary pg = Some e →
  ∃ n, Lev.levenshteinDistance (IndexPage.searchTerm pg) (faka_uvea e) = Some n
    ∧ 1 ≤ n ≤ 3.
Proof.
  intros Hl He. unfold IndexPage.suggestion in He.
  apply getSuggestion_Some in He as (Hlen & Hfilt & i & Hi & Hle & _).
  exists (distance (IndexPage.searchTerm pg) e).
  split; [apply levenshteinDistance_dist_rec|]. split; [|done].
  destruct (decide (distance (IndexPage.searchTerm pg) e = 0)) as [Hzero|]; [|lia]. exfalso.
  assert (Heq : toLowerCase (IndexPage.searchTerm pg) = toLowerCase (faka_uvea e))
    by (by apply dist_rec_zero).
  assert (Hin : e ∈ IndexPage.filteredDictionary dictionary pg).
  { unfold IndexPage.filteredDictionary, IndexPage.truthy. rewrite Hl. cbn [length Nat.eqb negb].
    destruct (length (IndexPage.searchTerm pg)) eqn:Hq; [lia|]. cbn [Nat.eqb negb].
    apply list_elem_of_filter. split; [|by eapply list_elem_of_lookup_2].
    by rewrite Heq, str_includes_refl. }
  rewrite Hfilt in Hin. by apply elem_of_nil in Hin.
Qed.

(** X10. On the dictionary page of index.tsx a search term and a letter are
    never set together, whatever the user types, selects or clicks; and a
    suggestion shown on the page is never the query itself up to case: its
    distance to the query is 1, 2 or 3. *)
Theorem page_suggestion_differs (dictionary : list DictionaryEntry)
    (events : list IndexPage.Event) :
  one_filter (IndexPage.run dictionary events)
  ∧ ∀ e, IndexPage.suggestion dictionary (IndexPage.run dictionary events) = Some e →
      IndexPage.selectedLetter (IndexPage.run dictionary events) = []
      ∧ ∃ n, Lev.levenshteinDistance
               (IndexPage.searchTerm (IndexPage.run dictionary events)) (faka_uvea e)
             = Some n
          ∧ 1 ≤ n ≤ 3.
Proof.
  pose proof (run_one_filter dictionary events) as Hone. split; [done|].
  intros e He. pose proof (suggestion_letter_off _ _ _ Hone He) as Hl.
  split; [done|]. by apply (suggestion_not_equal dictionary).
Qed.

Lemma run_snoc dictionary events ev :
  IndexPage.run dictionary (events ++ [ev])
  = IndexPage.step dictionary (IndexPage.run dictionary events) ev.
Proof. unfold IndexPage.run. by rewrite fold_left_app. Qed.

(** X11. Clicking the suggestion never leads to another empty page: after
    the click the result list holds the suggested entry, and no suggestion is
    shown. *)
Theorem suggestion_click_finds_entry (dictionary : list DictionaryEntry)
    (events : list IndexPage.Event) (e : DictionaryEntry) :
  IndexPage.suggestion dictionary (IndexPage.run dictionary events) = Some e →
  e ∈ IndexPage.filteredDictionary dictionary
        (IndexPage.run dictionary (events ++ [IndexPage.ClickSuggestion]))
  ∧ IndexPage.suggestion dictionary
      (IndexPage.run dictionary (events ++ [IndexPage.ClickSuggestion])) = None.
Proof.
  intros He. rewrite !run_snoc.
  pose proof (suggestion_letter_off _ _ _ (run_one_filter dictionary events) He) as Hl.
  cbn [IndexPage.step]. unfold IndexPage.onSuggestionClick. rewrite He, Hl.
  assert (Hin : e ∈ dictionary).
  { unfold IndexPage.suggestion in He.
    apply getSuggestion_Some in He as (_ & _ & i & Hi & _). by eapply list_elem_of_lookup_2. }
  assert (Hres : e ∈ IndexPage.filteredDictionary dictionary
                       {| IndexPage.searchTerm := faka_uvea e;
                          IndexPage.selectedLetter := [] |}).
  { unfold IndexPage.filteredDictionary, IndexPage.truthy.
    cbn [IndexPage.searchTerm IndexPage.selectedLetter length Nat.eqb negb].
    destruct (negb (length (faka_uvea e) =? 0)); [|done].
    apply list_elem_of_filter. split; [|done]. by rewrite str_includes_refl. }
  split; [done|]. unfold IndexPage.suggestion, Index.getSuggestion.
  destruct (IndexPage.filteredDictionary dictionary _) as [|x l]; [by apply elem_of_nil in Hres|].
  cbn [length Nat.eqb]. by rewrite andb_false_r.
Qed.

Definition alofa_page : list IndexPage.Event := [IndexPage.Type_ (str "alofe")].

Lemma suggestion_click_finds_entry_witness :
  alofa ∈ IndexPage.filteredDictionary [aliki; alofa]
            (IndexPage.run [aliki; alofa] (alofa_page ++ [IndexPage.ClickSuggestion]))
  ∧ IndexPage.suggestion [aliki; alofa]
      (IndexPage.run [aliki; alofa] (alofa_page ++ [IndexPage.ClickSuggestion])) = None.
Proof.
  apply (suggestion_click_finds_entry [aliki; alofa] alofa_page alofa).
  vm_compute. reflexivity.
Defined.

(** ** Favourites and history (the three application files) *)


(** [logHistory] (index.tsx 511-513, vite.config.ts 606-608, and lines
    1928-1934 of the third file, which filters, unshifts and slices): the
    state update applied to the previous history. *)
Definition logHistory (faka_uvea : jsstring) (prev : list jsstring) : list jsstring :=
  take 50 (faka_uvea :: filter (λ item, item ≠ faka_uvea) prev).

(** [toggleFavorite] (vite.config.ts 598-604, lines 1918-1926 of the third
    file): the state update applied to the previous favourites. *)
Definition toggleFavorite (faka_uvea : jsstring) (prev : list jsstring) : list jsstring :=
  if includes prev faka_uvea
  then filter (λ fav, fav ≠ faka_uvea) prev
  else prev ++ [faka_uvea].

Lemma filter_all {A} (P : A → Prop) `{∀ x, Decision (P x)} (l : list A) :
  Forall P l → filter P l = l.
Proof.
  induction 1 as [|x l Hx Hl IH]; [done|].
  rewrite filter_cons_True by done. by rewrite IH.
Qed.

Lemma filter_others (w : jsstring) (l : list jsstring) :
  Forall (λ item, item ≠ w) (filter (λ item, item ≠ w) l).
Proof. apply Forall_forall. by intros x [? _]%list_elem_of_filter. Qed.

Lemma logHistory_cons w prev :
  logHistory w prev = w :: take 49 (filter (λ item, item ≠ w) prev).
Proof. reflexivity. Qed.

(** X12. [logHistory] puts the word at the front of the history and removes
    its earlier occurrences; the history never exceeds 50 entries, holds only
    the new word and words it held before, stays free of duplicates, and
    logging the same word twice in a row is the same as logging it once. *)
Theorem logHistory_properties (w : jsstring) (prev : list jsstring) :
  logHistory w prev !! 0 = Some w
  ∧ length (logHistory w prev) ≤ 50
  ∧ (w ∉ drop 1 (logHistory w prev))
  ∧ (∀ x, x ∈ logHistory w prev → x = w ∨ x ∈ prev)
  ∧ (NoDup prev → NoDup (logHistory w prev))
  ∧ logHistory w (logHistory w prev) = logHistory w prev.
Proof.
  pose proof (filter_others w prev) as Hothers.
  assert (Htake : Forall (λ item, item ≠ w) (take 49 (filter (λ item, item ≠ w) prev))).
  { apply Forall_forall. intros x Hx%elem_of_take. destruct Hx as (i & Hx & _).
    apply list_elem_of_lookup_2 in Hx. rewrite Forall_forall in Hothers. by apply Hothers. }
  split; [done|]. split; [unfold logHistory; rewrite length_take; lia|].
  rewrite logHistory_cons. cbn [drop]. split; [|split; [|split]].
  - rewrite Forall_forall in Htake. intros Hin. by apply (Htake w Hin).
  - intros x [->|Hx]%elem_of_cons; [by left|]. right.
    apply elem_of_take in Hx as (i & Hx & _). apply list_elem_of_lookup_2 in Hx.
    by apply list_elem_of_filter in Hx as [_ ?].
  - intros Hnd. apply NoDup_cons. split.
    + rewrite Forall_forall in Htake. intros Hin. by apply (Htake w Hin).
    + eapply sublist_NoDup; [|apply sublist_take]. by apply NoDup_filter.
  - rewrite logHistory_cons. rewrite filter_cons_False by (by intros ?).
    rewrite (filter_all _ _ Htake). by rewrite take_take.
Qed.

Lemma toggleFavorite_listed w prev :
  w ∈ prev → toggleFavorite w prev = filter (λ fav, fav ≠ w) prev.
Proof. intros Hin%includes_elem_of. unfold toggleFavorite. by rewrite Hin. Qed.

Lemma toggleFavorite_fresh w prev : w ∉ prev → toggleFavorite w prev = prev ++ [w].
Proof. intros Hin%includes_not_elem_of. unfold toggleFavorite. by rewrite Hin. Qed.

(** X13. [toggleFavorite] flips the word and leaves the others alone: the
    word is a favourite afterwards exactly when it was not before, every
    other word keeps its status, and a list free of duplicates stays so.
    Toggling twice gives back the same favourites, in the same order when the
    word was not a favourite to begin with. *)
Theorem toggleFavorite_properties (w : jsstring) (prev : list jsstring) :
  (w ∈ toggleFavorite w prev ↔ w ∉ prev)
  ∧ (∀ x, x ≠ w → (x ∈ toggleFavorite w prev ↔ x ∈ prev))
  ∧ (NoDup prev → NoDup (toggleFavorite w prev))
  ∧ (w ∉ prev → toggleFavorite w (toggleFavorite w prev) = prev)
  ∧ (NoDup prev → toggleFavorite w (toggleFavorite w prev) ≡ₚ prev).
Proof.
  assert (Hflip : ∀ l, w ∈ toggleFavorite w l ↔ w ∉ l).
  { intros l. destruct (decide (w ∈ l)) as [Hin|Hnot].
    - rewrite toggleFavorite_listed by done. rewrite list_elem_of_filter. tauto.
    - rewrite toggleFavorite_fresh by done. rewrite elem_of_app, list_elem_of_singleton. tauto. }
  assert (Hother : ∀ l x, x ≠ w → x ∈ toggleFavorite w l ↔ x ∈ l).
  { intros l x Hx. destruct (decide (w ∈ l)) as [Hin|Hnot].
    - rewrite toggleFavorite_listed by done. rewrite list_elem_of_filter. tauto.
    - rewrite toggleFavorite_fresh by done. rewrite elem_of_app, list_elem_of_singleton. tauto. }
  assert (Hnd : ∀ l, NoDup l → NoDup (toggleFavorite w l)).
  { intros l Hl. destruct (decide (w ∈ l)) as [Hin|Hnot].
    - rewrite toggleFavorite_listed by done. by apply NoDup_filter.
    - rewrite toggleFavorite_fresh by done. apply NoDup_app. split; [done|].
      split; [|apply NoDup_singleton]. by intros x Hx ->%list_elem_of_singleton. }
  split; [apply Hflip|]. split; [apply Hother|]. split; [apply Hnd|]. split.
  - intros Hnot. rewrite (toggleFavorite_fresh w prev) by done.
    rewrite toggleFavorite_listed by (apply elem_of_app; right; by apply list_elem_of_singleton).
    rewrite filter_app, filter_cons_False by (by intros ?).
    rewrite filter_nil, app_nil_r. apply filter_all.
    apply Forall_forall. by intros x Hx ->.
  - intros Hprev. apply NoDup_Permutation; [by apply Hnd, Hnd|done|].
    intros x. destruct (decide (x = w)) as [->|Hx].
    + rewrite Hflip, Hflip. destruct (decide (w ∈ prev)); tauto.
    + by rewrite !Hother.
Qed.

(** ** Users (index.tsx 539-587, vite.config.ts 504-548) *)

Inductive Role := role_user | role_admin.

(** [User]: the password is optional. *)
Record User := {
  id : jsstring;
  username : jsstring;
  password : option jsstring;
  role : Role
}.

(** [a || b] on optional strings: [a] unless it is missing or empty. *)
Definition or_else (a b : option jsstring) : option jsstring :=
  match a with
  | Some (_ :: _) => a
  | _ => b
  end.

Module IndexAuth.

(** [login] (index.tsx 543-550): the flag returned and the new [user]. *)
Definition login (users : list User) (user : option User) (name pass : jsstring)
  : bool * option User :=
  match List.find (λ u, jsstring_eqb (toLowerCase (username u)) (toLowerCase name)
                        && match password u with
                           | Some p => jsstring_eqb p pass
                           | None => false
                           end) users with
  | Some foundUser => (true, Some foundUser)
  | None => (false, user)
  end.

(** [updateUser] (index.tsx 562-570) *)
Definition updateUser (userToUpdate : User) (prev : list User) : list User :=
  (λ u, if jsstring_eqb (id u) (id userToUpdate)
        then {| id := id userToUpdate; username := username userToUpdate;
                password := or_else (password userToUpdate) (password u);
                role := role userToUpdate |}
        else u) <$> prev.

(** [deleteUser] (index.tsx 572-574) *)
Definition deleteUser (userId : jsstring) (prev : list User) : list User :=
  filter (λ u, id u ≠ userId) prev.

End IndexAuth.

Module ViteAuth.

(** [login] (vite.config.ts 509-518): the user name is compared as it is. *)
Definition login (users : list User) (user : option User) (name pass : jsstring)
  : bool * option User :=
  match List.find (λ u, jsstring_eqb (username u) name
                        && match password u with
                           | Some p => jsstring_eqb p pass
                           | None => false
                           end) users with
  | Some foundUser => (true, Some foundUser)
  | None => (false, user)
  end.

(** [deleteUser] (vite.config.ts 535-542): [user] is the account logged in. *)
Definition deleteUser (user : option User) (userId : jsstring) (prev : list User)
  : list User :=
  match user with
  | Some current =>
      if jsstring_eqb (id current) userId then prev
      else filter (λ u, id u ≠ userId) prev
  | None => filter (λ u, id u ≠ userId) prev
  end.

End ViteAuth.

Lemma find_some_exists {A} (f : A → bool) (l : list A) x :
  x ∈ l → f x = true → ∃ y, List.find f l = Some y.
Proof.
  intros Hin Hf. destruct (List.find f l) as [y|] eqn:Hfind; [by exists y|].
  apply list_elem_of_In in Hin. by rewrite (find_none _ _ Hfind x Hin) in Hf.
Qed.

Lemma jsstring_eqb_refl s : jsstring_eqb s s = true.
Proof. by apply jsstring_eqb_eq. Qed.

(** The password field of the form was left blank. *)
Definition blank (p : option jsstring) : Prop := p = None ∨ p = Some [].

(** X14. [updateUser] of index.tsx rewrites the accounts with the given id
    and no other, keeps the number and the ids of the accounts, and keeps the
    old password when the new one is blank: the account can then still log in
    under its new name with its old password, and with the new password when
    one was given. *)
Theorem updateUser_keeps_blank_password (target : User) (users : list User)
    (user : option User) :
  id <$> IndexAuth.updateUser target users = id <$> users
  ∧ (∀ u, u ∈ users → id u ≠ id target → u ∈ IndexAuth.updateUser target users)
  ∧ (∀ u old, u ∈ users → id u = id target → password u = Some old →
       blank (password target) →
       (IndexAuth.login (IndexAuth.updateUser target users) user (username target) old).1
       = true)
  ∧ (∀ u ch new, u ∈ users → id u = id target → password target = Some (ch :: new) →
       (IndexAuth.login (IndexAuth.updateUser target users) user (username target)
          (ch :: new)).1 = true).
Proof.
  assert (Hupd : ∀ u, u ∈ users → id u = id target →
            {| id := id target; username := username target;
               password := or_else (password target) (password u);
               role := role target |} ∈ IndexAuth.updateUser target users).
  { intros u Hu Hid. unfold IndexAuth.updateUser. apply list_elem_of_fmap.
    exists u. split; [|done]. by rewrite Hid, jsstring_eqb_refl. }
  assert (Hlogin : ∀ v pass, v ∈ IndexAuth.updateUser target users →
            username v = username target → password v = Some pass →
            (IndexAuth.login (IndexAuth.updateUser target users) user
               (username target) pass).1 = true).
  { intros v pass Hv Hname Hpass. unfold IndexAuth.login.
    destruct (find_some_exists
                (λ u, jsstring_eqb (toLowerCase (username u)) (toLowerCase (username target))
                      && match password u with
                         | Some p => jsstring_eqb p pass
                         | None => false
                         end) _ v Hv) as [y ->]; [|done].
    by rewrite Hname, Hpass, !jsstring_eqb_refl. }
  split; [|split; [|split]].
  - unfold IndexAuth.updateUser. rewrite <- list_fmap_compose.
    apply list_fmap_ext. intros i u _. cbn.
    destruct (jsstring_eqb (id u) (id target)) eqn:Heq; [|done].
    by apply jsstring_eqb_eq in Heq.
  - intros u Hu Hid. unfold IndexAuth.updateUser. apply list_elem_of_fmap.
    exists u. split; [|done].
    destruct (jsstring_eqb (id u) (id target)) eqn:Heq; [|done].
    by apply jsstring_eqb_eq in Heq.
  - intros u old Hu Hid Hold Hblank.
    apply (Hlogin _ old (Hupd u Hu Hid)); [done|]. cbn [password].
    rewrite Hold. by destruct Hblank as [-> | ->].
  - intros u ch new Hu Hid Hnew.
    apply (Hlogin _ (ch :: new) (Hupd u Hu Hid)); [done|]. cbn [password].
    by rewrite Hnew.
Qed.

(** X15. In vite.config.ts the account logged in cannot be deleted: after
    [deleteUser], whatever the id, that account is still in the list and can
    still log in; for any other id, no account with that id is left and the
    other accounts are all kept. *)
Theorem deleteUser_keeps_current (current : User) (userId : jsstring)
    (users : list User) :
  (current ∈ users → current ∈ ViteAuth.deleteUser (Some current) userId users)
  ∧ (∀ pass, current ∈ users → password current = Some pass →
       (ViteAuth.login (ViteAuth.deleteUser (Some current) userId users) (Some current)
          (username current) pass).1 = true)
  ∧ (id current ≠ userId →
     ∀ u, u ∈ ViteAuth.deleteUser (Some current) userId users ↔ (u ∈ users ∧ id u ≠ userId)).
Proof.
  assert (Hkeep : current ∈ users → current ∈ ViteAuth.deleteUser (Some current) userId users).
  { intros Hin. unfold ViteAuth.deleteUser.
    destruct (jsstring_eqb (id current) userId) eqn:Heq; [done|].
    apply list_elem_of_filter. split; [|done]. intros Hid.
    rewrite Hid, jsstring_eqb_refl in Heq. done. }
  split; [done|]. split.
  - intros pass Hin Hpass. unfold ViteAuth.login.
    destruct (find_some_exists
                (λ u, jsstring_eqb (username u) (username current)
                      && match password u with
                         | Some p => jsstring_eqb p pass
                         | None => false
                         end) _ current (Hkeep Hin)) as [y ->]; [|done].
    by rewrite Hpass, !jsstring_eqb_refl.
  - intros Hid u. unfold ViteAuth.deleteUser.
    destruct (jsstring_eqb (id current) userId) eqn:Heq.
    + by apply jsstring_eqb_eq in Heq.
    + rewrite list_elem_of_filter. tauto.
Qed.

(** ** Flashcards (index.tsx 1574-1582, vite.config.ts 1454-1465,
    part_000 1018-1026) *)

Module Flashcards.

(** [(prev + 1) % deck.length].  [%] is the remainder of the truncated
    division, and has no value ([NaN]) for an empty deck. *)
Definition handleNext (deck_length : nat) (prev : Z) : option Z :=
  if deck_length =? 0 then None
  else Some (Z.rem (prev + 1) (Z.of_nat deck_length)).

(** [(prev - 1 + deck.length) % deck.length] *)
Definition handlePrev (deck_length : nat) (prev : Z) : option Z :=
  if deck_length =? 0 then None
  else Some (Z.rem (prev - 1 + Z.of_nat deck_length) (Z.of_nat deck_length)).

(** The same button pressed [n] times. *)
Fixpoint presses (handle : Z → option Z) (n : nat) (currentIndex : Z) : option Z :=
  match n with
  | 0 => Some currentIndex
  | S n' => handle currentIndex ≫= presses handle n'
  end.

End Flashcards.

Lemma handleNext_mod (len i : nat) :
  0 < len →
  Flashcards.handleNext len (Z.of_nat i) = Some (Z.of_nat ((i + 1) mod len)).
Proof.
  intros Hlen. unfold Flashcards.handleNext.
  destruct (Nat.eqb_spec len 0) as [?|_]; [lia|]. f_equal.
  rewrite Z.rem_mod_nonneg by lia. rewrite Nat2Z.inj_mod. f_equal. lia.
Qed.

Lemma handlePrev_mod (len i : nat) :
  0 < len → 0 < i + len →
  Flashcards.handlePrev len (Z.of_nat i) = Some (Z.of_nat ((i + len - 1) mod len)).
Proof.
  intros Hlen _. unfold Flashcards.handlePrev.
  destruct (Nat.eqb_spec len 0) as [?|_]; [lia|]. f_equal.
  rewrite Z.rem_mod_nonneg by lia. rewrite Nat2Z.inj_mod. f_equal. lia.
Qed.

Lemma presses_next (len n i : nat) :
  0 < len →
  Flashcards.presses (Flashcards.handleNext len) n (Z.of_nat i)
  = Some (Z.of_nat (if n is 0 then i else (i + n) mod len)).
Proof.
  intros Hlen. revert i. induction n as [|n IH]; intros i; [done|].
  cbn [Flashcards.presses]. rewrite handleNext_mod by done. cbn [mbind option_bind].
  rewrite IH. do 2 f_equal. destruct n as [|n]; [done|].
  rewrite Nat.Div0.add_mod_idemp_l. f_equal. lia.
Qed.

(** X16. With a card on show (an index below the length of the deck), Next
    and Previous both lead to an index below the length of the deck, each
    undoes the other, and Next pressed as many times as the deck has cards
    comes back to the same card; on an empty deck neither has a value. *)
Theorem flashcards_round_trip {A} (deck : list A) (i : nat) :
  i < length deck →
  (∃ j, Flashcards.handleNext (length deck) (Z.of_nat i) = Some (Z.of_nat j)
        ∧ is_Some (deck !! j)
        ∧ Flashcards.handlePrev (length deck) (Z.of_nat j) = Some (Z.of_nat i))
  ∧ (∃ j, Flashcards.handlePrev (length deck) (Z.of_nat i) = Some (Z.of_nat j)
        ∧ is_Some (deck !! j)
        ∧ Flashcards.handleNext (length deck) (Z.of_nat j) = Some (Z.of_nat i))
  ∧ Flashcards.presses (Flashcards.handleNext (length deck)) (length deck) (Z.of_nat i)
    = Some (Z.of_nat i)
  ∧ (∀ k, Flashcards.handleNext 0 k = None ∧ Flashcards.handlePrev 0 k = None).
Proof.
  intros Hi. assert (Hlen : 0 < length deck) by lia.
  split; [|split; [|split]].
  - exists ((i + 1) mod length deck).
    assert ((i + 1) mod length deck < length deck) by (apply Nat.mod_upper_bound; lia).
    split; [by apply handleNext_mod|]. split; [by apply lookup_lt_is_Some|].
    rewrite handlePrev_mod by lia. do 2 f_equal.
    destruct (decide (i + 1 = length deck)) as [Heq|Hne].
    + rewrite Heq, Nat.Div0.mod_same. cbn [Nat.add].
      rewrite Nat.mod_small by lia. lia.
    + rewrite (Nat.mod_small (i + 1)) by lia.
      replace (i + 1 + length deck - 1) with (i + 1 * length deck) by lia.
      rewrite Nat.Div0.mod_add. by apply Nat.mod_small.
  - exists ((i + length deck - 1) mod length deck).
    assert ((i + length deck - 1) mod length deck < length deck)
      by (apply Nat.mod_upper_bound; lia).
    split; [apply handlePrev_mod; lia|]. split; [by apply lookup_lt_is_Some|].
    rewrite handleNext_mod by lia. do 2 f_equal.
    destruct i as [|i].
    + cbn [Nat.add]. rewrite (Nat.mod_small (length deck - 1)) by lia.
      replace (length deck - 1 + 1) with (length deck) by lia.
      by rewrite Nat.Div0.mod_same.
    + replace (S i + length deck - 1) with (i + 1 * length deck) by lia.
      rewrite Nat.Div0.mod_add. rewrite (Nat.mod_small i) by lia.
      rewrite Nat.mod_small by lia. lia.
  - rewrite presses_next by done. do 2 f_equal.
    destruct (length deck) as [|n] eqn:Hn; [lia|].
    replace (i + S n) with (i + 1 * S n) by lia.
    rewrite Nat.Div0.mod_add. apply Nat.mod_small. lia.
  - done.
Qed.

Lemma flashcards_round_trip_witness :
  (∃ j, Flashcards.handleNext 3 2 = Some (Z.of_nat j)
        ∧ is_Some ([alofa; aliki; alofa] !! j)
        ∧ Flashcards.handlePrev 3 (Z.of_nat j) = Some 2%Z)
  ∧ (∃ j, Flashcards.handlePrev 3 2 = Some (Z.of_nat j)
        ∧ is_Some ([alofa; aliki; alofa] !! j)
        ∧ Flashcards.handleNext 3 (Z.of_nat j) = Some 2%Z)
  ∧ Flashcards.presses (Flashcards.handleNext 3) 3 2 = Some 2%Z
  ∧ (∀ k, Flashcards.handleNext 0 k = None ∧ Flashcards.handlePrev 0 k = None).
Proof. apply (flashcards_round_trip [alofa; aliki; alofa] 2). cbn. lia. Defined.

(** ** The hangman game of index.tsx (1847-1885) *)

Module IndexHangman.

(** The state of the component ([hint] is only displayed).  The set
    [guessedLetters] is kept in insertion order. *)
Record Hangman := {
  word : jsstring;
  guessedLetters : list jsstring;
  wrongGuesses : nat
}.

(** [new Set(prev).add(x)] *)
Definition add (set : list jsstring) (x : jsstring) : list jsstring :=
  if includes set x then set else set ++ [x].

(** What [useState] and [startNewGame] leave for a word. *)
Definition newGame (w : jsstring) : Hangman :=
  {| word := w; guessedLetters := []; wrongGuesses := 0 |}.

Definition isWon (s : Hangman) : bool :=
  match word s with
  | [] => false
  | _ :: _ =>
      forallb (λ letter, includes (guessedLetters s) [letter] || N.eqb letter (code "'"))
              (word s)
  end.

Definition isLost (s : Hangman) : bool := 6 <=? wrongGuesses s.

Definition isGameOver (s : Hangman) : bool := isWon s || isLost s.

(** [handleGuess]; [normalize] (Unicode decomposition, accents removed, upper
    case) is a parameter. *)
Definition handleGuess (normalize : jsstring → jsstring) (letter : jsstring)
    (s : Hangman) : Hangman :=
  let normalizedLetter := normalize letter in
  if includes (guessedLetters s) normalizedLetter || isGameOver s then s
  else {| word := word s;
          guessedLetters := add (guessedLetters s) normalizedLetter;
          wrongGuesses := if str_includes (word s) normalizedLetter
                          then wrongGuesses s else S (wrongGuesses s) |}.

(** The guesses of a game, in order. *)
Definition play (normalize : jsstring → jsstring) (letters : list jsstring)
    (s : Hangman) : Hangman :=
  fold_left (λ s letter, handleGuess normalize letter s) letters s.

End IndexHangman.

Lemma startsWith_cons c s : startsWith (c :: s) [c] = true.
Proof. cbn. rewrite N.eqb_refl. by destruct s. Qed.

Lemma str_includes_char c s : c ∈ s → str_includes s [c] = true.
Proof.
  induction 1 as [c s|c d s _ IH].
  - cbn [str_includes]. by rewrite startsWith_cons.
  - cbn [str_includes]. rewrite IH. apply orb_true_r.
Qed.

(** What every reachable state of the game satisfies. *)
Definition hangman_ok (s : IndexHangman.Hangman) : Prop :=
  NoDup (IndexHangman.guessedLetters s)
  ∧ IndexHangman.wrongGuesses s ≤ 6
  ∧ IndexHangman.wrongGuesses s
    = length (filter (λ l, str_includes (IndexHangman.word s) l = false)
                     (IndexHangman.guessedLetters s))
  ∧ (IndexHangman.isWon s = true → IndexHangman.wrongGuesses s < 6).

Lemma isWon_wrong_guess w guessed l n n' :
  str_includes w l = false →
  IndexHangman.isWon {| IndexHangman.word := w;
                        IndexHangman.guessedLetters := guessed ++ [l];
                        IndexHangman.wrongGuesses := n |} = true →
  IndexHangman.isWon {| IndexHangman.word := w;
                        IndexHangman.guessedLetters := guessed;
                        IndexHangman.wrongGuesses := n' |} = true.
Proof.
  unfold IndexHangman.isWon. cbn [IndexHangman.word IndexHangman.guessedLetters].
  intros Hl. destruct w as [|c w]; [done|]. set (w' := c :: w) in *.
  rewrite !forallb_forall. intros Hall letter Hin.
  specialize (Hall letter Hin). apply orb_true_iff in Hall as [Hall|Hall].
  - apply includes_elem_of, elem_of_app in Hall as [Hall|Hall].
    + apply orb_true_iff. left. by apply includes_elem_of.
    + apply list_elem_of_singleton in Hall. subst l.
      rewrite str_includes_char in Hl; [done|]. by apply list_elem_of_In.
  - by rewrite Hall, orb_true_r.
Qed.

Lemma hangman_ok_step normalize letter s :
  hangman_ok s → hangman_ok (IndexHangman.handleGuess normalize letter s).
Proof.
  intros (Hnd & Hle & Hcount & Hwon). unfold IndexHangman.handleGuess.
  destruct (includes (IndexHangman.guessedLetters s) (normalize letter)) eqn:Hhas;
    cbn [orb]; [done|].
  destruct (IndexHangman.isGameOver s) eqn:Hover; [done|].
  apply orb_false_iff in Hover as [Hnotwon Hnotlost].
  unfold IndexHangman.isLost in Hnotlost. apply Nat.leb_gt in Hnotlost.
  unfold IndexHangman.add. rewrite Hhas. apply includes_not_elem_of in Hhas.
  unfold hangman_ok. cbn [IndexHangman.word IndexHangman.guessedLetters
                          IndexHangman.wrongGuesses].
  split; [|split; [|split]].
  - apply NoDup_app. split; [done|]. split; [|apply NoDup_singleton].
    intros x Hx ->%list_elem_of_singleton. done.
  - destruct (str_includes _ _); lia.
  - rewrite filter_app, length_app, <- Hcount.
    destruct (str_includes (IndexHangman.word s) (normalize letter)) eqn:Hinc.
    + rewrite filter_cons_False by (by rewrite Hinc). cbn. lia.
    + rewrite filter_cons_True by done. cbn. lia.
  - intros Hwon'.
    destruct (str_includes (IndexHangman.word s) (normalize letter)) eqn:Hinc; [lia|].
    apply (isWon_wrong_guess _ _ _ _ (IndexHangman.wrongGuesses s)) in Hwon'; [|done].
    destruct s. cbn in *. congruence.
Qed.

Lemma hangman_play_word normalize letters s :
  IndexHangman.word (IndexHangman.play normalize letters s) = IndexHangman.word s.
Proof.
  revert s. induction letters as [|l letters IH]; intros s; [done|].
  unfold IndexHangman.play in *. cbn [fold_left]. rewrite IH.
  unfold IndexHangman.handleGuess. by destruct (_ || _).
Qed.

Lemma hangman_ok_play normalize letters s :
  hangman_ok s → hangman_ok (IndexHangman.play normalize letters s).
Proof.
  revert s. induction letters as [|l letters IH]; intros s Hs; [done|].
  unfold IndexHangman.play in *. cbn [fold_left]. by apply IH, hangman_ok_step.
Qed.

(** X17. Whatever is guessed after a new game of hangman, and whatever
    [normalize] does: the word stays, no guess is recorded twice, the count
    of wrong guesses is the number of recorded guesses the word does not
    contain and never passes 6, the game is never both won and lost, and once
    it is over a further guess changes nothing. *)
Theorem hangman_invariants (normalize : jsstring → jsstring) (w : jsstring)
    (letters : list jsstring) :
  let s := IndexHangman.play normalize letters (IndexHangman.newGame w) in
  IndexHangman.word s = w
  ∧ NoDup (IndexHangman.guessedLetters s)
  ∧ IndexHangman.wrongGuesses s
    = length (filter (λ l, str_includes w l = false) (IndexHangman.guessedLetters s))
  ∧ IndexHangman.wrongGuesses s ≤ 6
  ∧ (IndexHangman.isWon s && IndexHangman.isLost s = false)
  ∧ (IndexHangman.isGameOver s = true →
     ∀ letter, IndexHangman.handleGuess normalize letter s = s).
Proof.
  intros s.
  assert (Hw : IndexHangman.word s = w) by apply hangman_play_word.
  destruct (hangman_ok_play normalize letters (IndexHangman.newGame w))
    as (Hnd & Hle & Hcount & Hwon).
  { repeat split; cbn; [apply NoDup_nil_2|lia|lia]. }
  fold s in Hnd, Hle, Hcount, Hwon. rewrite Hw in Hcount.
  repeat split; try done.
  - destruct (IndexHangman.isWon s) eqn:Hwon'; [|done]. cbn [andb].
    unfold IndexHangman.isLost. apply Nat.leb_gt. by apply Hwon.
  - intros Hover letter. unfold IndexHangman.handleGuess.
    by rewrite Hover, orb_true_r.
Qed.

(** ** The memory game of part_000 (931-968) *)

(** The decimal digits of a number, as [i + '_w'] writes them. *)
Fixpoint digits (fuel n : nat) (acc : jsstring) : jsstring :=
  match fuel with
  | 0 => acc
  | S fuel' =>
      let acc' := N.of_nat (48 + n mod 10) :: acc in
      if n / 10 =? 0 then acc' else digits fuel' (n / 10) acc'
  end.

Definition Number_toString (n : nat) : jsstring := digits (S n) n [].

Module ThirdMemory.

(** An entry of [DICTIONARY_DATA], as far as the game reads it. *)
Record Word := {
  faka_uvea : jsstring;
  french : jsstring
}.

Record Card := {
  id : jsstring;
  value : jsstring;
  pairId : nat
}.

Record Memory := {
  cards : list Card;
  flipped : list nat;
  matched : list nat;
  moves : nat
}.

Section Shuffle.

(** [sort(() => 0.5 - Math.random())] *)
Variable shuffle : ∀ A : Type, list A → list A.

(** [setupGame] (part_000 937-947) *)
Definition setupGame (DICTIONARY_DATA : list Word) : Memory :=
  let words := take 6 (shuffle _ DICTIONARY_DATA) in
  let gameCards :=
    shuffle _ (mjoin (imap (λ i word,
      [ {| id := Number_toString i ++ str "_w"; value := faka_uvea word; pairId := i |};
        {| id := Number_toString i ++ str "_f"; value := french word; pairId := i |} ])
      words)) in
  {| cards := gameCards; flipped := []; matched := []; moves := 0 |}.

End Shuffle.

(** [handleFlip] (part_000 953-968).  Reading [pairId] of a card that is not
    there fails.  The state it returns is the one after both [setFlipped]. *)
Definition handleFlip (index : nat) (s : Memory) : option Memory :=
  if (length (flipped s) =? 2) || bool_decide (index ∈ flipped s) then Some s
  else
    card ← cards s !! index;
    if bool_decide (pairId card ∈ matched s) then Some s
    else
      let newFlipped := flipped s ++ [index] in
      if length newFlipped =? 2 then
        firstIndex ← newFlipped !! 0;
        secondIndex ← newFlipped !! 1;
        first ← cards s !! firstIndex;
        second ← cards s !! secondIndex;
        if pairId first =? pairId second then
          Some {| cards := cards s; flipped := [];
                  matched := matched s ++ [pairId first]; moves := S (moves s) |}
        else
          Some {| cards := cards s; flipped := newFlipped;
                  matched := matched s; moves := S (moves s) |}
      else
        Some {| cards := cards s; flipped := newFlipped;
                matched := matched s; moves := moves s |}.

(** The timer set after two cards that do not match: [setFlipped([])]. *)
Definition turnBack (s : Memory) : Memory :=
  {| cards := cards s; flipped := []; matched := matched s; moves := moves s |}.

(** What happens to the component: a card is clicked, or a timer fires. *)
Inductive Event := Flip (index : nat) | Timer.

Definition step (s : Memory) (e : Event) : option Memory :=
  match e with
  | Flip index => handleFlip index s
  | Timer => Some (turnBack s)
  end.

Fixpoint run (events : list Event) (s : Memory) : option Memory :=
  match events with
  | [] => Some s
  | e :: events' => step s e ≫= run events'
  end.

End ThirdMemory.

(** What every reachable state of the memory game satisfies, for the cards
    [cs] dealt. *)
Definition memory_ok (cs : list ThirdMemory.Card) (s : ThirdMemory.Memory) : Prop :=
  ThirdMemory.cards s = cs
  ∧ NoDup (ThirdMemory.matched s)
  ∧ (∀ p, p ∈ ThirdMemory.matched s → ∃ card, card ∈ cs ∧ ThirdMemory.pairId card = p)
  ∧ length (ThirdMemory.flipped s) ≤ 2
  ∧ NoDup (ThirdMemory.flipped s)
  ∧ (∀ i, i ∈ ThirdMemory.flipped s →
       ∃ card, cs !! i = Some card ∧ ThirdMemory.pairId card ∉ ThirdMemory.matched s)
  ∧ length (ThirdMemory.matched s) ≤ ThirdMemory.moves s.

Lemma memory_ok_handleFlip cs s index :
  memory_ok cs s → index < length cs →
  ∃ s', ThirdMemory.handleFlip index s = Some s' ∧ memory_ok cs s'.
Proof.
  intros Hok Hindex. pose proof Hok as (Hcards & Hnd & Hsub & Hlen & Hndf & Hfl & Hmoves).
  unfold ThirdMemory.handleFlip.
  destruct (Nat.eqb_spec (length (ThirdMemory.flipped s)) 2) as [|Hne];
    cbn [orb]; [by exists s|].
  destruct (bool_decide_reflect (index ∈ ThirdMemory.flipped s)) as [|Hfresh];
    [by exists s|].
  rewrite Hcards. destruct (lookup_lt_is_Some_2 cs index Hindex) as [card Hcard].
  rewrite Hcard. cbn [mbind option_bind].
  destruct (bool_decide_reflect (ThirdMemory.pairId card ∈ ThirdMemory.matched s))
    as [|Hunmatched]; [by exists s|].
  destruct (ThirdMemory.flipped s) as [|a [|b rest]] eqn:Hflipped;
    cbn [length] in Hlen, Hne; [| |lia].
  - cbn. eexists. split; [done|].
    unfold memory_ok. cbn [ThirdMemory.cards ThirdMemory.matched ThirdMemory.flipped
                            ThirdMemory.moves].
    repeat split; try done.
    + cbn. lia.
    + apply NoDup_singleton.
    + intros i ->%list_elem_of_singleton. by exists card.
  - destruct (Hfl a) as (first & Hfirst & Hfirst_unmatched); [apply list_elem_of_here|].
    cbn [app length Nat.eqb lookup list_lookup mbind option_bind].
    rewrite Hfirst, Hcard. cbn [mbind option_bind].
    destruct (Nat.eqb_spec (ThirdMemory.pairId first) (ThirdMemory.pairId card)) as [Heq|Hdiff].
    + eexists. split; [done|].
      unfold memory_ok. cbn [ThirdMemory.cards ThirdMemory.matched ThirdMemory.flipped
                              ThirdMemory.moves].
      repeat split; try done.
      * apply NoDup_app. split; [done|]. split; [|apply NoDup_singleton].
        intros x Hx ->%list_elem_of_singleton. done.
      * intros p [Hp| ->%list_elem_of_singleton]%elem_of_app; [by apply Hsub|].
        exists first. split; [|done]. by eapply list_elem_of_lookup_2.
      * cbn. lia.
      * apply NoDup_nil_2.
      * intros i Hi. by apply elem_of_nil in Hi.
      * rewrite length_app. cbn. lia.
    + eexists. split; [done|].
      unfold memory_ok. cbn [ThirdMemory.cards ThirdMemory.matched ThirdMemory.flipped
                              ThirdMemory.moves].
      repeat split; try done.
      * apply NoDup_cons. split; [|apply NoDup_singleton].
        intros ->%list_elem_of_singleton. apply Hfresh, list_elem_of_here.
      * intros i [->|[->|[]%elem_of_nil]%elem_of_cons]%elem_of_cons;
          [by exists first|by exists card].
      * lia.
Qed.

Lemma memory_ok_turnBack cs s : memory_ok cs s → memory_ok cs (ThirdMemory.turnBack s).
Proof.
  intros (Hcards & Hnd & Hsub & Hlen & Hndf & Hfl & Hmoves).
  unfold memory_ok. cbn [ThirdMemory.turnBack ThirdMemory.cards ThirdMemory.matched
                          ThirdMemory.flipped ThirdMemory.moves].
  repeat split; try done.
  - cbn. lia.
  - apply NoDup_nil_2.
  - intros i Hi. by apply elem_of_nil in Hi.
Qed.

(** The clicks of a list of events fall on cards. *)
Definition clicks_below (n : nat) (events : list ThirdMemory.Event) : Prop :=
  Forall (λ e, match e with ThirdMemory.Flip index => index < n | ThirdMemory.Timer => True end)
         events.

Lemma memory_ok_run cs events s :
  memory_ok cs s → clicks_below (length cs) events →
  ∃ s', ThirdMemory.run events s = Some s' ∧ memory_ok cs s'.
Proof.
  intros Hok Hev. revert s Hok. induction Hev as [|e events He _ IH]; intros s Hok.
  - by exists s.
  - cbn [ThirdMemory.run]. destruct e as [index|]; cbn [ThirdMemory.step].
    + destruct (memory_ok_handleFlip cs s index Hok He) as (s1 & -> & Hok1).
      cbn [mbind option_bind]. by apply IH.
    + cbn [mbind option_bind]. by apply IH, memory_ok_turnBack.
Qed.

Lemma length_join_pairs {A B} (f : nat → A → list B) (l : list A) :
  (∀ i x, length (f i x) = 2) → length (mjoin (imap f l)) = 2 * length l.
Proof.
  revert f. induction l as [|x l IH]; intros f Hf; [done|].
  rewrite imap_cons. cbn [mjoin list_join]. fold (@mjoin list _ B).
  rewrite length_app, Hf. cbn [length]. rewrite IH by (intros; apply Hf). lia.
Qed.

Section MemoryDeal.

Variable shuffle : ∀ A : Type, list A → list A.
Hypothesis shuffle_perm : ∀ (A : Type) (l : list A), shuffle A l ≡ₚ l.

Lemma setupGame_length dict :
  length (ThirdMemory.cards (ThirdMemory.setupGame shuffle dict))
  = 2 * (length dict `min` 6).
Proof.
  unfold ThirdMemory.setupGame. cbn [ThirdMemory.cards].
  rewrite shuffle_perm, length_join_pairs by done.
  rewrite length_take, shuffle_perm. lia.
Qed.

Lemma setupGame_pairIds dict card :
  card ∈ ThirdMemory.cards (ThirdMemory.setupGame shuffle dict) →
  ThirdMemory.pairId card < length dict `min` 6.
Proof.
  unfold ThirdMemory.setupGame. cbn [ThirdMemory.cards]. rewrite shuffle_perm.
  intros (pair & Hcard & Hpair)%list_elem_of_join.
  apply elem_of_lookup_imap in Hpair as (i & word & -> & Hword).
  apply lookup_lt_Some in Hword. rewrite length_take, shuffle_perm in Hword.
  apply elem_of_cons in Hcard as [->|Hcard];
    [|apply list_elem_of_singleton in Hcard as ->]; cbn; lia.
Qed.

Lemma setupGame_ok dict :
  memory_ok (ThirdMemory.cards (ThirdMemory.setupGame shuffle dict))
            (ThirdMemory.setupGame shuffle dict).
Proof.
  unfold memory_ok. cbn [ThirdMemory.setupGame ThirdMemory.cards ThirdMemory.matched
                          ThirdMemory.flipped ThirdMemory.moves].
  repeat split; try done.
  - apply NoDup_nil_2.
  - intros p Hp. by apply elem_of_nil in Hp.
  - cbn. lia.
  - apply NoDup_nil_2.
  - intros p Hp. by apply elem_of_nil in Hp.
Qed.

End MemoryDeal.

(** X18. In the memory game of part_000, clicks on cards and timers never
    fail, in any order, and after them: the cards are those dealt, no pair is
    recorded twice, the pairs found are at most 6 and at most the moves
    counted, at most two cards are face up; and once as many pairs are found
    as were dealt, a click on any card changes nothing. *)
Theorem memory_game_invariants (shuffle : ∀ A : Type, list A → list A)
    (dict : list ThirdMemory.Word) (events : list ThirdMemory.Event) :
  (∀ (A : Type) (l : list A), shuffle A l ≡ₚ l) →
  clicks_below (2 * (length dict `min` 6)) events →
  ∃ s, ThirdMemory.run events (ThirdMemory.setupGame shuffle dict) = Some s
       ∧ ThirdMemory.cards s = ThirdMemory.cards (ThirdMemory.setupGame shuffle dict)
       ∧ NoDup (ThirdMemory.matched s)
       ∧ length (ThirdMemory.matched s) ≤ 6
       ∧ length (ThirdMemory.matched s) ≤ ThirdMemory.moves s
       ∧ length (ThirdMemory.flipped s) ≤ 2
       ∧ (length (ThirdMemory.matched s) = length dict `min` 6 →
          ∀ index, index < length (ThirdMemory.cards s) →
                   ThirdMemory.handleFlip index s = Some s).
Proof.
  intros Hperm Hev. set (n := length dict `min` 6) in *.
  destruct (memory_ok_run (ThirdMemory.cards (ThirdMemory.setupGame shuffle dict)) events
              (ThirdMemory.setupGame shuffle dict)) as (s & Hrun & Hok).
  { by apply setupGame_ok. }
  { by rewrite setupGame_length. }
  exists s. pose proof Hok as (Hcards & Hnd & Hsub & Hlen & Hndf & Hfl & Hmoves).
  assert (Hincl : ThirdMemory.matched s ⊆ seq 0 n).
  { intros p (card & Hcard & <-)%Hsub. apply elem_of_seq.
    pose proof (setupGame_pairIds shuffle Hperm dict card Hcard). fold n in H. lia. }
  assert (Hbound : length (ThirdMemory.matched s) ≤ n).
  { rewrite <- (length_seq n 0). apply submseteq_length, NoDup_submseteq; done. }
  repeat split; try done; [lia|].
  intros Hall index Hindex. unfold ThirdMemory.handleFlip.
  destruct (_ || _); [done|].
  destruct (lookup_lt_is_Some_2 _ _ Hindex) as [card Hcard]. rewrite Hcard.
  cbn [mbind option_bind].
  assert (Hfull : seq 0 n ⊆ ThirdMemory.matched s).
  { assert (Hp : ThirdMemory.matched s ≡ₚ seq 0 n).
    { apply submseteq_length_Permutation; [by apply NoDup_submseteq|].
      rewrite length_seq. lia. }
    intros p Hp'. by rewrite Hp. }
  rewrite bool_decide_true; [done|]. apply Hfull, elem_of_seq.
  rewrite Hcards in Hcard. apply list_elem_of_lookup_2 in Hcard.
  pose proof (setupGame_pairIds shuffle Hperm dict card Hcard). fold n in H. lia.
Qed.

Definition memory_words : list ThirdMemory.Word :=
  [ {| ThirdMemory.faka_uvea := str "alofa"; ThirdMemory.french := str "amour" |};
    {| ThirdMemory.faka_uvea := str "api"; ThirdMemory.french := str "maison" |} ].

Definition memory_events : list ThirdMemory.Event :=
  [ ThirdMemory.Flip 0; ThirdMemory.Flip 2; ThirdMemory.Timer;
    ThirdMemory.Flip 0; ThirdMemory.Flip 1; ThirdMemory.Flip 1 ].

Lemma memory_game_invariants_witness :
  ∃ s, ThirdMemory.run memory_events (ThirdMemory.setupGame keep memory_words) = Some s
       ∧ ThirdMemory.cards s = ThirdMemory.cards (ThirdMemory.setupGame keep memory_words)
       ∧ NoDup (ThirdMemory.matched s)
       ∧ length (ThirdMemory.matched s) ≤ 6
       ∧ length (ThirdMemory.matched s) ≤ ThirdMemory.moves s
       ∧ length (ThirdMemory.flipped s) ≤ 2
       ∧ (length (ThirdMemory.matched s) = length memory_words `min` 6 →
          ∀ index, index < length (ThirdMemory.cards s) →
                   ThirdMemory.handleFlip index s = Some s).
Proof.
  apply (memory_game_invariants keep memory_words memory_events).
  - exact keep_perm.
  - unfold clicks_below, memory_events. cbn.
    repeat (constructor; [first [exact I|lia]|]). constructor.
Defined.

(** ** Editing the dictionary (index.tsx 2190-2210) *)

Module Gestion.

(** [handleDelete]; [confirmed] is the answer to [window.confirm]. *)
Definition handleDelete (confirmed : bool) (headword : jsstring)
    (prev : list DictionaryEntry) : list DictionaryEntry :=
  if confirmed then filter (λ entry, faka_uvea entry ≠ headword) prev else prev.

Section Sort.

(** [sort((a, b) => a.faka_uvea.localeCompare(b.faka_uvea))] *)
Variable sort : list DictionaryEntry → list DictionaryEntry.

(** [handleSaveWord] *)
Definition handleSaveWord (wordToSave : DictionaryEntry) (prev : list DictionaryEntry)
  : list DictionaryEntry :=
  let isEditing :=
    existsb (λ e, jsstring_eqb (faka_uvea e) (faka_uvea wordToSave)) prev in
  let newDict :=
    if isEditing
    then (λ e, if jsstring_eqb (faka_uvea e) (faka_uvea wordToSave)
               then wordToSave else e) <$> prev
    else prev ++ [wordToSave] in
  sort newDict.

End Sort.

End Gestion.

Lemma existsb_headword w prev :
  existsb (λ e, jsstring_eqb (faka_uvea e) (faka_uvea w)) prev = true
  ↔ faka_uvea w ∈ faka_uvea <$> prev.
Proof.
  rewrite existsb_exists, list_elem_of_fmap. split.
  - intros (e & He & Heq%jsstring_eqb_eq). exists e. by rewrite list_elem_of_In.
  - intros (e & Heq & He). exists e. rewrite <- list_elem_of_In.
    split; [done|]. by apply jsstring_eqb_eq.
Qed.

Section SaveWord.

Variable sort : list DictionaryEntry → list DictionaryEntry.
Hypothesis sort_perm : ∀ l, sort l ≡ₚ l.

Lemma handleSaveWord_elem_of w prev e :
  e ∈ Gestion.handleSaveWord sort w prev
  ↔ e = w ∨ (e ∈ prev ∧ faka_uvea e ≠ faka_uvea w).
Proof.
  unfold Gestion.handleSaveWord. rewrite sort_perm.
  destruct (existsb _ prev) eqn:Hedit.
  - rewrite list_elem_of_fmap. split.
    + intros (x & -> & Hx).
      destruct (jsstring_eqb (faka_uvea x) (faka_uvea w)) eqn:Heq; [by left|].
      right. split; [done|]. intros Heq'%jsstring_eqb_eq. congruence.
    + intros [->|[He Hne]].
      * apply existsb_exists in Hedit as (x & Hx & Heq). exists x.
        rewrite Heq. by rewrite list_elem_of_In.
      * exists e. split; [|done].
        destruct (jsstring_eqb (faka_uvea e) (faka_uvea w)) eqn:Heq; [|done].
        by apply jsstring_eqb_eq in Heq.
  - rewrite elem_of_app, list_elem_of_singleton. split.
    + intros [He| ->]; [|by left]. right. split; [done|].
      intros Heq. apply not_true_iff_false in Hedit. apply Hedit, existsb_headword.
      rewrite <- Heq. apply list_elem_of_fmap. by exists e.
    + intros [->|[He _]]; [by right|by left].
Qed.

Lemma handleSaveWord_headwords w prev :
  NoDup (faka_uvea <$> prev) →
  NoDup (faka_uvea <$> Gestion.handleSaveWord sort w prev).
Proof.
  intros Hnd. unfold Gestion.handleSaveWord. rewrite sort_perm.
  destruct (existsb _ prev) eqn:Hedit.
  - rewrite <- list_fmap_compose.
    replace (faka_uvea ∘ _ <$> prev) with (faka_uvea <$> prev); [done|].
    apply list_fmap_ext. intros i e _. cbn.
    destruct (jsstring_eqb (faka_uvea e) (faka_uvea w)) eqn:Heq; [|done].
    by apply jsstring_eqb_eq in Heq.
  - rewrite fmap_app. apply NoDup_app. split; [done|]. split; [|apply NoDup_singleton].
    intros x Hx ->%list_elem_of_singleton. apply not_true_iff_false in Hedit.
    by apply Hedit, existsb_headword.
Qed.

End SaveWord.

(** X19. Saving a word in the dictionary editor puts it in the dictionary,
    removes every other entry with its headword and keeps exactly the entries
    with another headword; headwords that were distinct stay distinct; a
    confirmed deletion of the headword then leaves exactly the entries with
    another headword, and a deletion that is not confirmed changes nothing. *)
Theorem handleSaveWord_upsert (sort : list DictionaryEntry → list DictionaryEntry)
    (w : DictionaryEntry) (prev : list DictionaryEntry) :
  (∀ l, sort l ≡ₚ l) →
  w ∈ Gestion.handleSaveWord sort w prev
  ∧ (∀ e, e ∈ Gestion.handleSaveWord sort w prev → faka_uvea e = faka_uvea w → e = w)
  ∧ (∀ e, faka_uvea e ≠ faka_uvea w →
          (e ∈ Gestion.handleSaveWord sort w prev ↔ e ∈ prev))
  ∧ (NoDup (faka_uvea <$> prev) →
     NoDup (faka_uvea <$> Gestion.handleSaveWord sort w prev))
  ∧ (∀ e, e ∈ Gestion.handleDelete true (faka_uvea w) (Gestion.handleSaveWord sort w prev)
          ↔ e ∈ prev ∧ faka_uvea e ≠ faka_uvea w)
  ∧ (∀ headword, Gestion.handleDelete false headword prev = prev).
Proof.
  intros Hperm. split; [|split; [|split; [|split; [|split]]]].
  - apply handleSaveWord_elem_of; [done|]. by left.
  - intros e He Heq. apply handleSaveWord_elem_of in He as [->|[_ Hne]]; done.
  - intros e Hne. split.
    + intros He. apply handleSaveWord_elem_of in He as [->|[He _]]; done.
    + intros He. apply handleSaveWord_elem_of; [done|]. by right.
  - by apply handleSaveWord_headwords.
  - intros e. unfold Gestion.handleDelete. rewrite list_elem_of_filter.
    rewrite handleSaveWord_elem_of by done. split.
    + by intros [Hne [->|[He _]]].
    + intros [He Hne]. split; [done|]. by right.
  - done.
Qed.

Lemma handleSaveWord_upsert_witness :
  alofa ∈ Gestion.handleSaveWord (keep _) alofa [aliki; alofa]
  ∧ (∀ e, e ∈ Gestion.handleSaveWord (keep _) alofa [aliki; alofa] →
          faka_uvea e = faka_uvea alofa → e = alofa)
  ∧ (∀ e, faka_uvea e ≠ faka_uvea alofa →
          (e ∈ Gestion.handleSaveWord (keep _) alofa [aliki; alofa] ↔ e ∈ [aliki; alofa]))
  ∧ (NoDup (faka_uvea <$> [aliki; alofa]) →
     NoDup (faka_uvea <$> Gestion.handleSaveWord (keep _) alofa [aliki; alofa]))
  ∧ (∀ e, e ∈ Gestion.handleDelete true (faka_uvea alofa)
                (Gestion.handleSaveWord (keep _) alofa [aliki; alofa])
          ↔ e ∈ [aliki; alofa] ∧ faka_uvea e ≠ faka_uvea alofa)
  ∧ (∀ headword, Gestion.handleDelete false headword [aliki; alofa] = [aliki; alofa]).
Proof. apply (handleSaveWord_upsert (keep _) alofa [aliki; alofa]). done. Defined.
